(** * fastq_pair: pairing two FASTQ streams through a chained hash index

    A shallow embedding of [src/fastq_pair.c] ([pair_files] and [hash]) and
    the properties of its identifier normalisation, its index, its matcher
    and its orphan pass.

    The C text is followed block by block.  The line buffer is a list of
    bytes of fixed capacity with checked loads and stores, a stream is its
    contents and a cursor, a bucket chain is a list (head first) and the
    table is a list of chains. *)

From Stdlib Require Import ZArith Ascii String List Lia.
From stdpp Require Import base option list strings relations.

Local Open Scope Z_scope.
Local Open Scope nat_scope.

(** ** Outcomes

    A run either completes, or performs an access that C leaves undefined
    (a load or store outside the line buffer, a remainder by zero), or the
    loop bound handed to the model is exhausted. *)

Inductive result (A : Type) : Type :=
| Ok (a : A)
| Undefined
| OutOfFuel.

Arguments Ok {A} a.
Arguments Undefined {A}.
Arguments OutOfFuel {A}.

#[global] Instance result_ret : MRet result := fun A a => Ok a.
#[global] Instance result_bind : MBind result := fun A B f m =>
  match m with
  | Ok a => f a
  | Undefined => Undefined
  | OutOfFuel => OutOfFuel
  end.

#[global] Instance result_fmap : FMap result := fun A B f m =>
  match m with
  | Ok a => Ok (f a)
  | Undefined => Undefined
  | OutOfFuel => OutOfFuel
  end.

Definition is_Ok {A} (r : result A) : bool :=
  match r with Ok _ => true | _ => false end.

(** ** Bytes and C strings *)

Definition NUL : ascii := "000"%char.
Definition LF : ascii := "010"%char.
Definition TAB : ascii := "009"%char.
Definition SPACE : ascii := " "%char.

Definition bytes (s : string) : list ascii := list_ascii_of_string s.

(** A text line: the bytes of [s] followed by the line terminator. *)
Definition ln (s : string) : list ascii := bytes s ++ [LF].

Definition char_in (c : ascii) (set : list ascii) : bool :=
  existsb (Ascii.eqb c) set.

(** [strcspn s reject]: the length of the initial segment of the C string
    in [s] that holds no byte of [reject]; the scan also stops at the
    terminating NUL. *)
Fixpoint strcspn (s : list ascii) (reject : list ascii) : nat :=
  match s with
  | [] => 0
  | c :: s' =>
      if Ascii.eqb c NUL || char_in c reject then 0
      else S (strcspn s' reject)
  end.

Definition strlen (s : list ascii) : nat := strcspn s [].

(** The C string held at the start of a buffer. *)
Definition cstring (s : list ascii) : list ascii := take (strlen s) s.

(** Modelled from the spec: [dupstr] and [catstr] of [robstr.h], which is
    not part of the sources at hand; the first returns an owned copy of a
    string, the second the concatenation of two strings. *)
Definition dupstr (line : list ascii) : list ascii := cstring line.
Definition catstr (a b : list ascii) : list ascii := a ++ b.

(** ** The line buffer

    [line[i]] as an rvalue and as an lvalue.  The index is an integer: the
    C expression [strlen(line)-1] on an empty string designates the byte
    before the buffer. *)

Definition load (line : list ascii) (i : Z) : result ascii :=
  if (i <? 0)%Z then Undefined
  else match line !! Z.to_nat i with
       | Some c => Ok c
       | None => Undefined
       end.

Definition store (line : list ascii) (i : Z) (c : ascii) : result (list ascii) :=
  if (i <? 0)%Z then Undefined
  else if (Z.to_nat i <? length line) then Ok (<[Z.to_nat i := c]> line)
  else Undefined.

Definition zlen (line : list ascii) : Z := Z.of_nat (strlen line).

(** ** Identifier normalisation (lines 185-209 and 372-386) *)

Definition is_separator (c : ascii) : bool :=
  Ascii.eqb "/"%char c || Ascii.eqb "_"%char c || Ascii.eqb "."%char c.

Definition is_mate (c : ascii) : bool :=
  Ascii.eqb "1"%char c || Ascii.eqb "2"%char c
  || Ascii.eqb "f"%char c || Ascii.eqb "r"%char c.

(** Lines 185-187 and 372-374: the terminator, and the text after the
    first blank or tab when [splitspace] is set, are cut off. *)
Definition truncate_line (splitspace : bool) (line : list ascii)
  : result (list ascii) :=
  line ← store line (Z.of_nat (strcspn line [LF])) NUL;
  if splitspace
  then store line (Z.of_nat (strcspn line [SPACE; TAB])) NUL
  else Ok line.

(** Lines 200-209 and 377-386. *)
Definition mate_rule (line : list ascii) : result (list ascii) :=
  lastchar ← load line (zlen line - 1);
  lastbutone ← load line (zlen line - 2);
  if is_separator lastbutone then
    if is_mate lastchar then store line (zlen line - 1) NUL
    else Ok line
  else
    line ← store line (zlen line + 1) NUL;
    store line (zlen line - 1) "/"%char.

Definition normalize (splitspace : bool) (line : list ascii) : result (list ascii) :=
  line ← truncate_line splitspace line;
  mate_rule line.

(** The part of a raw header line that the identifier is made of: the
    text before the line terminator, cut at the first blank or tab when
    [splitspace] is set. *)
Definition id_part (splitspace : bool) (line : list ascii) : list ascii :=
  let s := take (strcspn line [LF]) line in
  if splitspace then take (strcspn s [SPACE; TAB]) s else s.

(** The canonical id of an identifier text of two bytes or more, as the
    nested conditional of the source yields it: a mate marker after a
    separator is dropped, any other byte after a separator stays, and
    without a separator the last byte becomes a slash. *)
Definition canonical_id (s : list ascii) : list ascii :=
  let L := length s in
  if L <? 2 then s
  else match s !! (L - 2), s !! (L - 1) with
       | Some lastbutone, Some lastchar =>
           if is_separator lastbutone then
             if is_mate lastchar then take (L - 1) s else s
           else <[L - 1 := "/"%char]> s
       | _, _ => s
       end.

(** The rule in the words of the specification: the marker is dropped when
    a separator and a mate marker end the text, otherwise the last byte is
    overwritten with a slash. *)
Definition canonical_id_spec (s : list ascii) : list ascii :=
  let L := length s in
  match s !! (L - 2), s !! (L - 1) with
  | Some lastbutone, Some lastchar =>
      if is_separator lastbutone && is_mate lastchar then take (L - 1) s
      else <[L - 1 := "/"%char]> s
  | _, _ => s
  end.

(** ** The hash (lines 566-572)

    [unsigned] is 32 bits wide.  Whether a plain [char] is signed is left to
    the platform; [char_signed] selects the reading. *)

Definition char_value (char_signed : bool) (c : ascii) : Z :=
  let n := Z.of_nat (nat_of_ascii c) in
  if char_signed && (128 <=? n)%Z then (n - 256)%Z else n.

Definition UINT_MOD : Z := 2 ^ 32.

(** The loop of [hash] over the bytes of a C string (the list ends where
    the terminating NUL stands). *)
Fixpoint hash_loop (char_signed : bool) (hashval : Z) (s : list ascii) : Z :=
  match s with
  | [] => hashval
  | c :: s' =>
      hash_loop char_signed
        ((char_value char_signed c + 31 * hashval) mod UINT_MOD)%Z s'
  end.

Definition hash (char_signed : bool) (s : list ascii) : Z :=
  hash_loop char_signed 0%Z s.

(** ** Streams: [readFromFile], [seekInFile], [tellInFile] (lines 82-107)

    A plain and a gzip stream behave alike for the caller: the contents
    (uncompressed) and a read position. *)

Record stream := Stream { data : list ascii; cursor : nat }.

(** What one call of [fgets] takes from the rest of the stream: at most [n]
    bytes, ending after the first line terminator. *)
Fixpoint gets (n : nat) (rest : list ascii) : list ascii :=
  match n, rest with
  | S n', c :: rest' => c :: (if Ascii.eqb c LF then [] else gets n' rest')
  | _, _ => []
  end.

(** Returns whether the result is non-NULL, the stream and the buffer.  At
    end of file nothing is read, the buffer is left as it is and the result
    is NULL. *)
Definition readFromFile (fp : stream) (line : list ascii) (max_len : nat)
  : bool * stream * list ascii :=
  match drop (cursor fp) (data fp) with
  | [] => (false, fp, line)
  | rest =>
      let l := gets (max_len - 1) rest in
      (true, Stream (data fp) (cursor fp + length l),
       l ++ NUL :: drop (S (length l)) line)
  end.

Definition seekInFile (fp : stream) (offset : Z) : stream :=
  Stream (data fp) (Z.to_nat offset).

Definition tellInFile (fp : stream) : Z := Z.of_nat (cursor fp).

(** ** The index (struct idloc of [fastq_pair.h]) and the options *)

Record idloc := Idloc { id : list ascii; pos : Z; printed : bool }.

(** The options read by [pair_files] (struct options of [fastq_pair.h]);
    [verbose] and [print_table_counts] only add diagnostics and are left
    out.  [tablesize] is an [int] in the source; a negative one makes the
    allocation of the table fail before anything is read. *)
Record options := Options {
  tablesize : nat;
  deduplicate : bool;
  splitspace : bool;
  formatid : bool
}.

Definition bucket (ids : list (list idloc)) (hashval : nat) : list idloc :=
  default [] (ids !! hashval).

(** [strcmp(a, b) == 0] on two C strings. *)
Definition strcmp0 (a b : list ascii) : bool := bool_decide (a = b).

(** The duplicate scan of a chain (lines 219-231 and 399-411): whether an
    entry with this id exists. *)
Fixpoint seen_before (existing : list idloc) (line : list ascii) : bool :=
  match existing with
  | [] => false
  | e :: next => if strcmp0 (id e) line then true else seen_before next line
  end.

(** The chain walk of the matcher (lines 426-433): the whole chain is
    walked, every entry with this id is marked and its position taken. *)
Fixpoint find_mate (ptr : list idloc) (line : list ascii) (posn : Z)
  : Z * list idloc :=
  match ptr with
  | [] => (posn, [])
  | e :: next =>
      if strcmp0 (id e) line then
        let '(posn', next') := find_mate next line (pos e) in
        (posn', Idloc (id e) (pos e) true :: next')
      else
        let '(posn', next') := find_mate next line posn in
        (posn', e :: next')
  end.

(** What the walk does to one entry: an entry with this id is marked. *)
Definition mark (line : list ascii) (e : idloc) : idloc :=
  if strcmp0 (id e) line then Idloc (id e) (pos e) true else e.

(** What a run leaves: the four output streams and the six counters (of
    type [int] in the source, taken here to stay below its bound). *)
Record report := Report {
  left_paired : list ascii;
  right_paired : list ascii;
  left_single : list ascii;
  right_single : list ascii;
  left_paired_counter : nat;
  right_paired_counter : nat;
  left_single_counter : nat;
  right_single_counter : nat;
  left_duplicates_counter : nat;
  right_duplicates_counter : nat
}.

(** State of the first loop (lines 171-250). *)
Record left_state := LeftState {
  l_lfp : stream;
  l_line : list ascii;
  l_nextposition : Z;
  l_ids_left : list (list idloc);
  l_left_duplicates : nat
}.

(** State of the second loop (lines 354-477). *)
Record right_state := RightState {
  r_lfp : stream;
  r_rfp : stream;
  r_line : list ascii;
  r_ids_left : list (list idloc);
  r_ids_right : list (list idloc);
  r_right_duplicates : nat;
  r_left_paired_counter : nat;
  r_right_paired_counter : nat;
  r_right_single_counter : nat;
  r_left_paired : list ascii;
  r_right_paired : list ascii;
  r_right_single : list ascii
}.

(** State of the last loop (lines 481-498). *)
Record orphan_state := OrphanState {
  o_lfp : stream;
  o_line : list ascii;
  o_left_single_counter : nat;
  o_left_single : list ascii
}.

(** What [malloc] hands to [pair_files]: the table of the left file (line
    120), the table of the right file (line 129) and the line buffer (line
    151).  None of the three is initialised by the source, so what they
    hold when the run starts is whatever the allocator left there, and the
    run depends on it.  A slot of a table is given by the chain it denotes:
    [[]] for [NULL], a list of entries for a pointer to a chain that ends
    in [NULL]; a slot whose bits denote no such chain is outside the
    model. *)
Record allocation := Allocation {
  m_ids_left : list (list idloc);
  m_ids_right : list (list idloc);
  m_line : list ascii
}.

(** What the build fixes: [MAXLINELEN] of [fastq_pair.h] (the header is not
    part of the sources at hand) and the signedness of a plain [char]. *)
Class Platform := {
  MAXLINELEN : nat;
  char_signed : bool
}.

Section Program.

Context {platform : Platform}.
Variable opt : options.

(** [hash(line) % opt->tablesize] *)
Definition hashval_of (line : list ascii) : result nat :=
  if tablesize opt =? 0 then Undefined
  else Ok (Z.to_nat (hash char_signed line mod Z.of_nat (tablesize opt))).

(** A read whose result is ignored. *)
Definition read_line (fp : stream) (line : list ascii) : stream * list ascii :=
  let '(_, fp, line) := readFromFile fp line MAXLINELEN in (fp, line).

Fixpoint skip_lines (n : nat) (fp : stream) (line : list ascii)
  : stream * list ascii :=
  match n with
  | 0 => (fp, line)
  | S n' => let '(fp, line) := read_line fp line in skip_lines n' fp line
  end.

(** Read a line and write the buffer, [n] times. *)
Fixpoint copy_lines (n : nat) (fp : stream) (line out : list ascii)
  : stream * list ascii * list ascii :=
  match n with
  | 0 => (fp, line, out)
  | S n' =>
      let '(fp, line) := read_line fp line in
      copy_lines n' fp line (out ++ cstring line)
  end.

(** The four-line loops at lines 440-447 and 487-494: the first line read
    is replaced by [newheader] when ids are formatted. *)
Definition copy_record (newheader : list ascii) (fp : stream)
    (line out : list ascii) : stream * list ascii * list ascii :=
  let '(fp, line) := read_line fp line in
  let out := if formatid opt then out ++ newheader else out ++ cstring line in
  copy_lines 3 fp line out.

(** Insertion at the head of a chain (lines 237-241 and 417-421). *)
Definition insert_head (ids : list (list idloc)) (hashval : nat)
    (line : list ascii) (nextposition : Z) : list (list idloc) :=
  <[hashval := Idloc (dupstr line) nextposition false :: bucket ids hashval]> ids.

(** One turn of the first loop; [None] is the [break]. *)
Definition left_body (st : left_state) : result (option left_state) :=
  let '(aline, lfp, line) := readFromFile (l_lfp st) (l_line st) MAXLINELEN in
  if negb aline then Ok None
  else
    line ← normalize (splitspace opt) line;
    hashval ← hashval_of (cstring line);
    let duplicate :=
      deduplicate opt && seen_before (bucket (l_ids_left st) hashval) (cstring line) in
    let left_duplicates :=
      if duplicate then S (l_left_duplicates st) else l_left_duplicates st in
    let ids_left :=
      if duplicate then l_ids_left st
      else insert_head (l_ids_left st) hashval line (l_nextposition st) in
    let '(lfp, line) := skip_lines 3 lfp line in
    Ok (Some (LeftState lfp line (tellInFile lfp) ids_left left_duplicates)).

Fixpoint left_loop (fuel : nat) (st : left_state) : result left_state :=
  match fuel with
  | 0 => OutOfFuel
  | S fuel' =>
      next ← left_body st;
      match next with
      | None => Ok st
      | Some st' => left_loop fuel' st'
      end
  end.

(** One turn of the second loop. *)
Definition right_body (st : right_state) : result (option right_state) :=
  let '(aline, rfp, line) := readFromFile (r_rfp st) (r_line st) MAXLINELEN in
  if negb aline then Ok None
  else
    let headerline := dupstr line in
    line ← normalize (splitspace opt) line;
    hashval ← hashval_of (cstring line);
    let entryid := dupstr line in
    if deduplicate opt && seen_before (bucket (r_ids_right st) hashval) (cstring line)
    then
      let '(rfp, line) := skip_lines 3 rfp line in
      Ok (Some (RightState (r_lfp st) rfp line (r_ids_left st) (r_ids_right st)
                  (S (r_right_duplicates st))
                  (r_left_paired_counter st) (r_right_paired_counter st)
                  (r_right_single_counter st)
                  (r_left_paired st) (r_right_paired st) (r_right_single st)))
    else
      let ids_right :=
        if deduplicate opt then insert_head (r_ids_right st) hashval line 0%Z
        else r_ids_right st in
      let '(posn, chain) := find_mate (bucket (r_ids_left st) hashval) (cstring line) (-1)%Z in
      let ids_left := <[hashval := chain]> (r_ids_left st) in
      let newheader := catstr entryid (ln "2") in
      if negb (posn =? -1)%Z then
        let lfp := seekInFile (r_lfp st) posn in
        let '(lfp, line, left_paired) :=
          copy_record (catstr entryid (ln "1")) lfp line (r_left_paired st) in
        let right_paired :=
          if formatid opt then r_right_paired st ++ newheader
          else r_right_paired st ++ headerline in
        let '(rfp, line, right_paired) := copy_lines 3 rfp line right_paired in
        Ok (Some (RightState lfp rfp line ids_left ids_right
                    (r_right_duplicates st)
                    (S (r_left_paired_counter st)) (S (r_right_paired_counter st))
                    (r_right_single_counter st)
                    left_paired right_paired (r_right_single st)))
      else
        let right_single :=
          if formatid opt then r_right_single st ++ newheader
          else r_right_single st ++ headerline in
        let '(rfp, line, right_single) := copy_lines 3 rfp line right_single in
        Ok (Some (RightState (r_lfp st) rfp line ids_left ids_right
                    (r_right_duplicates st)
                    (r_left_paired_counter st) (r_right_paired_counter st)
                    (S (r_right_single_counter st))
                    (r_left_paired st) (r_right_paired st) right_single)).

Fixpoint right_loop (fuel : nat) (st : right_state) : result right_state :=
  match fuel with
  | 0 => OutOfFuel
  | S fuel' =>
      next ← right_body st;
      match next with
      | None => Ok st
      | Some st' => right_loop fuel' st'
      end
  end.

(** Lines 485-494: what is done for an entry that was not printed. *)
Definition orphan_emit (st : orphan_state) (e : idloc) : orphan_state :=
  let lfp := seekInFile (o_lfp st) (pos e) in
  let '(lfp, line, left_single) :=
    copy_record (catstr (id e) (ln "1")) lfp (o_line st) (o_left_single st) in
  OrphanState lfp line (S (o_left_single_counter st)) left_single.

(** The inner [while] of the last loop, over one chain. *)
Fixpoint orphan_chain (ptr : list idloc) (st : orphan_state) : orphan_state :=
  match ptr with
  | [] => st
  | e :: next =>
      if negb (printed e) then orphan_chain next (orphan_emit st e)
      else orphan_chain next st
  end.

(** The outer [for] over the buckets, in index order. *)
Fixpoint orphan_loop (ids_left : list (list idloc)) (st : orphan_state)
  : orphan_state :=
  match ids_left with
  | [] => st
  | ptr :: rest => orphan_loop rest (orphan_chain ptr st)
  end.

(** Both tables hold [NULL] in every slot, and the three blocks have the
    sizes asked for at lines 120, 129 and 151.  The line buffer holds
    anything. *)
Definition zero_tables (mem : allocation) : Prop :=
  m_ids_left mem = replicate (tablesize opt) []
  ∧ (deduplicate opt = true → m_ids_right mem = replicate (tablesize opt) [])
  ∧ length (m_line mem) = MAXLINELEN + 1.

(** [pair_files] on what [malloc] returned and on the contents of the two
    input files.  The run starts after the allocations and the opening of
    the files have succeeded (the failure paths exit at once).  The source
    sets no slot of a table before the loops read it (lines 219, 240, 399,
    420, 425, 482), so the loops start from the tables as [mem] has them;
    the right table exists only with duplicate tracking.  The loops are
    given one turn more than the stream has bytes. *)
Definition pair_files (mem : allocation) (left_fn right_fn : list ascii)
  : result report :=
  let ids_left := m_ids_left mem in
  let ids_right := if deduplicate opt then m_ids_right mem else [] in
  let line := m_line mem in
  ls ← left_loop (S (length left_fn))
         (LeftState (Stream left_fn 0) line 0%Z ids_left 0);
  rs ← right_loop (S (length right_fn))
         (RightState (l_lfp ls) (Stream right_fn 0) (l_line ls)
            (l_ids_left ls) ids_right 0 0 0 0 [] [] []);
  let os := orphan_loop (r_ids_left rs)
              (OrphanState (r_lfp rs) (r_line rs) 0 []) in
  Ok (Report (r_left_paired rs) (r_right_paired rs)
        (o_left_single os) (r_right_single rs)
        (r_left_paired_counter rs) (r_right_paired_counter rs)
        (o_left_single_counter os) (r_right_single_counter rs)
        (l_left_duplicates ls) (r_right_duplicates rs)).

End Program.

(** ** Streams of records

    The vocabulary in which the properties of a whole run are stated: a
    record of four text lines, the bytes of a stream of records, and what
    the run does seen record by record. *)

Record fastq := Fastq {
  header : list ascii;
  sequence : list ascii;
  separator : list ascii;
  quality : list ascii
}.

#[global] Instance fastq_eq_dec : EqDecision fastq.
Proof. solve_decision. Defined.

(** The three lines after the header. *)
Definition render_tail (r : fastq) : list ascii :=
  (sequence r ++ [LF]) ++ (separator r ++ [LF]) ++ (quality r ++ [LF]).

Definition render_record (r : fastq) : list ascii :=
  (header r ++ [LF]) ++ render_tail r.

Definition render (rs : list fastq) : list ascii :=
  mjoin (render_record <$> rs).

(** The record that starts at byte [posn] of the stream of [rs], [off]
    being where [rs] starts. *)
Fixpoint record_at (rs : list fastq) (off : nat) (posn : Z) : option fastq :=
  match rs with
  | [] => None
  | r :: rs' =>
      if (Z.of_nat off =? posn)%Z then Some r
      else record_at rs' (off + length (render_record r)) posn
  end.

(** The second loop without its streams and buffer. *)
Record right_view := RightView {
  v_ids_left : list (list idloc);
  v_ids_right : list (list idloc);
  v_right_duplicates : nat;
  v_left_paired_counter : nat;
  v_right_paired_counter : nat;
  v_right_single_counter : nat;
  v_left_paired : list ascii;
  v_right_paired : list ascii;
  v_right_single : list ascii
}.

Definition view (st : right_state) : right_view :=
  RightView (r_ids_left st) (r_ids_right st) (r_right_duplicates st)
    (r_left_paired_counter st) (r_right_paired_counter st)
    (r_right_single_counter st)
    (r_left_paired st) (r_right_paired st) (r_right_single st).

(** The stream [fp] has read [pre] and has [post] ahead. *)
Definition positioned (fp : stream) (pre post : list ascii) : Prop :=
  data fp = pre ++ post ∧ cursor fp = length pre.

Section Records.

Context {platform : Platform}.
Variable opt : options.

(** A line of text that one read takes whole: no NUL, no terminator
    inside, and room for the terminator and the NUL. *)
Definition is_text (l : list ascii) : bool :=
  forallb (λ c, negb (Ascii.eqb c NUL) && negb (Ascii.eqb c LF)) l
  && (length l + 2 <=? MAXLINELEN).

(** A record of four such lines whose identifier text has two bytes or
    more. *)
Definition well_formed (r : fastq) : bool :=
  is_text (header r) && is_text (sequence r)
  && is_text (separator r) && is_text (quality r)
  && (2 <=? length (id_part (splitspace opt) (header r))).

(** The canonical id of a record. *)
Definition key (r : fastq) : list ascii :=
  canonical_id (id_part (splitspace opt) (header r)).

(** What is written for record [r] with canonical id [k]; [mate] is the
    digit put after the id when ids are formatted. *)
Definition written (mate : string) (k : list ascii) (r : fastq) : list ascii :=
  (if formatid opt then catstr k (ln mate) else header r ++ [LF])
  ++ render_tail r.

Definition hashval (k : list ascii) : nat :=
  Z.to_nat (hash char_signed k mod Z.of_nat (tablesize opt)).

(** One turn of the first loop on a record with canonical id [k] that
    starts at [posn]: the table and the duplicate counter. *)
Definition index_step (v : list (list idloc) * nat) (k : list ascii) (posn : Z)
  : list (list idloc) * nat :=
  if deduplicate opt && seen_before (bucket v.1 (hashval k)) k
  then (v.1, S v.2)
  else (<[hashval k := Idloc k posn false :: bucket v.1 (hashval k)]> v.1, v.2).

Fixpoint index_records (off : nat) (rs : list fastq)
    (v : list (list idloc) * nat) : list (list idloc) * nat :=
  match rs with
  | [] => v
  | r :: rs' =>
      index_records (off + length (render_record r)) rs'
        (index_step v (key r) (Z.of_nat off))
  end.

(** One turn of the second loop on record [r], the left stream holding the
    records [ls]. *)
Definition right_step (ls : list fastq) (v : right_view) (r : fastq) : right_view :=
  let k := key r in
  if deduplicate opt && seen_before (bucket (v_ids_right v) (hashval k)) k then
    RightView (v_ids_left v) (v_ids_right v) (S (v_right_duplicates v))
      (v_left_paired_counter v) (v_right_paired_counter v)
      (v_right_single_counter v)
      (v_left_paired v) (v_right_paired v) (v_right_single v)
  else
    let ids_right :=
      if deduplicate opt
      then <[hashval k := Idloc k 0 false :: bucket (v_ids_right v) (hashval k)]>
             (v_ids_right v)
      else v_ids_right v in
    let found := find_mate (bucket (v_ids_left v) (hashval k)) k (-1) in
    let ids_left := <[hashval k := found.2]> (v_ids_left v) in
    match record_at ls 0 found.1 with
    | Some l =>
        RightView ids_left ids_right (v_right_duplicates v)
          (S (v_left_paired_counter v)) (S (v_right_paired_counter v))
          (v_right_single_counter v)
          (v_left_paired v ++ written "1" k l)
          (v_right_paired v ++ written "2" k r) (v_right_single v)
    | None =>
        RightView ids_left ids_right (v_right_duplicates v)
          (v_left_paired_counter v) (v_right_paired_counter v)
          (S (v_right_single_counter v))
          (v_left_paired v) (v_right_paired v)
          (v_right_single v ++ written "2" k r)
    end.

(** The second loop as it starts: the table of the left stream [ls], empty
    counters and outputs. *)
Definition initial_view (ls : list fastq) : right_view :=
  RightView (index_records 0 ls (replicate (tablesize opt) [], 0)).1
    (if deduplicate opt then replicate (tablesize opt) [] else [])
    0 0 0 0 [] [] [].

(** The first record of [ls] with canonical id [k]. *)
Definition mate (ls : list fastq) (k : list ascii) : option fastq :=
  head (filter (λ l, key l = k) ls).

(** What is written for a left and for a right record. *)
Definition out_left (l : fastq) : list ascii := written "1" (key l) l.
Definition out_right (r : fastq) : list ascii := written "2" (key r) r.

(** The last loop on the entries that were not printed. *)
Definition orphans (ls : list fastq) (ids_left : list (list idloc)) : list ascii :=
  mjoin ((λ e, from_option (written "1" (id e)) [] (record_at ls 0 (pos e)))
           <$> filter (λ e, printed e = false) (mjoin ids_left)).

(** Every position in the table is the start of a record of [ls]. *)
Definition points_into (ls : list fastq) (ids : list (list idloc)) : Prop :=
  Forall (λ e, is_Some (record_at ls 0 (pos e))) (mjoin ids).

(** Every entry sits in the bucket of its id. *)
Definition sorted_table (ids : list (list idloc)) : Prop :=
  length ids = tablesize opt
  ∧ ∀ h e, e ∈ bucket ids h → hashval (id e) = h.

(** What holds of the table after the first loop has read the records
    [done] of the left stream [ls]. *)
Definition index_invariant (ls done : list fastq)
    (v : list (list idloc) * nat) : Prop :=
  length v.1 = tablesize opt
  ∧ sorted_table v.1
  ∧ Forall (λ e, printed e = false
                 ∧ ∃ l, record_at ls 0 (pos e) = Some l ∧ key l = id e)
      (mjoin v.1)
  ∧ (∀ l, l ∈ done → key l ∈ id <$> mjoin v.1)
  ∧ (deduplicate opt = true →
     NoDup (id <$> mjoin v.1) ∧ length (mjoin v.1) + v.2 = length done).


(** What holds in the second loop after the right records [done], when no
    canonical id occurs twice in a stream. *)
Definition paired_invariant (ls done : list fastq) (v : right_view) : Prop :=
  length (v_ids_left v) = tablesize opt
  ∧ sorted_table (v_ids_left v)
  ∧ Forall (λ e, ∃ l, record_at ls 0 (pos e) = Some l ∧ key l = id e)
      (mjoin (v_ids_left v))
  ∧ (∀ l, l ∈ ls → key l ∈ id <$> mjoin (v_ids_left v))
  ∧ Forall (λ e, id e ∈ key <$> done) (mjoin (v_ids_right v))
  ∧ v_left_paired v = mjoin (out_left <$> omap (λ r, mate ls (key r)) done)
  ∧ v_right_paired v
    = mjoin (out_right <$> filter (λ r, is_Some (mate ls (key r))) done).

(** What holds in the second loop after the right records [done], with
    duplicate tracking; [total] is the number of entries of the table of
    the left stream. *)
Definition counted_invariant (ls : list fastq) (total : nat)
    (done : list fastq) (v : right_view) : Prop :=
  length (v_ids_left v) = tablesize opt
  ∧ sorted_table (v_ids_left v)
  ∧ NoDup (id <$> mjoin (v_ids_left v))
  ∧ points_into ls (v_ids_left v)
  ∧ length (mjoin (v_ids_left v)) = total
  ∧ length (v_ids_right v) = tablesize opt
  ∧ sorted_table (v_ids_right v)
  ∧ Forall (λ e, printed e = true → id e ∈ id <$> mjoin (v_ids_right v))
      (mjoin (v_ids_left v))
  ∧ length (filter (λ e, printed e = true) (mjoin (v_ids_left v)))
    = v_left_paired_counter v
  ∧ v_left_paired_counter v = v_right_paired_counter v
  ∧ v_right_duplicates v + v_right_paired_counter v + v_right_single_counter v
    = length done.

End Records.

(** A line buffer of 32 bytes holding the header [s] as [fgets] leaves
    it: the text, the terminator, the NUL. *)
Definition header_buffer (s : string) : list ascii :=
  ln s ++ replicate (31 - String.length s) NUL.

Definition rec4 (a b c d : string) : list ascii := ln a ++ ln b ++ ln c ++ ln d.

Definition demo_left := rec4 "A/1" "ACGT" "+" "IIII" ++ rec4 "B/1" "GGGG" "+" "JJJJ".
Definition demo_right := rec4 "A/2" "TTTT" "+" "KKKK" ++ rec4 "C/2" "CCCC" "+" "LLLL".
Definition demo_opt := Options 7 false false false.

(** Allocations of seven slots and a line buffer of 33 bytes: one that is
    zero-filled, one whose tables are empty and whose line buffer holds
    what an earlier use left, and one whose left table holds in slot 4 (the
    bucket of [A/]) an entry left by an earlier use. *)
Definition zero_mem : allocation :=
  Allocation (replicate 7 []) (replicate 7 []) (replicate 33 NUL).
Definition used_line_mem : allocation :=
  Allocation (replicate 7 []) (replicate 7 []) (replicate 33 "x"%char).
Definition stale_mem : allocation :=
  Allocation (<[4 := [Idloc (bytes "A/") 0 false]]> (replicate 7 []))
    (replicate 7 []) (replicate 33 NUL).
Definition dedup_opt := Options 7 true false false.

Definition record4 (a b c d : string) : fastq :=
  Fastq (bytes a) (bytes b) (bytes c) (bytes d).

Definition left_A : fastq := record4 "A/1" "ACGT" "+" "IIII".
Definition left_B : fastq := record4 "B/1" "GGGG" "+" "JJJJ".
Definition right_A : fastq := record4 "A/2" "TTTT" "+" "KKKK".
Definition right_C : fastq := record4 "C/2" "CCCC" "+" "LLLL".

(** A second left record with the id of [left_A]. *)
Definition left_A2 : fastq := record4 "A/1" "CCCC" "+" "MMMM".

(** The first loop before and after the first of two records with the same
    id, with duplicate tracking. *)
Definition dup_state0 : left_state :=
  LeftState (Stream (render [left_A; left_A2]) 0) (replicate 33 NUL) 0
    (replicate 7 []) 0.
Definition dup_state1 : left_state :=
  LeftState (Stream (render [left_A; left_A2]) 16)
    (ln "IIII" ++ replicate 28 NUL) 16
    (<[4 := [Idloc (bytes "A/") 0 false]]> (replicate 7 [])) 0.

(** The table of the left stream [left_A; left_B], the entry of [left_A]
    marked. *)
Definition demo_table : list (list idloc) :=
  [[Idloc (bytes "B/") 16 false]; []; []; [];
   [Idloc (bytes "A/") 0 true]; []; []].
Definition demo_orphan_state : orphan_state :=
  OrphanState (Stream (render [left_A; left_B]) 0) (replicate 33 NUL) 0 [].

(** The second loop in front of a right stream that holds a header and
    nothing else. *)
Definition truncated_state : right_state :=
  RightState (Stream (render [left_A; left_B]) 0) (Stream (ln "C/2") 0)
    (replicate 33 NUL)
    [[Idloc (bytes "B/") 16 false]; []; []; [];
     [Idloc (bytes "A/") 0 false]; []; []]
    [] 0 0 0 0 [] [] [].

(** Three insertions into bucket 1 of a table of three buckets, in this
    order: [A/] at 0, [B/] at 16, [A/] at 32. *)
Definition demo_insertions : list (list ascii * Z) :=
  [(bytes "A/", 0%Z); (bytes "B/", 16%Z); (bytes "A/", 32%Z)].
Definition demo_chain : list idloc :=
  bucket (foldl (λ ids i, insert_head ids 1 i.1 i.2) (replicate 3 []) demo_insertions) 1.
Definition demo_platform : Platform := {| MAXLINELEN := 32; char_signed := true |}.

(** ** Output names ([removeSuffix], lines 42-71; lines 278-289) *)

Definition suffixes : list (list ascii) :=
  [bytes ".fastq"; bytes ".fastq.gz"; bytes ".fq"; bytes "fq.gz"].

(** The loop of [removeSuffix] over the suffixes that are left to try; the
    copy of the whole string when the list is exhausted. *)
Fixpoint removeSuffix_loop (str : list ascii) (suffixes : list (list ascii))
  : list ascii :=
  match suffixes with
  | [] => str
  | suffix :: rest =>
      let str_len := length str in
      let suffix_len := length suffix in
      if (suffix_len <=? str_len)
         && strcmp0 (drop (str_len - suffix_len) str) suffix
      then take (str_len - suffix_len) str
      else removeSuffix_loop str rest
  end.

Definition removeSuffix (str : list ascii) : list ascii :=
  removeSuffix_loop str suffixes.

(** The four output names of lines 278-289; whether an input is gzipped is
    what [test_gzip] of [is_gzipped.h] says about it. *)
Record file_names := FileNames {
  lpfn : list ascii;
  rpfn : list ascii;
  lsfn : list ascii;
  rsfn : list ascii
}.

Definition output_file_names (is_gzip_left is_gzip_right : bool)
    (left_fn right_fn : list ascii) : file_names :=
  let is_gzip_out := is_gzip_left || is_gzip_right in
  if is_gzip_out then
    FileNames (catstr (removeSuffix left_fn) (bytes ".paired.fastq.gz"))
      (catstr (removeSuffix right_fn) (bytes ".paired.fastq.gz"))
      (catstr (removeSuffix left_fn) (bytes ".single.fastq.gz"))
      (catstr (removeSuffix right_fn) (bytes ".single.fastq.gz"))
  else
    FileNames (catstr (removeSuffix left_fn) (bytes ".paired.fastq"))
      (catstr (removeSuffix right_fn) (bytes ".paired.fastq"))
      (catstr (removeSuffix left_fn) (bytes ".single.fastq"))
      (catstr (removeSuffix right_fn) (bytes ".single.fastq")).

(** ** The bucket sizes of lines 257-270 *)

(** The inner [while]: the entries of one chain are counted. *)
Fixpoint chain_count (ptr : list idloc) (counter : nat) : nat :=
  match ptr with
  | [] => counter
  | _ :: next => chain_count next (S counter)
  end.

(** The pairs of numbers printed, one for each bucket in index order. *)
Definition table_counts (ids_left : list (list idloc)) : list (nat * nat) :=
  imap (λ i ptr, (i, chain_count ptr 0)) ids_left.

(** What one entry may become while the second loop runs: same id, same
    position, and a mark that is not taken back. *)
Definition entry_kept (e e' : idloc) : Prop :=
  id e' = id e ∧ pos e' = pos e ∧ (printed e = true → printed e' = true).

(** ** What a run writes, record by record *)

Section Outputs.

Context {platform : Platform}.
Variable opt : options.

(** The records of a stream that are not dropped as duplicates: all of
    them without duplicate tracking, the first of each canonical id with
    it. *)
Definition kept (rs : list fastq) : list fastq :=
  foldl (λ acc r,
           if deduplicate opt && bool_decide (key opt r ∈ key opt <$> acc)
           then acc else acc ++ [r]) [] rs.

(** Where the first record with canonical id [k] starts, [off] being where
    [rs] starts. *)
Fixpoint first_at (off : nat) (rs : list fastq) (k : list ascii) : option nat :=
  match rs with
  | [] => None
  | r :: rs' =>
      if bool_decide (key opt r = k) then Some off
      else first_at (off + length (render_record r)) rs' k
  end.

(** An entry as its id and the record at its position; a record as its
    canonical id and itself. *)
Definition entry_record (ls : list fastq) (e : idloc)
  : list ascii * option fastq := (id e, record_at ls 0 (pos e)).
Definition keyed (l : fastq) : list ascii * option fastq := (key opt l, Some l).

(** The chains of a table into which the records [U] were inserted in
    their order, each at the head of the chain of its canonical id; and
    these records in the order of the table: bucket after bucket, and in a
    chain the latest first. *)
Definition chains (U : list fastq) : list (list fastq) :=
  (λ h, reverse (filter (λ l, hashval opt (key opt l) = h) U))
    <$> seq 0 (tablesize opt).
Definition table_order (U : list fastq) : list fastq := mjoin (chains U).

(** The table [ids] holds, chain by chain and entry by entry, the records
    [U] of the left stream [ls]. *)
Definition table_shape (ls U : list fastq) (ids : list (list idloc)) : Prop :=
  fmap (M := list) (entry_record ls) <$> ids
  = fmap (M := list) keyed <$> chains U.

(** What holds of the table after the first loop has read the records
    [done] of the left stream [ls], whatever ids repeat. *)
Definition lookup_invariant (ls done : list fastq)
    (v : list (list idloc) * nat) : Prop :=
  (∀ k, pos <$> last (filter (λ e, id e = k) (bucket v.1 (hashval opt k)))
        = Z.of_nat <$> first_at 0 done k)
  ∧ entry_record ls <$> mjoin v.1 ≡ₚ keyed <$> kept done
  ∧ v.2 + length (kept done) = length done.

(** What holds in the second loop after the right records [done], whatever
    ids repeat. *)
Definition run_invariant (ls done : list fastq) (v : right_view) : Prop :=
  sorted_table opt (v_ids_left v)
  ∧ (∀ k, record_at ls 0
            (find_mate (bucket (v_ids_left v) (hashval opt k)) k (-1)).1
          = mate opt ls k)
  ∧ entry_record ls <$> mjoin (v_ids_left v) ≡ₚ keyed <$> kept ls
  ∧ Forall (λ e, printed e = true ↔ id e ∈ key opt <$> done)
      (mjoin (v_ids_left v))
  ∧ (deduplicate opt = true →
     sorted_table opt (v_ids_right v)
     ∧ ∀ k, k ∈ id <$> mjoin (v_ids_right v) ↔ k ∈ key opt <$> done)
  ∧ v_left_paired v
    = mjoin (out_left opt <$> omap (λ r, mate opt ls (key opt r)) (kept done))
  ∧ v_right_paired v
    = mjoin (out_right opt
               <$> filter (λ r, is_Some (mate opt ls (key opt r))) (kept done))
  ∧ v_right_single v
    = mjoin (out_right opt
               <$> filter (λ r, ¬ is_Some (mate opt ls (key opt r))) (kept done))
  ∧ v_left_paired_counter v
    = length (filter (λ r, is_Some (mate opt ls (key opt r))) (kept done))
  ∧ v_right_paired_counter v
    = length (filter (λ r, is_Some (mate opt ls (key opt r))) (kept done))
  ∧ v_right_single_counter v
    = length (filter (λ r, ¬ is_Some (mate opt ls (key opt r))) (kept done))
  ∧ v_right_duplicates v + length (kept done) = length done.

End Outputs.

(** * Properties *)

(** ** C strings in a buffer *)

Lemma strcspn_le_length s reject : strcspn s reject ≤ length s.
Proof. induction s as [|c s IH]; simpl; [lia|]. destruct (_ || _); simpl; lia. Qed.

Lemma strcspn_le_strlen s reject : strcspn s reject ≤ strlen s.
Proof.
  unfold strlen. induction s as [|c s IH]; simpl; [lia|].
  destruct (Ascii.eqb c NUL); simpl; [lia|].
  destruct (char_in c reject); simpl; lia.
Qed.

Lemma strcspn_insert_NUL s reject n :
  n ≤ strlen s → n < length s →
  strcspn (<[n := NUL]> s) reject = strcspn (take n s) reject.
Proof.
  unfold strlen. revert n. induction s as [|c s IH]; intros n Hn Hl; simpl in *; [lia|].
  destruct n as [|n]; simpl; [done|].
  destruct (Ascii.eqb c NUL); simpl in *; [lia|].
  destruct (char_in c reject); simpl; [done|].
  rewrite IH; [done | lia | lia].
Qed.

Lemma strlen_take s n : n ≤ strlen s → strlen (take n s) = n.
Proof.
  unfold strlen. revert n. induction s as [|c s IH]; intros n Hn; simpl in *.
  - by replace n with 0 by lia.
  - destruct n as [|n]; simpl; [done|].
    destruct (Ascii.eqb c NUL); simpl in *; [lia|].
    rewrite IH; [done | lia].
Qed.

Lemma strlen_insert_NUL s n :
  n ≤ strlen s → n < length s → strlen (<[n := NUL]> s) = n.
Proof.
  intros Hn Hl. unfold strlen at 1. rewrite strcspn_insert_NUL by done.
  by apply strlen_take.
Qed.

Lemma strlen_insert_beyond s n c :
  strlen s < n → strlen (<[n := c]> s) = strlen s.
Proof.
  unfold strlen. revert n. induction s as [|a s IH]; intros n Hn; simpl in *; [done|].
  destruct n as [|n]; [lia|]. simpl.
  destruct (Ascii.eqb a NUL); simpl in *; [done|].
  rewrite IH; [done | lia].
Qed.

Lemma strlen_insert_inside s n c :
  n < strlen s → c ≠ NUL → strlen (<[n := c]> s) = strlen s.
Proof.
  unfold strlen. revert n. induction s as [|a s IH]; intros n Hn Hc; simpl in *; [lia|].
  destruct (Ascii.eqb a NUL) eqn:Ha; simpl in *; [lia|].
  destruct n as [|n]; simpl.
  - destruct (Ascii.eqb c NUL) eqn:Hc'; simpl; [|done].
    by apply Ascii.eqb_eq in Hc'.
  - rewrite Ha. simpl. rewrite IH; [done | lia | done].
Qed.

Lemma strcspn_take_strcspn s reject :
  strcspn (take (strcspn s reject) s) reject = strcspn s reject.
Proof.
  induction s as [|c s IH]; simpl; [done|].
  destruct (Ascii.eqb c NUL || char_in c reject) eqn:E; simpl; [done|].
  by rewrite E, IH.
Qed.

Lemma strlen_take_le s n : strlen (take n s) ≤ n.
Proof.
  etrans; [apply strcspn_le_length|]. rewrite length_take. lia.
Qed.

Lemma load_Ok line (n : nat) c :
  line !! n = Some c → load line (Z.of_nat n) = Ok c.
Proof.
  intros H. unfold load. destruct (Z.ltb_spec (Z.of_nat n) 0); [lia|].
  by rewrite Nat2Z.id, H.
Qed.

Lemma store_Ok line (n : nat) c :
  n < length line → store line (Z.of_nat n) c = Ok (<[n := c]> line).
Proof.
  intros H. unfold store. destruct (Z.ltb_spec (Z.of_nat n) 0); [lia|].
  rewrite Nat2Z.id. by destruct (Nat.ltb_spec n (length line)); [|lia].
Qed.

Lemma load_negative line i : (i < 0)%Z → load line i = Undefined.
Proof. intros H. unfold load. by destruct (Z.ltb_spec i 0); [|lia]. Qed.

Lemma store_beyond line (n : nat) c :
  length line ≤ n → store line (Z.of_nat n) c = Undefined.
Proof.
  intros H. unfold store. destruct (Z.ltb_spec (Z.of_nat n) 0); [done|].
  rewrite Nat2Z.id. by destruct (Nat.ltb_spec n (length line)); [lia|].
Qed.

Lemma cstring_length s : length (cstring s) = strlen s.
Proof.
  unfold cstring. rewrite length_take. pose proof (strcspn_le_length s []).
  unfold strlen. lia.
Qed.

(** After the cut the buffer holds the identifier text as its C string. *)
Lemma truncate_line_id_part splitspace line :
  strlen line < length line →
  ∃ line', truncate_line splitspace line = Ok line'
           ∧ length line' = length line
           ∧ cstring line' = id_part splitspace line.
Proof.
  intros Hc. unfold truncate_line, id_part.
  pose proof (strcspn_le_strlen line [LF]) as H1.
  rewrite store_Ok by lia. simpl.
  set (n1 := strcspn line [LF]) in *.
  assert (strlen (<[n1:=NUL]> line) = n1) as Hl1 by (apply strlen_insert_NUL; lia).
  assert (cstring (<[n1:=NUL]> line) = take n1 line) as Hc1.
  { unfold cstring. rewrite Hl1. by rewrite take_insert_ge by lia. }
  destruct splitspace.
  - pose proof (strcspn_le_strlen (<[n1:=NUL]> line) [SPACE; TAB]) as H2.
    rewrite store_Ok by (rewrite length_insert; lia).
    eexists; split; [done|]. rewrite !length_insert. split; [done|].
    rewrite strcspn_insert_NUL in * by lia.
    set (n2 := strcspn (take n1 line) [SPACE; TAB]) in *.
    unfold cstring. rewrite strlen_insert_NUL by (rewrite ?length_insert; lia).
    rewrite take_insert_ge by lia. rewrite take_insert_ge by lia.
    rewrite take_take. f_equal. lia.
  - eexists; split; [done|]. by rewrite length_insert.
Qed.

Lemma cstring_lookup s i : i < strlen s → cstring s !! i = s !! i.
Proof. intros H. unfold cstring. by rewrite lookup_take_lt. Qed.

Lemma load_cases line i : load line i = Undefined ∨ ∃ c, load line i = Ok c.
Proof.
  unfold load. destruct (i <? 0)%Z; [by left|].
  destruct (line !! Z.to_nat i); eauto.
Qed.

Lemma mate_rule_short line : strlen line < 2 → mate_rule line = Undefined.
Proof.
  intros H. unfold mate_rule, zlen.
  destruct (strlen line) as [|[|n]]; [| |lia].
  - by rewrite load_negative by lia.
  - destruct (load_cases line (Z.of_nat 1 - 1)) as [->|[c ->]]; [done|].
    done.
Qed.

Lemma mate_rule_canonical line :
  2 ≤ strlen line → strlen line + 1 < length line →
  ∃ line', mate_rule line = Ok line'
           ∧ length line' = length line
           ∧ cstring line' = canonical_id (cstring line).
Proof.
  intros H2 Hc. unfold mate_rule, canonical_id, zlen.
  rewrite cstring_length. set (L := strlen line) in *.
  destruct (Nat.ltb_spec L 2) as [|_]; [lia|].
  rewrite !cstring_lookup by lia.
  destruct (lookup_lt_is_Some_2 line (L - 1)) as [c Hlc]; [lia|].
  destruct (lookup_lt_is_Some_2 line (L - 2)) as [b Hlb]; [lia|].
  replace (Z.of_nat L - 1)%Z with (Z.of_nat (L - 1)) by lia.
  replace (Z.of_nat L - 2)%Z with (Z.of_nat (L - 2)) by lia.
  replace (Z.of_nat L + 1)%Z with (Z.of_nat (L + 1)) by lia.
  rewrite (load_Ok _ _ _ Hlc), (load_Ok _ _ _ Hlb), Hlc, Hlb. simpl.
  destruct (is_separator b).
  - destruct (is_mate c).
    + rewrite store_Ok by lia. eexists; split; [done|]. rewrite length_insert.
      split; [done|]. unfold cstring.
      rewrite strlen_insert_NUL by (fold L; lia).
      rewrite take_insert_ge by lia. fold L. rewrite take_take. f_equal; lia.
    + by eexists.
  - rewrite store_Ok by lia. simpl.
    rewrite strlen_insert_beyond by (fold L; lia). fold L.
    replace (Z.of_nat L - 1)%Z with (Z.of_nat (L - 1)) by lia.
    rewrite store_Ok by (rewrite length_insert; lia).
    eexists; split; [done|]. rewrite !length_insert. split; [done|].
    unfold cstring.
    rewrite strlen_insert_inside; [|rewrite strlen_insert_beyond; fold L; lia|done].
    rewrite strlen_insert_beyond by (fold L; lia). fold L.
    rewrite take_insert_lt by lia. f_equal.
    rewrite take_insert_ge by lia. done.
Qed.

Lemma mate_rule_overflow line b :
  2 ≤ strlen line → strlen line < length line →
  line !! (strlen line - 2) = Some b → is_separator b = false →
  length line ≤ strlen line + 1 →
  mate_rule line = Undefined.
Proof.
  intros H2 Hc Hlb Hsep Hcap. unfold mate_rule, zlen.
  set (L := strlen line) in *.
  destruct (lookup_lt_is_Some_2 line (L - 1)) as [c Hlc]; [lia|].
  replace (Z.of_nat L - 1)%Z with (Z.of_nat (L - 1)) by lia.
  replace (Z.of_nat L - 2)%Z with (Z.of_nat (L - 2)) by lia.
  replace (Z.of_nat L + 1)%Z with (Z.of_nat (L + 1)) by lia.
  rewrite (load_Ok _ _ _ Hlc), (load_Ok _ _ _ Hlb). simpl. rewrite Hsep.
  by rewrite store_beyond by lia.
Qed.

(** The normaliser on a buffer that holds a C string. *)
Lemma normalize_canonical splitspace line :
  strlen line < length line →
  2 ≤ length (id_part splitspace line) →
  length (id_part splitspace line) + 1 < length line →
  ∃ line', normalize splitspace line = Ok line'
           ∧ length line' = length line
           ∧ cstring line' = canonical_id (id_part splitspace line).
Proof.
  intros Hc H2 Hcap. unfold normalize.
  destruct (truncate_line_id_part splitspace line Hc) as (line1 & -> & Hlen & Hs).
  simpl. rewrite <- Hs in *. rewrite cstring_length in *.
  destruct (mate_rule_canonical line1) as (line2 & -> & Hlen2 & Hs2); [lia..|].
  exists line2. split; [done|]. split; [congruence|done].
Qed.

(** ** The identifier normaliser *)

(** C1, as amended.  On a buffer that holds a C string whose identifier
    text (terminator stripped, cut at the first blank or tab when
    [splitspace] is set) has at least two bytes and leaves room for one
    more byte, the normaliser yields [canonical_id] of that text: a mate
    marker [1], [2], [f], [r] after a separator [/], [_], [.] is dropped;
    after a separator any other last byte is kept and the text is
    unchanged; without a separator the last byte is overwritten with a
    slash and the length stays. *)
Theorem normalize_amended splitspace line :
  strlen line < length line →
  2 ≤ length (id_part splitspace line) →
  length (id_part splitspace line) + 1 < length line →
  cstring <$> normalize splitspace line
  = Ok (canonical_id (id_part splitspace line)).
Proof.
  intros Hc H2 Hcap.
  destruct (normalize_canonical splitspace line Hc H2 Hcap) as (line' & -> & _ & <-).
  done.
Qed.

Lemma normalize_amended_witness :
  cstring <$> normalize false (header_buffer "read1/1") = Ok (bytes "read1/")
  ∧ cstring <$> normalize false (header_buffer "read1/2") = Ok (bytes "read1/")
  ∧ cstring <$> normalize false (header_buffer "read1") = Ok (bytes "read/")
  ∧ cstring <$> normalize true (header_buffer "read1/1 lane 3") = Ok (bytes "read1/").
Proof.
  split; [|split; [|split]].
  - apply (normalize_amended false (header_buffer "read1/1")); vm_compute; lia.
  - apply (normalize_amended false (header_buffer "read1/2")); vm_compute; lia.
  - apply (normalize_amended false (header_buffer "read1")); vm_compute; lia.
  - apply (normalize_amended true (header_buffer "read1/1 lane 3")); vm_compute; lia.
Defined.

(** The rule as the specification words it fails on a text that ends in a
    separator and a byte that is no mate marker: the source leaves
    [read_x] as it is, the worded rule asks for [read_/]. *)
Lemma normalize_spec_counterexample :
  cstring <$> normalize false (header_buffer "read_x") = Ok (bytes "read_x")
  ∧ canonical_id_spec (id_part false (header_buffer "read_x")) = bytes "read_/"
  ∧ cstring <$> normalize false (header_buffer "read_x")
    ≠ Ok (canonical_id_spec (id_part false (header_buffer "read_x"))).
Proof. split; [reflexivity|]. split; [reflexivity|]. vm_compute. discriminate. Qed.

(** C9.  On a buffer holding a C string, with [L] the length of the
    identifier text: for [L < 2] the normaliser leaves the buffer (it
    loads the byte before it); for [L >= 2] with [L + 1] inside the buffer
    every access is in bounds; and for [L >= 2] without a separator in the
    last-but-one place the store at [L + 1] needs that byte to exist. *)
Theorem normalize_bounds splitspace line :
  strlen line < length line →
  (length (id_part splitspace line) < 2 →
     normalize splitspace line = Undefined)
  ∧ (2 ≤ length (id_part splitspace line) →
     length (id_part splitspace line) + 1 < length line →
     is_Ok (normalize splitspace line) = true)
  ∧ (∀ b, 2 ≤ length (id_part splitspace line) →
     id_part splitspace line !! (length (id_part splitspace line) - 2) = Some b →
     is_separator b = false →
     length line ≤ length (id_part splitspace line) + 1 →
     normalize splitspace line = Undefined).
Proof.
  intros Hc. split; [|split].
  - intros Hs. unfold normalize.
    destruct (truncate_line_id_part splitspace line Hc) as (line1 & -> & Hlen & Hs1).
    simpl. apply mate_rule_short. by rewrite <- cstring_length, Hs1.
  - intros H2 Hcap.
    by destruct (normalize_canonical splitspace line Hc H2 Hcap) as (line' & -> & _).
  - intros b H2 Hb Hsep Hcap. unfold normalize.
    destruct (truncate_line_id_part splitspace line Hc) as (line1 & -> & Hlen & Hs1).
    simpl. rewrite <- Hs1 in *. rewrite cstring_length in *.
    pose proof (strcspn_le_length line1 []) as Hle. fold (strlen line1) in Hle.
    apply (mate_rule_overflow line1 b); try lia; try done.
    + (* the C string of [line1] ends inside the buffer *)
      destruct (decide (strlen line1 = length line1)) as [E|]; [|lia].
      exfalso. clear Hb Hsep.
      assert (length (id_part splitspace line) ≤ strlen line) as Hid.
      { unfold id_part. pose proof (strcspn_le_strlen line [LF]).
        destruct splitspace; rewrite ?length_take; lia. }
      rewrite <- Hs1, cstring_length in Hid. lia.
    + by rewrite <- cstring_lookup by lia.
Qed.

Lemma normalize_bounds_witness :
  normalize false (header_buffer "") = Undefined
  ∧ normalize true (header_buffer "@ read") = Undefined
  ∧ is_Ok (normalize false (header_buffer "@r")) = true
  ∧ normalize false (bytes "abcd" ++ [NUL]) = Undefined.
Proof.
  split; [|split; [|split]].
  - apply (proj1 (normalize_bounds false (header_buffer "")
                    ltac:(vm_compute; lia))); vm_compute; lia.
  - apply (proj1 (normalize_bounds true (header_buffer "@ read")
                    ltac:(vm_compute; lia))); vm_compute; lia.
  - apply (proj1 (proj2 (normalize_bounds false (header_buffer "@r")
                           ltac:(vm_compute; lia)))); vm_compute; lia.
  - apply (proj2 (proj2 (normalize_bounds false (bytes "abcd" ++ [NUL])
                           ltac:(vm_compute; lia))) "c"%char);
      vm_compute; (reflexivity || lia).
Defined.

(** ** Chains *)

Lemma strcmp0_true a b : strcmp0 a b = true ↔ a = b.
Proof. unfold strcmp0. apply bool_decide_eq_true. Qed.

Lemma strcmp0_false a b : strcmp0 a b = false ↔ a ≠ b.
Proof. unfold strcmp0. apply bool_decide_eq_false. Qed.

Lemma from_option_last_cons {A B} (f : A → B) d x l :
  from_option f d (last (x :: l)) = from_option f (f x) (last l).
Proof. rewrite last_cons. by destruct (last l). Qed.

Lemma find_mate_marks ptr line posn :
  (find_mate ptr line posn).2 = mark line <$> ptr.
Proof.
  revert posn. induction ptr as [|e next IH]; intros posn; simpl; [done|].
  unfold mark at 1. destruct (strcmp0 (id e) line).
  - specialize (IH (pos e)). destruct (find_mate next line (pos e)). simpl in *.
    by rewrite IH.
  - specialize (IH posn). destruct (find_mate next line posn). simpl in *.
    by rewrite IH.
Qed.

Lemma find_mate_last ptr line posn :
  (find_mate ptr line posn).1
  = from_option pos posn (last (filter (λ e, id e = line) ptr)).
Proof.
  revert posn. induction ptr as [|e next IH]; intros posn; simpl; [done|].
  destruct (strcmp0 (id e) line) eqn:E.
  - apply strcmp0_true in E. rewrite filter_cons_True by done.
    specialize (IH (pos e)). destruct (find_mate next line (pos e)). simpl in *.
    by rewrite IH, from_option_last_cons.
  - apply strcmp0_false in E. rewrite filter_cons_False by done.
    specialize (IH posn). by destruct (find_mate next line posn).
Qed.

Lemma bucket_insert_ne (ids : list (list idloc)) h h' chain :
  h ≠ h' → bucket (<[h := chain]> ids) h' = bucket ids h'.
Proof. intros H. unfold bucket. by rewrite list_lookup_insert_ne. Qed.

Lemma bucket_insert_eq (ids : list (list idloc)) h chain :
  h < length ids → bucket (<[h := chain]> ids) h = chain.
Proof. intros H. unfold bucket. by rewrite list_lookup_insert_eq. Qed.

Lemma bucket_insert_head ids h line nextposition :
  h < length ids →
  bucket (insert_head ids h line nextposition) h
  = Idloc (cstring line) nextposition false :: bucket ids h.
Proof. intros H. unfold insert_head. by rewrite bucket_insert_eq. Qed.

Lemma bucket_foldl_insert_head ids h (ins : list (list ascii * Z)) :
  h < length ids →
  bucket (foldl (λ ids i, insert_head ids h i.1 i.2) ids ins) h
  = reverse ((λ i, Idloc (cstring i.1) i.2 false) <$> ins) ++ bucket ids h.
Proof.
  revert ids. induction ins as [|[l p] ins IH]; intros ids H; simpl; [done|].
  rewrite IH by (unfold insert_head; by rewrite length_insert).
  rewrite bucket_insert_head by done. rewrite reverse_cons, <- app_assoc. done.
Qed.

(** C2.  The walk of a chain for a key, started with [-1]: the position
    returned is that of the last entry of the chain with this id ([-1]
    when there is none), every entry with this id comes out marked and the
    others as they were; and in a chain built by insertions at the head,
    the position is that of the entry inserted first with this id. *)
Theorem find_mate_whole_chain ptr line :
  (find_mate ptr line (-1)).1
  = from_option pos (-1)%Z (last (filter (λ e, id e = line) ptr))
  ∧ (find_mate ptr line (-1)).2 = mark line <$> ptr
  ∧ (∀ e, e ∈ (find_mate ptr line (-1)).2 → id e = line → printed e = true)
  ∧ (∀ ids h (ins : list (list ascii * Z)),
       h < length ids → bucket ids h = [] →
       ptr = bucket (foldl (λ ids i, insert_head ids h i.1 i.2) ids ins) h →
       (find_mate ptr line (-1)).1
       = from_option snd (-1)%Z (head (filter (λ i, cstring i.1 = line) ins))).
Proof.
  split; [apply find_mate_last|]. split; [apply find_mate_marks|]. split.
  - intros e. rewrite find_mate_marks. intros (e0 & -> & _)%list_elem_of_fmap_1 He.
    unfold mark in *. destruct (strcmp0 (id e0) line) eqn:E; [done|].
    apply strcmp0_false in E. done.
  - intros ids h ins Hh Hempty ->. rewrite find_mate_last.
    rewrite bucket_foldl_insert_head, Hempty, app_nil_r by done.
    clear. induction ins as [|[l p] ins IH]; [done|].
    rewrite fmap_cons, reverse_cons, filter_app, last_app.
    destruct (decide (cstring l = line)) as [E|E].
    + rewrite filter_cons_True by done. rewrite (filter_cons_True _ (l, p)) by done.
      done.
    + rewrite filter_cons_False, filter_nil by done.
      rewrite (filter_cons_False _ (l, p)) by done. simpl. done.
Qed.

Lemma find_mate_whole_chain_witness :
  demo_chain = [Idloc (bytes "A/") 32 false; Idloc (bytes "B/") 16 false;
                Idloc (bytes "A/") 0 false]
  ∧ (find_mate demo_chain (bytes "A/") (-1)).1 = 0%Z
  ∧ (find_mate demo_chain (bytes "A/") (-1)).2
    = [Idloc (bytes "A/") 32 true; Idloc (bytes "B/") 16 false;
       Idloc (bytes "A/") 0 true].
Proof.
  split; [reflexivity|]. split.
  - apply (proj2 (proj2 (proj2 (find_mate_whole_chain demo_chain (bytes "A/"))))
             (replicate 3 []) 1 demo_insertions); [simpl; lia|reflexivity..].
  - apply (proj1 (proj2 (find_mate_whole_chain demo_chain (bytes "A/")))).
Defined.

Lemma normalize_returns splitspace line :
  normalize splitspace line ≠ OutOfFuel.
Proof.
  unfold normalize, truncate_line, mate_rule, store, load. intros N.
  repeat (match type of N with
          | context [if ?b then _ else _] => destruct b
          | context [match ?x with _ => _ end] => destruct x eqn:?
          end; cbn [mbind result_bind] in N; try done).
Qed.

(** ** Reading text lines *)

Lemma strcspn_app_stop l c t reject :
  Forall (λ a, Ascii.eqb a NUL || char_in a reject = false) l →
  Ascii.eqb c NUL || char_in c reject = true →
  strcspn (l ++ c :: t) reject = length l.
Proof.
  intros Hl Hc. induction Hl as [|a l Ha _ IH]; simpl.
  - by rewrite Hc.
  - by rewrite Ha, IH.
Qed.

Lemma strcspn_all l reject :
  Forall (λ a, Ascii.eqb a NUL || char_in a reject = false) l →
  strcspn l reject = length l.
Proof.
  intros Hl. induction Hl as [|a l Ha _ IH]; simpl; [done|]. by rewrite Ha, IH.
Qed.

Lemma eqb_false a b : a ≠ b → Ascii.eqb a b = false.
Proof. intros H. by apply Ascii.eqb_neq. Qed.

Lemma gets_text n l rest :
  Forall (λ c, c ≠ LF) l → length l < n →
  gets n (l ++ LF :: rest) = l ++ [LF].
Proof.
  intros Hl. revert n. induction Hl as [|c l Hc _ IH]; intros n Hn.
  - destruct n; [lia|]. done.
  - destruct n; [simpl in Hn; lia|]. simpl in *.
    rewrite (eqb_false _ _ Hc). rewrite IH by lia. done.
Qed.

Lemma readFromFile_eof fp line n pre :
  positioned fp pre [] → readFromFile fp line n = (false, fp, line).
Proof.
  intros [Hd Hc]. unfold readFromFile. rewrite Hd, Hc, app_nil_r.
  by rewrite drop_all.
Qed.

Lemma readFromFile_rest fp line n pre c post :
  positioned fp pre (c :: post) →
  readFromFile fp line n
  = (true, Stream (data fp) (cursor fp + length (gets (n - 1) (c :: post))),
     gets (n - 1) (c :: post)
       ++ NUL :: drop (S (length (gets (n - 1) (c :: post)))) line).
Proof.
  intros [Hd Hc]. unfold readFromFile. rewrite Hd, Hc, drop_app_length. done.
Qed.

Section Facts.

Context {platform : Platform}.
Variable opt : options.

Lemma is_text_spec l :
  is_text l = true →
  Forall (λ c, c ≠ NUL ∧ c ≠ LF) l ∧ length l + 2 ≤ MAXLINELEN.
Proof.
  unfold is_text. intros [Hf Hl%Nat.leb_le]%andb_true_iff. split; [|done].
  apply Forall_forall. intros c Hc%list_elem_of_In.
  rewrite forallb_forall in Hf. specialize (Hf c Hc).
  apply andb_true_iff in Hf as [H1%negb_true_iff H2%negb_true_iff].
  by split; apply Ascii.eqb_neq.
Qed.

(** One read takes a whole text line; the buffer then holds the line and
    its terminator as a C string. *)
Lemma readFromFile_text fp line pre l post :
  positioned fp pre (l ++ LF :: post) →
  is_text l = true →
  length line = MAXLINELEN + 1 →
  ∃ fp' line',
    readFromFile fp line MAXLINELEN = (true, fp', line')
    ∧ positioned fp' (pre ++ l ++ [LF]) post
    ∧ length line' = MAXLINELEN + 1
    ∧ line' = (l ++ [LF]) ++ NUL :: drop (length l + 2) line.
Proof.
  intros Hp [Hl Hn]%is_text_spec Hlen.
  assert (gets (MAXLINELEN - 1) (l ++ LF :: post) = l ++ [LF]) as Hg.
  { apply gets_text; [|lia]. eapply Forall_impl; [done|]. by intros c [_ ?]. }
  destruct (l ++ LF :: post) as [|c rest] eqn:E; [destruct l; discriminate|].
  rewrite (readFromFile_rest _ _ _ _ _ _ Hp), Hg. rewrite length_app. simpl.
  do 2 eexists. split; [done|]. destruct Hp as [Hd Hc]. repeat split; simpl.
  - rewrite Hd, <- E. by rewrite <- !app_assoc.
  - rewrite Hc, !length_app. simpl. lia.
  - rewrite length_app. simpl. rewrite !length_app, length_drop. simpl. lia.
  - repeat f_equal. lia.
Qed.

Lemma cstring_text_line l t :
  Forall (λ c, c ≠ NUL ∧ c ≠ LF) l →
  cstring ((l ++ [LF]) ++ NUL :: t) = l ++ [LF].
Proof.
  intros Hl. unfold cstring, strlen.
  rewrite (strcspn_app_stop (l ++ [LF]) NUL t []); [by rewrite take_app_length|..].
  - apply Forall_app. split; [|by repeat constructor].
    eapply Forall_impl; [done|]. intros c [H _]. simpl.
    by rewrite (eqb_false _ _ H).
  - done.
Qed.

Lemma strlen_text_line l t :
  Forall (λ c, c ≠ NUL ∧ c ≠ LF) l →
  strlen ((l ++ [LF]) ++ NUL :: t) = length l + 1.
Proof.
  intros Hl. rewrite <- cstring_length, cstring_text_line by done.
  rewrite length_app. done.
Qed.

Lemma id_part_text_line splitspace l t :
  Forall (λ c, c ≠ NUL ∧ c ≠ LF) l →
  id_part splitspace ((l ++ [LF]) ++ NUL :: t) = id_part splitspace l.
Proof.
  intros Hl. unfold id_part.
  assert (Forall (λ a, Ascii.eqb a NUL || char_in a [LF] = false) l) as Hl'.
  { eapply Forall_impl; [done|]. intros c [H1 H2]. simpl.
    by rewrite (eqb_false _ _ H1), (eqb_false _ _ H2). }
  rewrite <- app_assoc. simpl.
  rewrite (strcspn_app_stop l LF (NUL :: t) [LF]) by done.
  rewrite take_app_length. rewrite (strcspn_all l [LF]) by done.
  by rewrite firstn_all.
Qed.

Lemma well_formed_spec r :
  well_formed opt r = true →
  is_text (header r) = true ∧ is_text (sequence r) = true
  ∧ is_text (separator r) = true ∧ is_text (quality r) = true
  ∧ 2 ≤ length (id_part (splitspace opt) (header r)).
Proof.
  unfold well_formed. rewrite !andb_true_iff, Nat.leb_le. tauto.
Qed.

Lemma id_part_length_le splitspace l : length (id_part splitspace l) ≤ length l.
Proof.
  unfold id_part. destruct splitspace; rewrite ?length_take; lia.
Qed.

Lemma read_line_text fp line pre l post :
  positioned fp pre (l ++ LF :: post) →
  is_text l = true →
  length line = MAXLINELEN + 1 →
  ∃ fp' line',
    read_line fp line = (fp', line')
    ∧ positioned fp' (pre ++ l ++ [LF]) post
    ∧ length line' = MAXLINELEN + 1
    ∧ cstring line' = l ++ [LF].
Proof.
  intros Hp Ht Hlen.
  destruct (readFromFile_text fp line pre l post Hp Ht Hlen)
    as (fp' & line' & Hr & Hp' & Hlen' & Hline).
  exists fp', line'. unfold read_line. rewrite Hr. repeat split; try apply Hp'; [done|].
  rewrite Hline. apply cstring_text_line. by apply is_text_spec.
Qed.

(** The header of a well-formed record is read whole and normalised to the
    key of the record. *)
Lemma read_header fp line pre r post :
  positioned fp pre (header r ++ LF :: post) →
  well_formed opt r = true →
  length line = MAXLINELEN + 1 →
  ∃ fp' line0 line',
    readFromFile fp line MAXLINELEN = (true, fp', line0)
    ∧ positioned fp' (pre ++ header r ++ [LF]) post
    ∧ dupstr line0 = header r ++ [LF]
    ∧ normalize (splitspace opt) line0 = Ok line'
    ∧ length line' = MAXLINELEN + 1
    ∧ cstring line' = key opt r.
Proof.
  intros Hp (Ht & _ & _ & _ & H2)%well_formed_spec Hlen.
  destruct (readFromFile_text fp line pre (header r) post Hp Ht Hlen)
    as (fp' & line0 & Hr & Hp' & Hlen' & Hline).
  apply is_text_spec in Ht as [Hf Hn].
  pose proof (id_part_length_le (splitspace opt) (header r)) as Hle.
  destruct (normalize_canonical (splitspace opt) line0) as (line' & Hnorm & Hlen2 & Hkey).
  - rewrite Hline at 1. rewrite strlen_text_line by done. lia.
  - rewrite Hline, id_part_text_line by done. done.
  - rewrite Hline at 1. rewrite id_part_text_line by done. lia.
  - exists fp', line0, line'. repeat split; try apply Hp'; try done.
    + unfold dupstr. rewrite Hline. by apply cstring_text_line.
    + congruence.
    + rewrite Hkey, Hline, id_part_text_line by done. done.
Qed.

Lemma skip_tail fp line pre r post :
  positioned fp pre (render_tail r ++ post) →
  well_formed opt r = true →
  length line = MAXLINELEN + 1 →
  ∃ fp' line',
    skip_lines 3 fp line = (fp', line')
    ∧ positioned fp' (pre ++ render_tail r) post
    ∧ length line' = MAXLINELEN + 1.
Proof.
  intros Hp (_ & T1 & T2 & T3 & _)%well_formed_spec Hlen.
  unfold render_tail in *. rewrite <- !app_assoc in Hp. simpl in Hp.
  destruct (read_line_text _ _ _ _ _ Hp T1 Hlen) as (fp1 & line1 & R1 & P1 & L1 & _).
  destruct (read_line_text _ _ _ _ _ P1 T2 L1) as (fp2 & line2 & R2 & P2 & L2 & _).
  destruct (read_line_text _ _ _ _ _ P2 T3 L2) as (fp3 & line3 & R3 & P3 & L3 & _).
  exists fp3, line3. simpl. rewrite R1, R2, R3. repeat split; try done.
  - destruct P3 as [-> _]. by rewrite <- !app_assoc.
  - destruct P3 as [_ ->]. by rewrite <- !app_assoc.
Qed.

Lemma copy_tail fp line out pre r post :
  positioned fp pre (render_tail r ++ post) →
  well_formed opt r = true →
  length line = MAXLINELEN + 1 →
  ∃ fp' line',
    copy_lines 3 fp line out = (fp', line', out ++ render_tail r)
    ∧ positioned fp' (pre ++ render_tail r) post
    ∧ length line' = MAXLINELEN + 1.
Proof.
  intros Hp (_ & T1 & T2 & T3 & _)%well_formed_spec Hlen.
  unfold render_tail in *. rewrite <- !app_assoc in Hp. simpl in Hp.
  destruct (read_line_text _ _ _ _ _ Hp T1 Hlen) as (fp1 & line1 & R1 & P1 & L1 & C1).
  destruct (read_line_text _ _ _ _ _ P1 T2 L1) as (fp2 & line2 & R2 & P2 & L2 & C2).
  destruct (read_line_text _ _ _ _ _ P2 T3 L2) as (fp3 & line3 & R3 & P3 & L3 & C3).
  exists fp3, line3. simpl. rewrite R1, R2, R3, C1, C2, C3. repeat split; try done.
  - by rewrite <- !app_assoc.
  - destruct P3 as [-> _]. by rewrite <- !app_assoc.
  - destruct P3 as [_ ->]. by rewrite <- !app_assoc.
Qed.

Lemma copy_whole_record newheader fp line out pre r post :
  positioned fp pre (render_record r ++ post) →
  well_formed opt r = true →
  length line = MAXLINELEN + 1 →
  ∃ fp' line',
    copy_record opt newheader fp line out
    = (fp', line',
       out ++ (if formatid opt then newheader else header r ++ [LF])
           ++ render_tail r)
    ∧ data fp' = data fp
    ∧ length line' = MAXLINELEN + 1.
Proof.
  intros Hp Hwf Hlen. pose proof Hwf as (T0 & _)%well_formed_spec.
  unfold render_record in Hp. rewrite <- !app_assoc in Hp. simpl in Hp.
  destruct (read_line_text _ _ _ _ _ Hp T0 Hlen) as (fp1 & line1 & R1 & P1 & L1 & C1).
  destruct (copy_tail fp1 line1
              (if formatid opt then out ++ newheader else out ++ cstring line1)
              _ r post P1 Hwf L1) as (fp2 & line2 & R2 & P2 & L2).
  exists fp2, line2. unfold copy_record. rewrite R1, R2. repeat split; [|..|done].
  - rewrite C1. f_equal. destruct (formatid opt); by rewrite <- !app_assoc.
  - destruct P2 as [-> _], Hp as [-> _]. by rewrite <- !app_assoc.
Qed.

Lemma hashval_of_Ok k :
  tablesize opt ≠ 0 → hashval_of opt k = Ok (hashval opt k).
Proof.
  intros H. unfold hashval_of, hashval.
  by destruct (Nat.eqb_spec (tablesize opt) 0).
Qed.

(** ** The first loop on a stream of well-formed records *)

Lemma left_body_record st pre r post :
  positioned (l_lfp st) pre (render_record r ++ post) →
  well_formed opt r = true →
  length (l_line st) = MAXLINELEN + 1 →
  tablesize opt ≠ 0 →
  ∃ st',
    left_body opt st = Ok (Some st')
    ∧ positioned (l_lfp st') (pre ++ render_record r) post
    ∧ length (l_line st') = MAXLINELEN + 1
    ∧ l_nextposition st' = Z.of_nat (length (pre ++ render_record r))
    ∧ (l_ids_left st', l_left_duplicates st')
      = index_step opt (l_ids_left st, l_left_duplicates st) (key opt r)
          (l_nextposition st).
Proof.
  intros Hp Hwf Hlen Hts.
  unfold render_record in Hp. rewrite <- app_assoc in Hp.
  rewrite <- (app_assoc (header r)) in Hp. simpl in Hp.
  destruct (read_header _ _ _ _ _ Hp Hwf Hlen)
    as (fp1 & line0 & line1 & R1 & P1 & _ & N1 & L1 & K1).
  destruct (skip_tail _ _ _ _ _ P1 Hwf L1) as (fp2 & line2 & R2 & P2 & L2).
  unfold left_body. rewrite R1. cbn [negb]. rewrite N1. cbn [mbind result_bind].
  rewrite K1, hashval_of_Ok by done. cbn [mbind result_bind].
  rewrite R2. eexists. split; [done|]. cbn.
  unfold render_record. rewrite !app_assoc in *. repeat split; try apply P2; try done.
  - unfold tellInFile. destruct P2 as [_ ->]. done.
  - unfold index_step, insert_head, dupstr. cbn. rewrite K1.
    by destruct (deduplicate opt && seen_before _ _).
Qed.

Lemma render_cons r rs : render (r :: rs) = render_record r ++ render rs.
Proof. done. Qed.

Lemma left_loop_records rs : ∀ fuel st pre,
  positioned (l_lfp st) pre (render rs) →
  Forall (λ r, well_formed opt r = true) rs →
  length (l_line st) = MAXLINELEN + 1 →
  l_nextposition st = Z.of_nat (length pre) →
  tablesize opt ≠ 0 →
  length rs < fuel →
  ∃ st',
    left_loop opt fuel st = Ok st'
    ∧ data (l_lfp st') = data (l_lfp st)
    ∧ length (l_line st') = MAXLINELEN + 1
    ∧ (l_ids_left st', l_left_duplicates st')
      = index_records opt (length pre) rs (l_ids_left st, l_left_duplicates st).
Proof.
  induction rs as [|r rs IH]; intros fuel st pre Hp Hwf Hlen Hnext Hts Hfuel.
  - destruct fuel as [|fuel]; [simpl in Hfuel; lia|]. simpl.
    unfold left_body. rewrite (readFromFile_eof _ _ _ pre) by done. cbn.
    by exists st.
  - destruct fuel as [|fuel]; [simpl in Hfuel; lia|].
    apply Forall_cons in Hwf as [Hr Hwf]. rewrite render_cons in Hp.
    destruct (left_body_record st pre r (render rs) Hp Hr Hlen Hts)
      as (st1 & B & P1 & L1 & N1 & V1).
    destruct (IH fuel st1 (pre ++ render_record r)) as (st2 & B2 & D2 & L2 & V2);
      try done; [simpl in Hfuel; lia|].
    exists st2. cbn [left_loop]. rewrite B. cbn [mbind result_bind].
    rewrite B2. repeat split; try done.
    + rewrite D2. destruct P1 as [-> _], Hp as [-> _]. by rewrite <- app_assoc.
    + rewrite V2, V1, Hnext, length_app. done.
Qed.

(** ** The second loop on a stream of well-formed records *)

Lemma record_at_Some rs : ∀ off posn l,
  record_at rs off posn = Some l →
  ∃ pre post,
    render rs = pre ++ render_record l ++ post
    ∧ posn = Z.of_nat (off + length pre) ∧ l ∈ rs.
Proof.
  induction rs as [|r rs IH]; intros off posn l H; simpl in H; [done|].
  destruct (Z.eqb_spec (Z.of_nat off) posn) as [E|E].
  - injection H as ->. exists [], (render rs). simpl. split; [done|].
    split; [lia|]. by left.
  - destruct (IH _ _ _ H) as (pre & post & Hr & Hp & Hin).
    exists (render_record r ++ pre), post. rewrite render_cons, Hr, length_app.
    rewrite <- app_assoc. split; [done|]. split; [lia|]. by right.
Qed.

Lemma record_at_negative rs : ∀ off posn,
  (posn < 0)%Z → record_at rs off posn = None.
Proof.
  induction rs as [|r rs IH]; intros off posn H; simpl; [done|].
  destruct (Z.eqb_spec (Z.of_nat off) posn); [lia|]. by apply IH.
Qed.

Lemma elem_of_bucket (ids : list (list idloc)) h e :
  e ∈ bucket ids h → e ∈ mjoin ids.
Proof.
  unfold bucket. destruct (ids !! h) as [chain|] eqn:E; simpl; [|by intros ?%elem_of_nil].
  intros He. apply list_elem_of_join. exists chain. split; [done|].
  by eapply list_elem_of_lookup_2.
Qed.

(** The walk either finds nothing and returns [-1], or returns the
    position of an entry of the chain. *)
Lemma find_mate_cases ptr line :
  (find_mate ptr line (-1)).1 = (-1)%Z
  ∨ ∃ e, e ∈ ptr ∧ id e = line ∧ (find_mate ptr line (-1)).1 = pos e.
Proof.
  rewrite find_mate_last.
  destruct (last (filter (λ e, id e = line) ptr)) as [e|] eqn:E; [|by left].
  right. exists e. apply last_Some_elem_of in E.
  apply list_elem_of_filter in E as [? ?]. done.
Qed.

Lemma right_body_record ls st pre r post :
  positioned (r_rfp st) pre (render_record r ++ post) →
  well_formed opt r = true →
  length (r_line st) = MAXLINELEN + 1 →
  tablesize opt ≠ 0 →
  data (r_lfp st) = render ls →
  Forall (λ l, well_formed opt l = true) ls →
  points_into ls (r_ids_left st) →
  ∃ st',
    right_body opt st = Ok (Some st')
    ∧ positioned (r_rfp st') (pre ++ render_record r) post
    ∧ length (r_line st') = MAXLINELEN + 1
    ∧ data (r_lfp st') = render ls
    ∧ view st' = right_step opt ls (view st) r.
Proof.
  intros Hp Hwf Hlen Hts Hdata Hls Hpts.
  unfold render_record in Hp. rewrite <- app_assoc in Hp.
  rewrite <- (app_assoc (header r)) in Hp. simpl in Hp.
  destruct (read_header _ _ _ _ _ Hp Hwf Hlen)
    as (fp1 & line0 & line1 & R1 & P1 & H1 & N1 & L1 & K1).
  assert (pre ++ render_record r = (pre ++ header r ++ [LF]) ++ render_tail r) as Epre.
  { unfold render_record. by rewrite <- !app_assoc. }
  unfold right_body, right_step. rewrite R1. cbn [negb]. rewrite N1.
  cbn [mbind result_bind]. rewrite H1, K1, hashval_of_Ok by done.
  cbn [mbind result_bind view v_ids_right v_ids_left v_right_duplicates
       v_left_paired_counter v_right_paired_counter v_right_single_counter
       v_left_paired v_right_paired v_right_single].
  destruct (deduplicate opt && seen_before _ _) eqn:Edup.
  - (* a duplicate of the right stream *)
    destruct (skip_tail _ _ _ _ _ P1 Hwf L1) as (fp2 & line2 & R2 & P2 & L2).
    rewrite R2. eexists. split; [done|]. cbn. rewrite Epre. done.
  - set (found := find_mate (bucket (r_ids_left st) (hashval opt (key opt r)))
                    (key opt r) (-1)).
    destruct (find_mate_cases (bucket (r_ids_left st) (hashval opt (key opt r)))
                (key opt r)) as [Hnone|(e & He & Hid & Hpos)]; fold found in Hnone || fold found in Hpos.
    + (* no mate *)
      destruct found as [posn chain] eqn:Ef. simpl in Hnone. subst posn.
      cbn -[copy_lines copy_record skip_lines written].
      rewrite record_at_negative by lia.
      match goal with |- context [copy_lines 3 fp1 line1 ?out] =>
        destruct (copy_tail fp1 line1 out _ r post P1 Hwf L1)
          as (fp2 & line2 & R2 & P2 & L2) end.
      rewrite R2. eexists. split; [done|]. cbn. rewrite Epre.
      unfold written, catstr, dupstr. rewrite K1.
      repeat split; try apply P2; try done.
      unfold view, insert_head, dupstr. cbn. rewrite ?K1.
      by destruct (formatid opt), (deduplicate opt); rewrite <- ?app_assoc.
    + (* a mate at the position of entry [e] *)
      destruct (proj1 (Forall_forall _ _) Hpts e (elem_of_bucket _ _ _ He)) as [l Hl].
      destruct found as [posn chain] eqn:Ef. simpl in Hpos. subst posn.
      cbn -[copy_lines copy_record skip_lines written].
      rewrite Hl.
      destruct (record_at_Some _ _ _ _ Hl) as (lpre & lpost & Hrender & Hoff & Hin).
      assert ((pos e =? -1)%Z = false) as -> by (apply Z.eqb_neq; lia).
      cbn [negb].
      assert (positioned (seekInFile (r_lfp st) (pos e)) lpre (render_record l ++ lpost)) as Pl.
      { split; simpl; [congruence|]. rewrite Hoff. simpl. lia. }
      assert (well_formed opt l = true) as Hwl.
      { rewrite Forall_forall in Hls. by apply Hls. }
      match goal with |- context [copy_record opt ?nh (seekInFile (r_lfp st) (pos e)) line1 ?out] =>
        destruct (copy_whole_record nh _ line1 out _ l lpost Pl Hwl L1)
          as (lfp2 & line2 & R2 & D2 & L2) end.
      rewrite R2.
      match goal with |- context [copy_lines 3 fp1 line2 ?out] =>
        destruct (copy_tail fp1 line2 out _ r post P1 Hwf L2)
          as (fp3 & line3 & R3 & P3 & L3) end.
      rewrite R3. eexists. split; [done|]. cbn. rewrite Epre.
      unfold written, catstr, dupstr. rewrite K1.
      repeat split; try apply P3; try done; [simpl in D2; congruence|].
      unfold view, insert_head, dupstr. cbn. rewrite ?K1.
      by destruct (formatid opt), (deduplicate opt); rewrite <- ?app_assoc.
Qed.

(** A table around one of its buckets. *)
Lemma table_split (ids : list (list idloc)) h :
  h < length ids →
  ∃ A B, mjoin ids = A ++ bucket ids h ++ B
         ∧ (∀ chain, mjoin (<[h := chain]> ids) = A ++ chain ++ B)
         ∧ (∀ e, e ∈ A ++ B → ∃ i, i ≠ h ∧ e ∈ bucket ids i).
Proof.
  intros Hh. destruct (lookup_lt_is_Some_2 ids h Hh) as [c Hc].
  exists (mjoin (take h ids)), (mjoin (drop (S h) ids)). split; [|split].
  - rewrite <- (take_drop_middle ids h c Hc) at 1.
    rewrite join_app. simpl. unfold bucket. by rewrite Hc.
  - intros chain. rewrite insert_take_drop by done. by rewrite join_app.
  - intros e [He|He]%elem_of_app.
    + apply list_elem_of_join in He as (chain & He & Hin).
      apply list_elem_of_lookup in Hin as [i Hi].
      apply lookup_take_Some in Hi as [Hi Hlt].
      exists i. split; [lia|]. unfold bucket. by rewrite Hi.
    + apply list_elem_of_join in He as (chain & He & Hin).
      apply list_elem_of_lookup in Hin as [i Hi]. rewrite lookup_drop in Hi.
      exists (S h + i). split; [lia|]. unfold bucket. by rewrite Hi.
Qed.

Lemma hashval_lt k : tablesize opt ≠ 0 → hashval opt k < tablesize opt.
Proof.
  intros H. unfold hashval.
  pose proof (Z.mod_pos_bound (hash char_signed k) (Z.of_nat (tablesize opt))).
  lia.
Qed.

Lemma pos_mark k e : pos (mark k e) = pos e.
Proof. unfold mark. by destruct (strcmp0 _ _). Qed.

Lemma id_mark k e : id (mark k e) = id e.
Proof. unfold mark. by destruct (strcmp0 _ _). Qed.

(** The table of the left stream after one turn of the second loop: as it
    was, but for the marks in the bucket of the key. *)
Lemma right_step_ids_left ls v r :
  v_ids_left (right_step opt ls v r) = v_ids_left v
  ∨ v_ids_left (right_step opt ls v r)
    = <[hashval opt (key opt r) :=
          mark (key opt r) <$> bucket (v_ids_left v) (hashval opt (key opt r))]>
        (v_ids_left v).
Proof.
  unfold right_step. destruct (deduplicate opt && seen_before _ _); [by left|].
  right. rewrite find_mate_marks. by destruct (record_at _ _ _).
Qed.

Lemma points_into_marked ls ids h k :
  h < length ids →
  points_into ls ids →
  points_into ls (<[h := mark k <$> bucket ids h]> ids).
Proof.
  intros Hh Hp. apply Forall_forall. intros e.
  destruct (table_split ids h Hh) as (A & B & HA & HB & _).
  rewrite HB. unfold points_into in Hp. rewrite HA, Forall_forall in Hp.
  rewrite !elem_of_app. intros [He|[He|He]].
  - apply Hp. rewrite !elem_of_app. auto.
  - apply list_elem_of_fmap in He as (e0 & -> & He0). rewrite pos_mark.
    apply Hp. rewrite !elem_of_app. auto.
  - apply Hp. rewrite !elem_of_app. auto.
Qed.

Lemma right_loop_records ls rs : ∀ fuel st pre,
  positioned (r_rfp st) pre (render rs) →
  Forall (λ r, well_formed opt r = true) rs →
  length (r_line st) = MAXLINELEN + 1 →
  tablesize opt ≠ 0 →
  data (r_lfp st) = render ls →
  Forall (λ l, well_formed opt l = true) ls →
  points_into ls (r_ids_left st) →
  length (r_ids_left st) = tablesize opt →
  length rs < fuel →
  ∃ st',
    right_loop opt fuel st = Ok st'
    ∧ data (r_lfp st') = render ls
    ∧ length (r_line st') = MAXLINELEN + 1
    ∧ points_into ls (r_ids_left st')
    ∧ view st' = foldl (right_step opt ls) (view st) rs.
Proof.
  induction rs as [|r rs IH]; intros fuel st pre Hp Hwf Hlen Hts Hdata Hls Hpts Hids Hfuel.
  - destruct fuel as [|fuel]; [simpl in Hfuel; lia|]. simpl.
    unfold right_body. rewrite (readFromFile_eof _ _ _ pre) by done. cbn.
    by exists st.
  - destruct fuel as [|fuel]; [simpl in Hfuel; lia|].
    apply Forall_cons in Hwf as [Hr Hwf]. rewrite render_cons in Hp.
    destruct (right_body_record ls st pre r (render rs) Hp Hr Hlen Hts Hdata Hls Hpts)
      as (st1 & B & P1 & L1 & D1 & V1).
    assert (r_ids_left st1 = v_ids_left (right_step opt ls (view st) r)) as Eids
      by (by rewrite <- V1).
    destruct (IH fuel st1 (pre ++ render_record r)) as (st2 & B2 & D2 & L2 & P2 & V2);
      try done.
    + rewrite Eids.
      destruct (right_step_ids_left ls (view st) r) as [->| ->]; [done|].
      apply points_into_marked; [|done]. simpl. rewrite Hids. by apply hashval_lt.
    + rewrite Eids.
      destruct (right_step_ids_left ls (view st) r) as [->| ->]; [done|].
      by rewrite length_insert.
    + simpl in Hfuel; lia.
    + exists st2. cbn [right_loop]. rewrite B. cbn [mbind result_bind].
      rewrite B2. repeat split; try done. by rewrite V2, V1.
Qed.

(** ** The last loop *)

Lemma orphan_chain_foldl ptr : ∀ st,
  orphan_chain opt ptr st
  = foldl (orphan_emit opt) st (filter (λ e, printed e = false) ptr).
Proof.
  induction ptr as [|e next IH]; intros st; simpl; [done|].
  destruct (printed e) eqn:E; simpl.
  - rewrite filter_cons_False by (rewrite E; done). apply IH.
  - rewrite filter_cons_True by done. simpl. apply IH.
Qed.

Lemma orphan_loop_foldl ids_left : ∀ st,
  orphan_loop opt ids_left st
  = foldl (orphan_emit opt) st (filter (λ e, printed e = false) (mjoin ids_left)).
Proof.
  induction ids_left as [|ptr rest IH]; intros st; simpl; [done|].
  rewrite filter_app, foldl_app, IH, orphan_chain_foldl. done.
Qed.

Lemma orphan_emit_counter st e :
  o_left_single_counter (orphan_emit opt st e) = S (o_left_single_counter st).
Proof. unfold orphan_emit. by destruct (copy_record _ _ _ _ _) as [[? ?] ?]. Qed.

Lemma foldl_orphan_emit_counter es : ∀ st,
  o_left_single_counter (foldl (orphan_emit opt) st es)
  = o_left_single_counter st + length es.
Proof.
  induction es as [|e es IH]; intros st; simpl; [lia|].
  rewrite IH, orphan_emit_counter. lia.
Qed.

Lemma orphan_emit_record ls st e l :
  data (o_lfp st) = render ls →
  length (o_line st) = MAXLINELEN + 1 →
  Forall (λ l, well_formed opt l = true) ls →
  record_at ls 0 (pos e) = Some l →
  o_left_single (orphan_emit opt st e) = o_left_single st ++ written opt "1" (id e) l
  ∧ data (o_lfp (orphan_emit opt st e)) = render ls
  ∧ length (o_line (orphan_emit opt st e)) = MAXLINELEN + 1.
Proof.
  intros Hdata Hlen Hls Hl.
  destruct (record_at_Some _ _ _ _ Hl) as (lpre & lpost & Hrender & Hoff & Hin).
  assert (positioned (seekInFile (o_lfp st) (pos e)) lpre (render_record l ++ lpost)) as Pl.
  { split; simpl; [congruence|]. rewrite Hoff. simpl. lia. }
  assert (well_formed opt l = true) as Hwl.
  { rewrite Forall_forall in Hls. by apply Hls. }
  unfold orphan_emit.
  destruct (copy_whole_record (catstr (id e) (ln "1")) _ (o_line st)
              (o_left_single st) _ l lpost Pl Hwl Hlen) as (fp & line & R & D & L).
  rewrite R. cbn. split; [|split; [simpl in D; congruence|done]].
  unfold written, catstr. done.
Qed.

Lemma foldl_orphan_emit_records ls es : ∀ st,
  data (o_lfp st) = render ls →
  length (o_line st) = MAXLINELEN + 1 →
  Forall (λ l, well_formed opt l = true) ls →
  (∀ e, e ∈ es → is_Some (record_at ls 0 (pos e))) →
  o_left_single (foldl (orphan_emit opt) st es)
  = o_left_single st
    ++ mjoin ((λ e, from_option (written opt "1" (id e)) [] (record_at ls 0 (pos e)))
                <$> es).
Proof.
  induction es as [|e es IH]; intros st Hdata Hlen Hls Hes; simpl.
  - by rewrite app_nil_r.
  - destruct (Hes e) as [l Hl]; [by left|].
    destruct (orphan_emit_record ls st e l Hdata Hlen Hls Hl) as (O & D & L).
    rewrite IH; try done.
    + rewrite O, Hl. simpl. by rewrite <- app_assoc.
    + intros e' He'. apply Hes. by right.
Qed.

(** ** The table of the left stream *)

Lemma render_record_length r : 0 < length (render_record r).
Proof. unfold render_record. rewrite !length_app. simpl. lia. Qed.

Lemma render_app rs1 rs2 : render (rs1 ++ rs2) = render rs1 ++ render rs2.
Proof. unfold render. by rewrite fmap_app, join_app. Qed.

Lemma length_le_render rs : length rs ≤ length (render rs).
Proof.
  induction rs as [|r rs IH]; simpl; [lia|]. rewrite render_cons, length_app.
  pose proof (render_record_length r). lia.
Qed.

Lemma record_at_app done r rest : ∀ off,
  record_at (done ++ r :: rest) off (Z.of_nat (off + length (render done))) = Some r.
Proof.
  induction done as [|d done IH]; intros off; simpl.
  - replace (off + 0) with off by lia. by rewrite Z.eqb_refl.
  - rewrite render_cons, length_app. pose proof (render_record_length d).
    destruct (Z.eqb_spec (Z.of_nat off)
                (Z.of_nat (off + (length (render_record d) + length (render done)))));
      [lia|].
    rewrite <- (IH (off + length (render_record d))). f_equal. lia.
Qed.

Lemma index_records_snoc rs r : ∀ off v,
  index_records opt off (rs ++ [r]) v
  = index_step opt (index_records opt off rs v) (key opt r)
      (Z.of_nat (off + length (render rs))).
Proof.
  induction rs as [|r0 rs IH]; intros off v; simpl.
  - by replace (off + 0) with off by lia.
  - rewrite IH, render_cons, length_app. do 2 f_equal. lia.
Qed.

Lemma elem_of_join_insert (ids : list (list idloc)) h chain e :
  e ∈ mjoin (<[h := chain]> ids) → e ∈ chain ∨ e ∈ mjoin ids.
Proof.
  destruct (decide (h < length ids)) as [Hh|Hh].
  - destruct (table_split ids h Hh) as (A & B & HA & HB & _).
    rewrite HB, HA, !elem_of_app. tauto.
  - rewrite list_insert_ge by lia. auto.
Qed.

Lemma index_step_length v k posn :
  length (index_step opt v k posn).1 = length v.1.
Proof.
  unfold index_step. destruct (deduplicate opt && seen_before _ _); [done|].
  simpl. by rewrite length_insert.
Qed.

Lemma index_step_elem v k posn e :
  e ∈ mjoin (index_step opt v k posn).1 →
  e = Idloc k posn false ∨ e ∈ mjoin v.1.
Proof.
  unfold index_step. destruct (deduplicate opt && seen_before _ _); [auto|].
  simpl. intros [He|He]%elem_of_join_insert; [|auto].
  apply elem_of_cons in He as [->|He]; [auto|]. right. by eapply elem_of_bucket.
Qed.

Lemma index_records_length rs : ∀ off v,
  length (index_records opt off rs v).1 = length v.1.
Proof.
  induction rs as [|r rs IH]; intros off v; simpl; [done|].
  by rewrite IH, index_step_length.
Qed.

Lemma index_records_points ls v :
  points_into ls v.1 →
  ∀ done rest, ls = done ++ rest →
    points_into ls (index_records opt 0 done v).1.
Proof.
  intros Hv done. induction done as [|r done IH] using rev_ind; intros rest Hls; [done|].
  rewrite index_records_snoc. apply Forall_forall.
  intros e [->|He]%index_step_elem.
  - simpl. rewrite Hls, <- app_assoc. simpl. rewrite record_at_app. done.
  - revert e He. apply Forall_forall. eapply IH. rewrite Hls, <- app_assoc. done.
Qed.

(** ** A whole run on two streams of well-formed records *)

Lemma pair_files_records mem ls rs :
  zero_tables opt mem →
  Forall (λ l, well_formed opt l = true) ls →
  Forall (λ r, well_formed opt r = true) rs →
  tablesize opt ≠ 0 →
  let v := foldl (right_step opt ls) (initial_view opt ls) rs in
  pair_files opt mem (render ls) (render rs)
  = Ok (Report (v_left_paired v) (v_right_paired v)
          (orphans opt ls (v_ids_left v)) (v_right_single v)
          (v_left_paired_counter v) (v_right_paired_counter v)
          (length (filter (λ e, printed e = false) (mjoin (v_ids_left v))))
          (v_right_single_counter v)
          (index_records opt 0 ls (replicate (tablesize opt) [], 0)).2
          (v_right_duplicates v)).
Proof.
  intros (Hml & Hmr & Hline) Hls Hrs Hts v. unfold pair_files. rewrite Hml.
  set (st0 := LeftState _ _ _ _ _).
  destruct (left_loop_records ls (S (length (render ls))) st0 [])
    as (st1 & E1 & D1 & L1 & V1); try done.
  { pose proof (length_le_render ls). lia. }
  rewrite E1. cbn [mbind result_bind].
  set (sr0 := RightState _ _ _ _ _ _ _ _ _ _ _ _).
  pose proof (f_equal fst V1) as Vids. pose proof (f_equal snd V1) as Vdups.
  simpl in Vids, Vdups. clear V1.
  assert (view sr0 = initial_view opt ls) as Hview.
  { unfold view, initial_view, sr0. simpl. rewrite Vids.
    destruct (deduplicate opt); [by rewrite Hmr|done]. }
  destruct (right_loop_records ls rs (S (length (render rs))) sr0 [])
    as (st2 & E2 & D2 & L2 & P2 & V2); try done.
  { unfold sr0. simpl. rewrite Vids.
    apply (index_records_points ls _) with (rest := []); [|by rewrite app_nil_r].
    unfold points_into. simpl. rewrite join_nil_2; [done|].
    apply Forall_replicate. done. }
  { unfold sr0. simpl. rewrite Vids, index_records_length. simpl.
    by rewrite length_replicate. }
  { pose proof (length_le_render rs). lia. }
  rewrite E2. cbn [mbind result_bind]. rewrite Hview in V2. fold v in V2.
  assert (r_ids_left st2 = v_ids_left v) as Hids by (by rewrite <- V2).
  rewrite orphan_loop_foldl, foldl_orphan_emit_counter.
  rewrite (foldl_orphan_emit_records ls); try done.
  - rewrite <- V2, Vdups. unfold orphans. simpl. rewrite Hids. done.
  - intros e [_ He]%list_elem_of_filter. revert e He. by apply Forall_forall.
Qed.

(** ** The properties of the loops *)

Lemma seen_before_true chain k :
  seen_before chain k = true ↔ ∃ e, e ∈ chain ∧ id e = k.
Proof.
  induction chain as [|e next IH]; simpl.
  - split; [done|]. by intros (e & ?%elem_of_nil & _).
  - destruct (strcmp0 (id e) k) eqn:E.
    + apply strcmp0_true in E. split; [|done]. intros _. exists e. split; [by left|done].
    + apply strcmp0_false in E. rewrite IH. split.
      * intros (e' & ? & ?). exists e'. split; [by right|done].
      * intros (e' & [->|?]%elem_of_cons & ?); [done|]. by exists e'.
Qed.

(** C6.  With duplicate tracking, a turn of the first loop whose
    canonical id is already that of an entry of its bucket's chain inserts
    nothing, leaves the table as it is and adds one to the count of left
    duplicates. *)
Theorem left_duplicate_skipped st lfp line line' h :
  deduplicate opt = true →
  readFromFile (l_lfp st) (l_line st) MAXLINELEN = (true, lfp, line) →
  normalize (splitspace opt) line = Ok line' →
  hashval_of opt (cstring line') = Ok h →
  (∃ e, e ∈ bucket (l_ids_left st) h ∧ id e = cstring line') →
  ∃ st', left_body opt st = Ok (Some st')
         ∧ l_ids_left st' = l_ids_left st
         ∧ l_left_duplicates st' = S (l_left_duplicates st).
Proof.
  intros Hd Hr Hn Hh Hseen%seen_before_true.
  unfold left_body. rewrite Hr. cbn [negb]. rewrite Hn. cbn [mbind result_bind].
  rewrite Hh. cbn [mbind result_bind]. rewrite Hd, Hseen. cbn [andb].
  destruct (skip_lines 3 lfp line') as [lfp' line'']. by eexists.
Qed.

(** C7.  The last loop is one pass over the entries of the table, bucket
    after bucket in index order and each chain from its head, that does
    [orphan_emit] once for every entry not printed and nothing for the
    others; a chain starts with the entry inserted last; the count of left
    singles grows by the number of entries not printed; and when every
    position in the table is the start of a record of the left stream, what
    is written to left-single is, in that order, the record at the position
    of each such entry. *)
Theorem orphan_pass ids_left st :
  orphan_loop opt ids_left st
  = foldl (orphan_emit opt) st (filter (λ e, printed e = false) (mjoin ids_left))
  ∧ o_left_single_counter (orphan_loop opt ids_left st)
    = o_left_single_counter st
      + length (filter (λ e, printed e = false) (mjoin ids_left))
  ∧ (∀ h line nextposition, h < length ids_left →
       bucket (insert_head ids_left h line nextposition) h
       = Idloc (dupstr line) nextposition false :: bucket ids_left h)
  ∧ (∀ ls,
       data (o_lfp st) = render ls →
       length (o_line st) = MAXLINELEN + 1 →
       Forall (λ l, well_formed opt l = true) ls →
       points_into ls ids_left →
       o_left_single (orphan_loop opt ids_left st)
       = o_left_single st ++ orphans opt ls ids_left).
Proof.
  split; [apply orphan_loop_foldl|]. split; [|split].
  - by rewrite orphan_loop_foldl, foldl_orphan_emit_counter.
  - intros h line nextposition Hh. by apply bucket_insert_head.
  - intros ls Hdata Hlen Hls Hpts. rewrite orphan_loop_foldl.
    rewrite (foldl_orphan_emit_records ls); try done.
    intros e [_ He]%list_elem_of_filter. revert e He. by apply Forall_forall.
Qed.

(** One turn of the second loop moves the two paired counters together. *)
Lemma right_body_paired_counters st st' :
  right_body opt st = Ok (Some st') →
  (r_left_paired_counter st' = r_left_paired_counter st
   ∧ r_right_paired_counter st' = r_right_paired_counter st)
  ∨ (r_left_paired_counter st' = S (r_left_paired_counter st)
     ∧ r_right_paired_counter st' = S (r_right_paired_counter st)).
Proof.
  unfold right_body.
  destruct (readFromFile _ _ _) as [[[] rfp] line]; cbn [negb]; [|done].
  destruct (normalize _ _) as [line'| |]; cbn [mbind result_bind]; [|done..].
  destruct (hashval_of _ _) as [h| |]; cbn [mbind result_bind]; [|done..].
  destruct (deduplicate opt && seen_before _ _).
  - destruct (skip_lines _ _ _) as [? ?]. intros [= <-]. auto.
  - destruct (find_mate _ _ _) as [posn chain].
    destruct (negb (posn =? -1)%Z).
    + destruct (copy_record _ _ _ _ _) as [[? ?] ?].
      destruct (copy_lines _ _ _ _) as [[? ?] ?]. intros [= <-]. auto.
    + destruct (copy_lines _ _ _ _) as [[? ?] ?]. intros [= <-]. auto.
Qed.

Lemma right_loop_rtc fuel : ∀ st st',
  right_loop opt fuel st = Ok st' →
  rtc (λ s s', right_body opt s = Ok (Some s')) st st'.
Proof.
  induction fuel as [|fuel IH]; intros st st'; simpl; [done|].
  destruct (right_body opt st) as [[st1|]| |] eqn:E; cbn [mbind result_bind]; try done.
  - intros H. eapply rtc_l; [done|]. by apply IH.
  - intros [= ->]. done.
Qed.

(** C5.  The two paired counters are equal when the second loop starts,
    one turn of that loop either leaves both or adds one to both, so they
    are equal in every state the loop goes through, and in the report. *)
Theorem paired_counters_equal :
  (∀ st st', right_body opt st = Ok (Some st') →
     (r_left_paired_counter st' = r_left_paired_counter st
      ∧ r_right_paired_counter st' = r_right_paired_counter st)
     ∨ (r_left_paired_counter st' = S (r_left_paired_counter st)
        ∧ r_right_paired_counter st' = S (r_right_paired_counter st)))
  ∧ (∀ st st',
       r_left_paired_counter st = r_right_paired_counter st →
       rtc (λ s s', right_body opt s = Ok (Some s')) st st' →
       r_left_paired_counter st' = r_right_paired_counter st')
  ∧ (∀ mem left_fn right_fn rep,
       pair_files opt mem left_fn right_fn = Ok rep →
       left_paired_counter rep = right_paired_counter rep).
Proof.
  assert (∀ st st',
       r_left_paired_counter st = r_right_paired_counter st →
       rtc (λ s s', right_body opt s = Ok (Some s')) st st' →
       r_left_paired_counter st' = r_right_paired_counter st') as Hrtc.
  { intros st st' H0 Hsteps. induction Hsteps as [|s1 s2 s3 Hstep _ IH]; [done|].
    apply IH. destruct (right_body_paired_counters _ _ Hstep) as [[-> ->]|[-> ->]];
      by rewrite H0. }
  split; [apply right_body_paired_counters|]. split; [done|].
  intros mem left_fn right_fn rep. unfold pair_files.
  destruct (left_loop _ _ _) as [ls| |]; cbn [mbind result_bind]; [|done..].
  destruct (right_loop _ _ _) as [rs| |] eqn:E; cbn [mbind result_bind]; [|done..].
  intros [= <-]. simpl. apply right_loop_rtc in E. by eapply Hrtc; [|exact E].
Qed.

(** ** Termination of the loops *)

Lemma readFromFile_stream fp line n b fp' line' :
  readFromFile fp line n = (b, fp', line') →
  data fp' = data fp ∧ cursor fp ≤ cursor fp'.
Proof.
  unfold readFromFile. destruct (drop _ _); intros [= <- <- <-]; simpl; split; (done || lia).
Qed.

Lemma readFromFile_progress fp line n fp' line' :
  2 ≤ n →
  readFromFile fp line n = (true, fp', line') →
  cursor fp < length (data fp) ∧ cursor fp < cursor fp'.
Proof.
  intros Hn. unfold readFromFile.
  destruct (drop (cursor fp) (data fp)) as [|c rest] eqn:E; [done|].
  intros [= <- <-]. split.
  - destruct (decide (cursor fp < length (data fp))); [done|].
    rewrite drop_ge in E by lia. done.
  - destruct (n - 1) as [|m] eqn:En; [lia|]. simpl. lia.
Qed.

Lemma read_line_stream fp line fp' line' :
  read_line fp line = (fp', line') →
  data fp' = data fp ∧ cursor fp ≤ cursor fp'.
Proof.
  unfold read_line. destruct (readFromFile _ _ _) as [[b fp1] line1] eqn:E.
  intros [= <- <-]. by eapply readFromFile_stream.
Qed.

Lemma skip_lines_stream n : ∀ fp line fp' line',
  skip_lines n fp line = (fp', line') →
  data fp' = data fp ∧ cursor fp ≤ cursor fp'.
Proof.
  induction n as [|n IH]; intros fp line fp' line'; simpl.
  - intros [= <- <-]. done.
  - destruct (read_line fp line) as [fp1 line1] eqn:E.
    apply read_line_stream in E as [D C]. intros [D' C']%IH.
    split; [congruence|lia].
Qed.

Lemma copy_lines_stream n : ∀ fp line out fp' line' out',
  copy_lines n fp line out = (fp', line', out') →
  data fp' = data fp ∧ cursor fp ≤ cursor fp'.
Proof.
  induction n as [|n IH]; intros fp line out fp' line' out'; simpl.
  - intros [= <- <- <-]. done.
  - destruct (read_line fp line) as [fp1 line1] eqn:E.
    apply read_line_stream in E as [D C]. intros [D' C']%IH.
    split; [congruence|lia].
Qed.

Lemma left_body_progress st st' :
  2 ≤ MAXLINELEN →
  left_body opt st = Ok (Some st') →
  data (l_lfp st') = data (l_lfp st)
  ∧ cursor (l_lfp st) < length (data (l_lfp st))
  ∧ cursor (l_lfp st) < cursor (l_lfp st').
Proof.
  intros HM. unfold left_body.
  destruct (readFromFile _ _ _) as [[[] lfp] line] eqn:R; cbn [negb]; [|done].
  pose proof (readFromFile_stream _ _ _ _ _ _ R) as [D _].
  apply readFromFile_progress in R as [C1 C2]; [|done].
  destruct (normalize _ _) as [line'| |]; cbn [mbind result_bind]; [|done..].
  destruct (hashval_of _ _) as [h| |]; cbn [mbind result_bind]; [|done..].
  destruct (skip_lines 3 lfp line') as [lfp' line''] eqn:S.
  apply skip_lines_stream in S as [D' C']. intros [= <-]. simpl.
  split; [congruence|]. split; [done|lia].
Qed.

Lemma right_body_progress st st' :
  2 ≤ MAXLINELEN →
  right_body opt st = Ok (Some st') →
  data (r_rfp st') = data (r_rfp st)
  ∧ cursor (r_rfp st) < length (data (r_rfp st))
  ∧ cursor (r_rfp st) < cursor (r_rfp st').
Proof.
  intros HM. unfold right_body.
  destruct (readFromFile _ _ _) as [[[] rfp] line] eqn:R; cbn [negb]; [|done].
  pose proof (readFromFile_stream _ _ _ _ _ _ R) as [D _].
  apply readFromFile_progress in R as [C1 C2]; [|done].
  destruct (normalize _ _) as [line'| |]; cbn [mbind result_bind]; [|done..].
  destruct (hashval_of _ _) as [h| |]; cbn [mbind result_bind]; [|done..].
  destruct (deduplicate opt && seen_before _ _).
  - destruct (skip_lines 3 rfp line') as [rfp' line''] eqn:S.
    apply skip_lines_stream in S as [D' C']. intros [= <-]. simpl.
    split; [congruence|]. split; [done|lia].
  - destruct (find_mate _ _ _) as [posn chain].
    destruct (negb (posn =? -1)%Z).
    + destruct (copy_record _ _ _ _ _) as [[lfp' line2] lp].
      destruct (copy_lines 3 rfp line2 _) as [[rfp' line3] rp] eqn:S.
      apply copy_lines_stream in S as [D' C']. intros [= <-]. simpl.
      split; [congruence|]. split; [done|lia].
    + destruct (copy_lines 3 rfp line' _) as [[rfp' line3] rp] eqn:S.
      apply copy_lines_stream in S as [D' C']. intros [= <-]. simpl.
      split; [congruence|]. split; [done|lia].
Qed.

Lemma left_body_returns st : left_body opt st ≠ OutOfFuel.
Proof.
  unfold left_body.
  destruct (readFromFile _ _ _) as [[[] lfp] line]; cbn [negb]; [|done].
  destruct (normalize _ _) as [line'| |] eqn:N; cbn [mbind result_bind];
    [|done|by apply normalize_returns in N].
  destruct (hashval_of _ _) as [h| |] eqn:H; cbn [mbind result_bind].
  - by destruct (skip_lines _ _ _).
  - done.
  - unfold hashval_of in H. by destruct (tablesize opt =? 0).
Qed.

Lemma right_body_returns st : right_body opt st ≠ OutOfFuel.
Proof.
  unfold right_body.
  destruct (readFromFile _ _ _) as [[[] rfp] line]; cbn [negb]; [|done].
  destruct (normalize _ _) as [line'| |] eqn:N; cbn [mbind result_bind];
    [|done|by apply normalize_returns in N].
  destruct (hashval_of _ _) as [h| |] eqn:H; cbn [mbind result_bind].
  - destruct (deduplicate opt && seen_before _ _).
    + by destruct (skip_lines _ _ _).
    + destruct (find_mate _ _ _) as [posn chain].
      destruct (negb (posn =? -1)%Z).
      * destruct (copy_record _ _ _ _ _) as [[? ?] ?].
        by destruct (copy_lines _ _ _ _) as [[? ?] ?].
      * by destruct (copy_lines _ _ _ _) as [[? ?] ?].
  - done.
  - unfold hashval_of in H. by destruct (tablesize opt =? 0).
Qed.

Lemma left_loop_fuel fuel : ∀ st,
  2 ≤ MAXLINELEN →
  length (data (l_lfp st)) - cursor (l_lfp st) < fuel →
  left_loop opt fuel st ≠ OutOfFuel.
Proof.
  induction fuel as [|fuel IH]; intros st HM Hf; [lia|]. simpl.
  pose proof (left_body_returns st) as Hret.
  destruct (left_body opt st) as [[st'|]| |] eqn:E; cbn [mbind result_bind];
    [|done..].
  apply left_body_progress in E as (D & C1 & C2); [|done].
  apply IH; [done|]. rewrite D. lia.
Qed.

Lemma right_loop_fuel fuel : ∀ st,
  2 ≤ MAXLINELEN →
  length (data (r_rfp st)) - cursor (r_rfp st) < fuel →
  right_loop opt fuel st ≠ OutOfFuel.
Proof.
  induction fuel as [|fuel IH]; intros st HM Hf; [lia|]. simpl.
  pose proof (right_body_returns st) as Hret.
  destruct (right_body opt st) as [[st'|]| |] eqn:E; cbn [mbind result_bind];
    [|done..].
  apply right_body_progress in E as (D & C1 & C2); [|done].
  apply IH; [done|]. rewrite D. lia.
Qed.

Lemma hash_loop_snoc s c : ∀ h,
  hash_loop char_signed h (s ++ [c])
  = ((char_value char_signed c + 31 * hash_loop char_signed h s) mod UINT_MOD)%Z.
Proof. induction s as [|a s IH]; intros h; simpl; [done|]. apply IH. Qed.

(** X18.  The hash is the accumulator [h = byte + 31 * h] from zero,
    reduced modulo two to the 32 at every step. *)
Theorem hash_accumulator :
  hash char_signed [] = 0%Z
  ∧ (∀ s c, hash char_signed (s ++ [c])
            = ((char_value char_signed c + 31 * hash char_signed s) mod 2 ^ 32)%Z).
Proof. split; [done|]. intros s c. apply hash_loop_snoc. Qed.

(** X19.  With a line buffer of two bytes or more both loops end within
    one turn more than their stream has bytes, whatever the streams and
    the allocation hold: a run yields a report or stops at an undefined
    access. *)
Theorem run_within_bound mem left_fn right_fn :
  2 ≤ MAXLINELEN → pair_files opt mem left_fn right_fn ≠ OutOfFuel.
Proof.
  intros HM. unfold pair_files.
  match goal with |- context [left_loop opt ?f ?st] =>
    pose proof (left_loop_fuel f st HM) as HL;
    destruct (left_loop opt f st) as [ls| |] end; cbn [mbind result_bind].
  - match goal with |- context [right_loop opt ?f ?st] =>
      pose proof (right_loop_fuel f st HM) as HR;
      destruct (right_loop opt f st) as [rs| |] end; cbn [mbind result_bind];
      [done|done|].
    exfalso. apply HR; [simpl; lia|done].
  - done.
  - exfalso. apply HL; [simpl; lia|done].
Qed.

(** ** A stream that ends inside a record *)

Lemma readFromFile_end fp line n :
  length (data fp) ≤ cursor fp → readFromFile fp line n = (false, fp, line).
Proof. intros H. unfold readFromFile. by rewrite drop_ge. Qed.

Lemma skip_lines_end n fp line :
  length (data fp) ≤ cursor fp → skip_lines n fp line = (fp, line).
Proof.
  intros H. induction n as [|n IH]; simpl; [done|].
  unfold read_line. by rewrite readFromFile_end.
Qed.

Lemma copy_lines_end n fp line : ∀ out,
  length (data fp) ≤ cursor fp →
  copy_lines n fp line out = (fp, line, out ++ mjoin (replicate n (cstring line))).
Proof.
  induction n as [|n IH]; intros out H; simpl.
  - by rewrite app_nil_r.
  - unfold read_line. rewrite readFromFile_end by done.
    rewrite IH by done. by rewrite <- app_assoc.
Qed.

Lemma read_line_stream_of fp l1 l2 : (read_line fp l1).1 = (read_line fp l2).1.
Proof.
  unfold read_line, readFromFile. by destruct (drop (cursor fp) (data fp)).
Qed.

Lemma skip_lines_stream_of n : ∀ fp l1 l2,
  (skip_lines n fp l1).1 = (skip_lines n fp l2).1.
Proof.
  induction n as [|n IH]; intros fp l1 l2; simpl; [done|].
  pose proof (read_line_stream_of fp l1 l2) as E.
  destruct (read_line fp l1) as [f1 m1], (read_line fp l2) as [f2 m2].
  simpl in E. subst f2. apply IH.
Qed.

Lemma copy_lines_skip_lines n : ∀ fp line out,
  (copy_lines n fp line out).1 = skip_lines n fp line.
Proof.
  induction n as [|n IH]; intros fp line out; simpl; [done|].
  destruct (read_line fp line) as [fp1 line1]. apply IH.
Qed.

Lemma skip_lines_add j m : ∀ fp line,
  skip_lines (j + m) fp line
  = skip_lines m (skip_lines j fp line).1 (skip_lines j fp line).2.
Proof.
  induction j as [|j IH]; intros fp line; simpl; [done|].
  destruct (read_line fp line) as [fp1 line1]. apply IH.
Qed.

Lemma copy_lines_add j m : ∀ fp line out,
  copy_lines (j + m) fp line out
  = copy_lines m (skip_lines j fp line).1 (skip_lines j fp line).2
      (copy_lines j fp line out).2.
Proof.
  induction j as [|j IH]; intros fp line out; simpl; [done|].
  destruct (read_line fp line) as [fp1 line1]. apply IH.
Qed.

(** Reads that meet the end of the stream after [j] lines. *)
Lemma lines_short j n fp line out :
  j ≤ n →
  length (data (skip_lines j fp line).1) ≤ cursor (skip_lines j fp line).1 →
  skip_lines n fp line = skip_lines j fp line
  ∧ copy_lines n fp line out
    = (skip_lines j fp line,
       (copy_lines j fp line out).2
         ++ mjoin (replicate (n - j) (cstring (skip_lines j fp line).2))).
Proof.
  intros Hj Hend. replace n with (j + (n - j)) at 1 2 by lia.
  rewrite skip_lines_add, copy_lines_add.
  rewrite skip_lines_end, copy_lines_end by done.
  by destruct (skip_lines j fp line).
Qed.

(** C4, as amended.  The end of a stream inside a record is not detected:
    a read at the end of the stream returns NULL, the result is ignored
    and the buffer stays as it is.  When the stream ends [j] lines after a
    header, [j] from 0 to 3, the turn of either loop completes like any
    other and the next turn ends the loop.  In the first loop the header is
    indexed, or counted as a duplicate, whatever [j] is.  In the second
    loop the record is counted as a duplicate, a pair or a single, and
    unless it is a duplicate its header and the [j] lines are written,
    followed by [3 - j] copies of what the line buffer holds then. *)
Theorem short_record_not_detected :
  (∀ j n fp line out,
     j ≤ n →
     length (data (skip_lines j fp line).1) ≤ cursor (skip_lines j fp line).1 →
     skip_lines n fp line = skip_lines j fp line
     ∧ copy_lines n fp line out
       = (skip_lines j fp line,
          (copy_lines j fp line out).2
            ++ mjoin (replicate (n - j) (cstring (skip_lines j fp line).2))))
  ∧ (∀ st lfp line line' h j,
       readFromFile (l_lfp st) (l_line st) MAXLINELEN = (true, lfp, line) →
       normalize (splitspace opt) line = Ok line' →
       hashval_of opt (cstring line') = Ok h →
       j ≤ 3 →
       length (data (skip_lines j lfp line').1) ≤ cursor (skip_lines j lfp line').1 →
       ∃ st', left_body opt st = Ok (Some st')
              ∧ left_body opt st' = Ok None
              ∧ (l_lfp st', l_line st') = skip_lines j lfp line'
              ∧ l_left_duplicates st'
                = (if deduplicate opt
                      && seen_before (bucket (l_ids_left st) h) (cstring line')
                   then S (l_left_duplicates st) else l_left_duplicates st)
              ∧ l_ids_left st'
                = (if deduplicate opt
                      && seen_before (bucket (l_ids_left st) h) (cstring line')
                   then l_ids_left st
                   else insert_head (l_ids_left st) h line' (l_nextposition st)))
  ∧ (∀ st rfp line line' h j,
       readFromFile (r_rfp st) (r_line st) MAXLINELEN = (true, rfp, line) →
       normalize (splitspace opt) line = Ok line' →
       hashval_of opt (cstring line') = Ok h →
       j ≤ 3 →
       length (data (skip_lines j rfp line').1) ≤ cursor (skip_lines j rfp line').1 →
       ∃ st', right_body opt st = Ok (Some st')
              ∧ right_body opt st' = Ok None
              ∧ r_right_duplicates st' + r_right_paired_counter st'
                + r_right_single_counter st'
                = S (r_right_duplicates st + r_right_paired_counter st
                     + r_right_single_counter st)
              ∧ ((r_right_duplicates st' = S (r_right_duplicates st)
                  ∧ r_right_paired st' = r_right_paired st
                  ∧ r_right_single st' = r_right_single st)
                 ∨ (r_right_paired_counter st' = S (r_right_paired_counter st)
                    ∧ ∃ line2,
                        r_right_paired st'
                        = (copy_lines j rfp line2
                             (r_right_paired st
                                ++ (if formatid opt
                                    then catstr (cstring line') (ln "2")
                                    else dupstr line))).2
                            ++ mjoin (replicate (3 - j) (cstring (r_line st'))))
                 ∨ (r_right_single_counter st' = S (r_right_single_counter st)
                    ∧ r_right_single st'
                      = (copy_lines j rfp line'
                           (r_right_single st
                              ++ (if formatid opt
                                  then catstr (cstring line') (ln "2")
                                  else dupstr line))).2
                          ++ mjoin (replicate (3 - j) (cstring (r_line st')))))).
Proof.
  split; [intros j n fp line out; apply lines_short|]. split.
  - intros st lfp line line' h j R N H Hj Hend.
    unfold left_body at 1. rewrite R. cbn [negb]. rewrite N. cbn [mbind result_bind].
    rewrite H. cbn [mbind result_bind].
    rewrite (proj1 (lines_short j 3 lfp line' [] Hj Hend)).
    destruct (skip_lines j lfp line') as [lfp' line''] eqn:S. simpl in Hend.
    eexists. split; [done|]. split; [|done].
    unfold left_body. cbn. by rewrite readFromFile_end.
  - intros st rfp line line' h j R N H Hj Hend'.
    assert (∀ line2, length (data (skip_lines j rfp line2).1)
                     ≤ cursor (skip_lines j rfp line2).1) as Hend.
    { intros line2. by rewrite (skip_lines_stream_of j rfp line2 line'). }
    clear Hend'. unfold right_body at 1. rewrite R. cbn [negb]. rewrite N. cbn [mbind result_bind].
    rewrite H. cbn [mbind result_bind].
    destruct (deduplicate opt && seen_before _ _).
    + rewrite (proj1 (lines_short j 3 rfp line' [] Hj (Hend line'))).
      specialize (Hend line').
      destruct (skip_lines j rfp line') as [rfp' line''] eqn:S. simpl in Hend.
      eexists. split; [done|]. split.
      { unfold right_body. cbn. by rewrite readFromFile_end. }
      cbn. split; [lia|]. left. done.
    + destruct (find_mate _ _ _) as [posn chain].
      destruct (negb (posn =? -1)%Z).
      * destruct (copy_record _ _ _ _ _) as [[lfp' line2] lp].
        rewrite (proj2 (lines_short j 3 rfp line2 _ Hj (Hend line2))).
        specialize (Hend line2).
        destruct (skip_lines j rfp line2) as [rfp' line''] eqn:S. simpl in Hend.
        eexists. split; [done|]. split.
        { unfold right_body. cbn. by rewrite readFromFile_end. }
        cbn. split; [lia|]. right. left. split; [done|]. exists line2.
        unfold dupstr. by destruct (formatid opt).
      * rewrite (proj2 (lines_short j 3 rfp line' _ Hj (Hend line'))).
        specialize (Hend line').
        destruct (skip_lines j rfp line') as [rfp' line''] eqn:S. simpl in Hend.
        eexists. split; [done|]. split.
        { unfold right_body. cbn. by rewrite readFromFile_end. }
        cbn. split; [lia|]. right. right. split; [done|].
        unfold dupstr. by destruct (formatid opt).
Qed.

(** ** Sorted tables *)

Lemma sorted_table_empty : sorted_table opt (replicate (tablesize opt) []).
Proof.
  split; [by rewrite length_replicate|]. intros h e. unfold bucket.
  destruct (replicate _ _ !! h) as [c|] eqn:E; simpl; [|by intros ?%elem_of_nil].
  apply lookup_replicate in E as [-> _]. by intros ?%elem_of_nil.
Qed.

Lemma sorted_table_elem ids e :
  sorted_table opt ids → e ∈ mjoin ids → e ∈ bucket ids (hashval opt (id e)).
Proof.
  intros [_ Hs] (chain & He & Hin)%list_elem_of_join.
  apply list_elem_of_lookup in Hin as [i Hi].
  assert (e ∈ bucket ids i) as Hb by (unfold bucket; by rewrite Hi).
  by rewrite (Hs i e Hb).
Qed.

Lemma sorted_table_insert ids k chain :
  sorted_table opt ids →
  (∀ e, e ∈ chain → hashval opt (id e) = hashval opt k) →
  sorted_table opt (<[hashval opt k := chain]> ids).
Proof.
  intros [Hl Hs] Hc. split; [by rewrite length_insert|]. intros h e.
  destruct (decide (hashval opt k = h)) as [<-|Hne].
  - destruct (decide (hashval opt k < length ids)).
    + rewrite bucket_insert_eq by done. apply Hc.
    + rewrite list_insert_ge by lia. apply Hs.
  - rewrite bucket_insert_ne by done. apply Hs.
Qed.

Lemma sorted_table_head ids k posn b :
  sorted_table opt ids →
  sorted_table opt (<[hashval opt k := Idloc k posn b :: bucket ids (hashval opt k)]> ids).
Proof.
  intros Hs. apply sorted_table_insert; [done|].
  intros e [->|He]%elem_of_cons; [done|]. by apply Hs.
Qed.

Lemma sorted_table_marked ids k :
  sorted_table opt ids →
  sorted_table opt (<[hashval opt k := mark k <$> bucket ids (hashval opt k)]> ids).
Proof.
  intros Hs. apply sorted_table_insert; [done|].
  intros e (e0 & -> & He0)%list_elem_of_fmap. rewrite id_mark. by apply Hs.
Qed.

Lemma seen_before_sorted ids k :
  sorted_table opt ids →
  seen_before (bucket ids (hashval opt k)) k = true ↔ k ∈ id <$> mjoin ids.
Proof.
  intros Hs. rewrite seen_before_true. split.
  - intros (e & He & <-). apply list_elem_of_fmap. exists e. split; [done|].
    by eapply elem_of_bucket.
  - intros (e & -> & He)%list_elem_of_fmap. exists e. split; [|done].
    by apply sorted_table_elem.
Qed.

Lemma mark_other k e : id e ≠ k → mark k e = e.
Proof. intros H. unfold mark. by rewrite (proj2 (strcmp0_false _ _) H). Qed.

Lemma fmap_mark_other k (es : list idloc) :
  (∀ e, e ∈ es → id e ≠ k) → mark k <$> es = es.
Proof.
  intros H. induction es as [|e es IH]; [done|]. rewrite fmap_cons.
  rewrite mark_other by (apply H; by left). f_equal. apply IH.
  intros e' He'. apply H. by right.
Qed.

(** Marking the bucket of a key marks the whole table. *)
Lemma marked_table ids k :
  sorted_table opt ids → tablesize opt ≠ 0 →
  mjoin (<[hashval opt k := mark k <$> bucket ids (hashval opt k)]> ids)
  = mark k <$> mjoin ids.
Proof.
  intros [Hl Hs] Hts.
  destruct (table_split ids (hashval opt k)) as (A & B & HA & HB & HAB).
  { rewrite Hl. by apply hashval_lt. }
  rewrite HB, HA, !fmap_app.
  rewrite (fmap_mark_other k A), (fmap_mark_other k B); [done|..].
  - intros e He Hid. destruct (HAB e) as (i & Hne & Hi); [apply elem_of_app; auto|].
    apply Hs in Hi. congruence.
  - intros e He Hid. destruct (HAB e) as (i & Hne & Hi); [apply elem_of_app; auto|].
    apply Hs in Hi. congruence.
Qed.

(** An insertion at the head of a bucket adds one entry to the table. *)
Lemma inserted_table (ids : list (list idloc)) h e :
  h < length ids →
  mjoin (<[h := e :: bucket ids h]> ids) ≡ₚ e :: mjoin ids.
Proof.
  intros Hh. destruct (table_split ids h Hh) as (A & B & HA & HB & _).
  rewrite HB, HA. simpl. by rewrite <- Permutation_middle.
Qed.

(** ** The table built from the left stream *)

Lemma index_step_cases v k posn :
  length v.1 = tablesize opt → tablesize opt ≠ 0 →
  (index_step opt v k posn = (v.1, S v.2)
   ∧ deduplicate opt = true
   ∧ seen_before (bucket v.1 (hashval opt k)) k = true)
  ∨ ((index_step opt v k posn).2 = v.2
     ∧ (index_step opt v k posn).1
       = <[hashval opt k := Idloc k posn false :: bucket v.1 (hashval opt k)]> v.1
     ∧ mjoin (index_step opt v k posn).1 ≡ₚ Idloc k posn false :: mjoin v.1
     ∧ (deduplicate opt = true →
        seen_before (bucket v.1 (hashval opt k)) k = false)).
Proof.
  intros Hl Hts. unfold index_step.
  destruct (deduplicate opt) eqn:Ed; simpl.
  - destruct (seen_before _ _) eqn:Es; [by left|]. right. simpl.
    split; [done|]. split; [done|]. split; [|done].
    apply inserted_table. rewrite Hl. by apply hashval_lt.
  - right. simpl. split; [done|]. split; [done|]. split; [|done].
    apply inserted_table. rewrite Hl. by apply hashval_lt.
Qed.

Lemma index_records_invariant ls :
  tablesize opt ≠ 0 →
  ∀ done rest, ls = done ++ rest →
    index_invariant opt ls done
      (index_records opt 0 done (replicate (tablesize opt) [], 0)).
Proof.
  intros Hts done. induction done as [|r done IH] using rev_ind; intros rest Hls.
  - assert (mjoin (replicate (tablesize opt) ([] : list idloc)) = []) as E.
    { apply join_nil_2, Forall_replicate. done. }
    unfold index_invariant. simpl.
    split; [by rewrite length_replicate|]. split; [apply sorted_table_empty|].
    rewrite E. split; [done|]. split; [by intros l ?%elem_of_nil|].
    intros _. split; [constructor|done].
  - rewrite index_records_snoc. unfold index_invariant.
    change (0 + length (render done)) with (length (render done)).
    destruct (IH (r :: rest)) as (Hl & Hs & Hf & Hd & Hn);
      [by rewrite Hls, <- app_assoc|].
    set (v := index_records opt 0 done (replicate (tablesize opt) [], 0)) in *.
    destruct (index_step_cases v (key opt r) (Z.of_nat (length (render done))) Hl Hts)
      as [(E & Ed & Es)|(E2 & E1 & Ep & Es)].
    + rewrite E. split; [done|]. split; [done|]. split; [done|]. split.
      * intros l [Hin| ->%list_elem_of_singleton]%elem_of_app; [by apply Hd|].
        simpl. apply seen_before_true in Es as (e & He & <-).
        apply list_elem_of_fmap. exists e. split; [done|]. by eapply elem_of_bucket.
      * intros _. destruct (Hn Ed) as [Hnd Hlen]. split; [done|].
        simpl. rewrite length_app. simpl. lia.
    + split; [by rewrite index_step_length|]. split.
      { rewrite E1. by apply sorted_table_head. }
      split.
      { rewrite Ep. constructor; [|done]. split; [done|]. exists r. split; [|done].
        simpl. rewrite Hls, <- app_assoc. simpl. apply record_at_app. }
      split.
      { intros l Hin. rewrite Ep, fmap_cons. simpl.
        apply elem_of_app in Hin as [Hin| ->%list_elem_of_singleton].
        - right. by apply Hd.
        - by left. }
      intros Ed. destruct (Hn Ed) as [Hnd Hlen]. rewrite Ep, fmap_cons. simpl.
      split.
      * apply NoDup_cons. split; [|done].
        intros Hin%(seen_before_sorted _ _ Hs). rewrite (Es Ed) in Hin. done.
      * rewrite E2, length_app. simpl. lia.
Qed.

(** ** Pairs, when no id occurs twice in a stream *)

Lemma mate_Some ls k l : mate opt ls k = Some l → l ∈ ls ∧ key opt l = k.
Proof.
  unfold mate. intros H%head_Some_elem_of.
  apply list_elem_of_filter in H as [? ?]. done.
Qed.

Lemma mate_None ls k l : mate opt ls k = None → l ∈ ls → key opt l ≠ k.
Proof.
  unfold mate. intros H%head_None Hin Hk.
  assert (l ∈ filter (λ l, key opt l = k) ls) as Hf by (by apply list_elem_of_filter).
  rewrite H in Hf. by apply elem_of_nil in Hf.
Qed.

Lemma mate_NoDup ls l :
  NoDup (key opt <$> ls) → l ∈ ls → mate opt ls (key opt l) = Some l.
Proof.
  unfold mate. induction ls as [|l0 ls IH]; intros Hnd Hin; [by apply elem_of_nil in Hin|].
  rewrite fmap_cons in Hnd. apply NoDup_cons in Hnd as [Hnotin Hnd].
  destruct (decide (key opt l0 = key opt l)) as [E|E].
  - rewrite filter_cons_True by done. simpl. f_equal.
    apply elem_of_cons in Hin as [->|Hin]; [done|].
    exfalso. apply Hnotin. rewrite E. by apply list_elem_of_fmap_2.
  - rewrite filter_cons_False by done.
    apply elem_of_cons in Hin as [->|Hin]; [done|]. by apply IH.
Qed.

Lemma fmap_id_mark k (es : list idloc) : id <$> (mark k <$> es) = id <$> es.
Proof.
  rewrite <- list_fmap_compose. apply list_fmap_ext. intros i e _. simpl.
  apply id_mark.
Qed.

Lemma right_step_paired ls done v r :
  NoDup (key opt <$> ls) → tablesize opt ≠ 0 →
  paired_invariant opt ls done v →
  key opt r ∉ key opt <$> done →
  paired_invariant opt ls (done ++ [r]) (right_step opt ls v r).
Proof.
  intros Hnd Hts (Hl & Hs & Hf & Hd & Hr & Hlp & Hrp) Hnew.
  assert (seen_before (bucket (v_ids_right v) (hashval opt (key opt r))) (key opt r)
          = false) as Eseen.
  { destruct (seen_before _ _) eqn:E; [|done]. exfalso. apply Hnew.
    apply seen_before_true in E as (e & He & <-).
    rewrite Forall_forall in Hr. apply Hr. by eapply elem_of_bucket. }
  unfold right_step. rewrite Eseen, andb_false_r, find_mate_marks.
  set (k := key opt r) in *. set (h := hashval opt k) in *.
  set (ids' := <[h := mark k <$> bucket (v_ids_left v) h]> (v_ids_left v)).
  set (idr' := if deduplicate opt
               then <[h := Idloc k 0 false :: bucket (v_ids_right v) h]> (v_ids_right v)
               else v_ids_right v).
  assert (mjoin ids' = mark k <$> mjoin (v_ids_left v)) as Emark
    by (by apply marked_table).
  assert (Forall (λ e, id e ∈ (key opt <$> done) ++ [k]) (mjoin idr')) as Hr'.
  { apply Forall_forall. intros e He. rewrite elem_of_app.
    rewrite Forall_forall in Hr. unfold idr' in He.
    destruct (deduplicate opt); [|left; by apply Hr].
    apply elem_of_join_insert in He as [[->|He]%elem_of_cons|He].
    - right. simpl. by left.
    - left. apply Hr. by eapply elem_of_bucket.
    - left. by apply Hr. }
  assert (Forall (λ e, ∃ l, record_at ls 0 (pos e) = Some l ∧ key opt l = id e)
            (mjoin ids')) as Hf'.
  { rewrite Emark. apply Forall_fmap. eapply Forall_impl; [exact Hf|].
    intros e (l & H1 & H2). exists l. simpl. by rewrite pos_mark, id_mark. }
  assert (∀ l, l ∈ ls → key opt l ∈ id <$> mjoin ids') as Hd'.
  { intros l Hin. rewrite Emark, fmap_id_mark. by apply Hd. }
  assert (record_at ls 0
            (find_mate (bucket (v_ids_left v) h) k (-1)).1 = mate opt ls k) as Efound.
  { destruct (mate opt ls k) as [l|] eqn:Em.
    - apply mate_Some in Em as [Hin Hk].
      pose proof (Hd l Hin) as (e & He1 & He2)%list_elem_of_fmap.
      rewrite Hk in He1.
      assert (e ∈ filter (λ e, id e = k) (bucket (v_ids_left v) h)) as Hfil.
      { apply list_elem_of_filter. split; [done|]. unfold h. rewrite He1.
        by apply sorted_table_elem. }
      rewrite find_mate_last.
      destruct (last (filter _ _)) as [e'|] eqn:El.
      + apply last_Some_elem_of, list_elem_of_filter in El as [Hid He'].
        simpl. rewrite Forall_forall in Hf.
        destruct (Hf e' (elem_of_bucket _ _ _ He')) as (l' & Hrec & Hk').
        rewrite Hrec. f_equal.
        apply record_at_Some in Hrec as (_ & _ & _ & _ & Hin').
        pose proof (mate_NoDup ls l' Hnd Hin') as M1.
        pose proof (mate_NoDup ls l Hnd Hin) as M2.
        rewrite Hk', Hid in M1. rewrite Hk in M2. congruence.
      + apply last_None in El. rewrite El in Hfil. by apply elem_of_nil in Hfil.
    - destruct (find_mate_cases (bucket (v_ids_left v) h) k)
        as [->|(e & He & Hid & ->)]; [by apply record_at_negative|].
      rewrite Forall_forall in Hf.
      destruct (Hf e (elem_of_bucket _ _ _ He)) as (l' & Hrec & Hk').
      apply record_at_Some in Hrec as (_ & _ & _ & _ & Hin').
      exfalso. apply (mate_None ls k l' Em Hin'). congruence. }
  rewrite Efound. unfold paired_invariant.
  rewrite omap_app, filter_app, !fmap_app, !join_app.
  destruct (mate opt ls k) as [l|] eqn:Em.
  - apply mate_Some in Em as [Hin Hk]. pose proof (mate_NoDup ls l Hnd Hin) as Em.
    rewrite Hk in Em. fold k.
    rewrite filter_cons_True by (fold k; by rewrite Em). simpl. fold k.
    rewrite Em. simpl. rewrite !app_nil_r. fold ids' idr'.
    split; [by unfold ids'; rewrite length_insert|].
    split; [by apply sorted_table_marked|].
    split; [done|]. split; [done|]. split; [done|].
    unfold out_left, out_right. fold k. rewrite Hk, Hlp, Hrp. done.
  - rewrite filter_cons_False by (fold k; rewrite Em; by intros [? ?]).
    simpl. fold k. rewrite Em. simpl. rewrite !app_nil_r. fold ids' idr'.
    split; [by unfold ids'; rewrite length_insert|].
    split; [by apply sorted_table_marked|]. done.
Qed.

Lemma foldl_right_step_paired ls rs :
  NoDup (key opt <$> ls) → NoDup (key opt <$> rs) → tablesize opt ≠ 0 →
  ∀ done rest, rs = done ++ rest →
    paired_invariant opt ls done (foldl (right_step opt ls) (initial_view opt ls) done).
Proof.
  intros Hls Hrs Hts done.
  induction done as [|r done IH] using rev_ind; intros rest E.
  - destruct (index_records_invariant ls Hts ls [] (eq_sym (app_nil_r ls)))
      as (Hl & Hs & Hf & Hd & _).
    unfold paired_invariant, initial_view. simpl.
    split; [done|]. split; [done|]. split.
    { eapply Forall_impl; [exact Hf|]. by intros e [_ ?]. }
    split; [done|]. split; [|done].
    destruct (deduplicate opt); [|done].
    rewrite join_nil_2; [done|]. by apply Forall_replicate.
  - rewrite foldl_snoc. apply right_step_paired; try done.
    + apply (IH (r :: rest)). by rewrite E, <- app_assoc.
    + rewrite E, <- app_assoc, fmap_app in Hrs. simpl in Hrs.
      apply NoDup_app in Hrs as (_ & Hrs & _). intros Hin.
      apply (Hrs _ Hin). by left.
Qed.

Lemma filter_none {A} (P : A → Prop) `{∀ x, Decision (P x)} (l : list A) :
  (∀ x, x ∈ l → ¬ P x) → filter P l = [].
Proof.
  intros H0. destruct (filter P l) as [|x l'] eqn:E; [done|].
  assert (x ∈ filter P l) as Hx by (rewrite E; by left).
  apply list_elem_of_filter in Hx as [? ?]. by destruct (H0 x).
Qed.

Lemma count_NoDup {A B} `{EqDecision B} (f : A → B) (l : list A) k :
  NoDup (f <$> l) → k ∈ f <$> l → length (filter (λ x, f x = k) l) = 1.
Proof.
  induction l as [|x l IH]; intros Hnd Hin; [by apply elem_of_nil in Hin|].
  rewrite fmap_cons in Hnd, Hin. apply NoDup_cons in Hnd as [Hx Hnd].
  destruct (decide (f x = k)) as [E|E].
  - rewrite filter_cons_True by done. simpl. rewrite filter_none; [done|].
    intros y Hy Ey. apply Hx. rewrite E, <- Ey. by apply list_elem_of_fmap_2.
  - rewrite filter_cons_False by done.
    apply elem_of_cons in Hin as [->|Hin]; [done|]. by apply IH.
Qed.

Lemma count_elem_NoDup {A} `{EqDecision A} (l : list A) x :
  NoDup l → x ∈ l → length (filter (λ y, y = x) l) = 1.
Proof.
  intros Hnd Hin. apply (count_NoDup (λ y, y) l x); by rewrite list_fmap_id.
Qed.

Lemma count_mates ls rs l :
  NoDup (key opt <$> ls) → l ∈ ls →
  length (filter (λ x, x = l) (omap (λ r, mate opt ls (key opt r)) rs))
  = length (filter (λ r, key opt r = key opt l) rs).
Proof.
  intros Hnd Hin. induction rs as [|r rs IH]; [done|]. simpl.
  destruct (decide (key opt r = key opt l)) as [E|E].
  - rewrite E, (mate_NoDup ls l Hnd Hin). rewrite !filter_cons_True by done.
    simpl. f_equal. exact IH.
  - rewrite (filter_cons_False _ r) by done.
    destruct (mate opt ls (key opt r)) as [l'|] eqn:Em; [|exact IH].
    apply mate_Some in Em as [_ Hk].
    rewrite filter_cons_False by congruence. exact IH.
Qed.

(** C3, as amended.  For two streams of well-formed records in each of
    which no canonical id occurs twice, the run from tables that hold
    [NULL] in every slot completes; left-paired is
    made of the left records that have a mate, in the order in which their
    mates come in the right stream, and right-paired of the right records
    that have a mate, in their order; so every left record whose id occurs
    in the right stream is once in left-paired and the right record with
    that id is once in right-paired. *)
Theorem paired_exactly_once mem ls rs :
  zero_tables opt mem →
  Forall (λ l, well_formed opt l = true) ls →
  Forall (λ r, well_formed opt r = true) rs →
  NoDup (key opt <$> ls) →
  NoDup (key opt <$> rs) →
  tablesize opt ≠ 0 →
  ∃ rep,
    pair_files opt mem (render ls) (render rs) = Ok rep
    ∧ left_paired rep
      = mjoin (out_left opt <$> omap (λ r, mate opt ls (key opt r)) rs)
    ∧ right_paired rep
      = mjoin (out_right opt <$> filter (λ r, is_Some (mate opt ls (key opt r))) rs)
    ∧ ∀ l, l ∈ ls → key opt l ∈ key opt <$> rs →
        length (filter (λ x, x = l) (omap (λ r, mate opt ls (key opt r)) rs)) = 1
        ∧ ∃ r, r ∈ rs ∧ key opt r = key opt l
               ∧ length (filter (λ x, x = r)
                           (filter (λ r, is_Some (mate opt ls (key opt r))) rs)) = 1.
Proof.
  intros Hmem Hwl Hwr Hnl Hnr Hts.
  pose proof (pair_files_records mem ls rs Hmem Hwl Hwr Hts) as Hrun. simpl in Hrun.
  destruct (foldl_right_step_paired ls rs Hnl Hnr Hts rs [] (eq_sym (app_nil_r rs)))
    as (_ & _ & _ & _ & _ & Hlp & Hrp).
  eexists. split; [exact Hrun|]. simpl. split; [done|]. split; [done|].
  intros l Hin Hk. split.
  - rewrite count_mates by done. by apply count_NoDup.
  - pose proof Hk as (r & Hkr & Hr)%list_elem_of_fmap.
    exists r. split; [done|]. split; [done|].
    apply count_elem_NoDup.
    + apply NoDup_filter. by eapply NoDup_fmap_1.
    + apply list_elem_of_filter. split; [|done].
      rewrite <- Hkr, (mate_NoDup ls l Hnl Hin). done.
Qed.

(** ** Counters, with duplicate tracking *)

Lemma length_filter_printed (es : list idloc) :
  length (filter (λ e, printed e = true) es)
  + length (filter (λ e, printed e = false) es) = length es.
Proof.
  induction es as [|e es IH]; [done|]. destruct (printed e) eqn:E.
  - rewrite filter_cons_True, (filter_cons_False (λ e, printed e = false)) by congruence.
    simpl. lia.
  - rewrite filter_cons_False, (filter_cons_True (λ e, printed e = false)) by congruence.
    simpl. lia.
Qed.

(** Marking the one entry with a given id, not printed so far, adds one to
    the number of printed entries. *)
Lemma count_printed_mark k (es : list idloc) e :
  NoDup (id <$> es) → e ∈ es → id e = k → printed e = false →
  length (filter (λ e, printed e = true) (mark k <$> es))
  = S (length (filter (λ e, printed e = true) es)).
Proof.
  induction es as [|e0 es IH]; intros Hnd Hin Hid Hp; [by apply elem_of_nil in Hin|].
  rewrite fmap_cons in Hnd. apply NoDup_cons in Hnd as [Hnotin Hnd].
  rewrite fmap_cons. apply elem_of_cons in Hin as [<-|Hin].
  - rewrite fmap_mark_other.
    + unfold mark. rewrite (proj2 (strcmp0_true _ _) Hid).
      rewrite filter_cons_True by done. rewrite filter_cons_False by congruence. done.
    + intros e' He' Hid'. apply Hnotin. rewrite Hid, <- Hid'.
      by apply list_elem_of_fmap_2.
  - assert (id e0 ≠ k) as Hne.
    { intros Hid0. apply Hnotin. rewrite Hid0, <- Hid. by apply list_elem_of_fmap_2. }
    rewrite (mark_other _ _ Hne). destruct (printed e0) eqn:E0.
    + rewrite !filter_cons_True by done. simpl. by rewrite IH.
    + rewrite !filter_cons_False by congruence. by apply IH.
Qed.

Lemma right_step_counted ls total done v r :
  deduplicate opt = true → tablesize opt ≠ 0 →
  counted_invariant opt ls total done v →
  counted_invariant opt ls total (done ++ [r]) (right_step opt ls v r).
Proof.
  intros Hdd Hts (Hl & Hs & Hnd & Hpts & Htot & Hlr & Hsr & Hpr & Hcnt & Heq & Hsum).
  unfold right_step. rewrite Hdd. cbn [andb].
  set (k := key opt r) in *. set (h := hashval opt k) in *.
  assert (h < tablesize opt) as Hh by (by apply hashval_lt).
  destruct (seen_before (bucket (v_ids_right v) h) k) eqn:Eseen.
  { (* a duplicate of the right stream *)
    unfold counted_invariant. simpl. rewrite length_app. simpl.
    repeat (split; [done|]). lia. }
  rewrite find_mate_marks.
  set (ids' := <[h := mark k <$> bucket (v_ids_left v) h]> (v_ids_left v)).
  set (idr' := <[h := Idloc k 0 false :: bucket (v_ids_right v) h]> (v_ids_right v)).
  assert (mjoin ids' = mark k <$> mjoin (v_ids_left v)) as Emark
    by (by apply marked_table).
  assert (mjoin idr' ≡ₚ Idloc k 0 false :: mjoin (v_ids_right v)) as Eright
    by (apply inserted_table; by rewrite Hlr).
  assert (k ∉ id <$> mjoin (v_ids_right v)) as Hfresh.
  { intros Hin%(seen_before_sorted _ _ Hsr). fold h in Hin. congruence. }
  assert (∀ e, e ∈ mjoin (v_ids_left v) → id e = k → printed e = false) as Hunp.
  { intros e He Hid. destruct (printed e) eqn:E; [|done]. exfalso. apply Hfresh.
    rewrite <- Hid. rewrite Forall_forall in Hpr. by apply Hpr. }
  assert (counted_invariant opt ls total done
            (RightView ids' idr' (v_right_duplicates v) (v_left_paired_counter v)
               (v_right_paired_counter v) (v_right_single_counter v) [] [] [])
          ∨ (∃ e, e ∈ bucket (v_ids_left v) h ∧ id e = k)) as Hcase.
  { destruct (seen_before (bucket (v_ids_left v) h) k) eqn:Eleft;
      [right; by apply seen_before_true|].
    assert (¬ ∃ e, e ∈ bucket (v_ids_left v) h ∧ id e = k) as Hno.
    { intros Hex%seen_before_true. congruence. }
    left. unfold counted_invariant. simpl.
    assert (mark k <$> mjoin (v_ids_left v) = mjoin (v_ids_left v)) as Esame.
    { apply fmap_mark_other. intros e He Hid. apply Hno. exists e. split; [|done].
      unfold h. rewrite <- Hid. by apply sorted_table_elem. }
    split; [by unfold ids'; rewrite length_insert|].
    split; [by apply sorted_table_marked|].
    rewrite Emark, Esame.
    split; [done|]. split; [by apply points_into_marked; [rewrite Hl|]|].
    split; [done|]. split; [by unfold idr'; rewrite length_insert|].
    split; [by apply sorted_table_head|]. split; [|done].
    eapply Forall_impl; [exact Hpr|]. intros e He Hp. rewrite Eright, fmap_cons.
    right. by apply He. }
  destruct (find_mate_cases (bucket (v_ids_left v) h) k)
    as [Enone|(e & He & Hid & Epos)].
  - (* no entry for this id, or so the position says *)
    rewrite Enone, record_at_negative by lia.
    destruct Hcase as [Hinv|(e & He & Hid)].
    + destruct Hinv as (I1 & I2 & I3 & I4 & I5 & I6 & I7 & I8 & I9 & I10 & I11).
      simpl in *. unfold counted_invariant. simpl. rewrite length_app. simpl.
      repeat (split; [done|]). lia.
    + (* an entry with this id has a position that is not [-1] *)
      exfalso. rewrite find_mate_last in Enone.
      destruct (last (filter (λ e, id e = k) (bucket (v_ids_left v) h))) as [e'|] eqn:El.
      * apply last_Some_elem_of, list_elem_of_filter in El as [_ He'].
        simpl in Enone. unfold points_into in Hpts. rewrite Forall_forall in Hpts.
        destruct (Hpts e' (elem_of_bucket _ _ _ He')) as [l Hrec].
        rewrite Enone, record_at_negative in Hrec by lia. done.
      * apply last_None in El.
        assert (e ∈ filter (λ e, id e = k) (bucket (v_ids_left v) h)) as Hf
          by (by apply list_elem_of_filter).
        rewrite El in Hf. by apply elem_of_nil in Hf.
  - (* a mate *)
    rewrite Epos. unfold points_into in Hpts.
    pose proof (proj1 (Forall_forall _ _) Hpts e (elem_of_bucket _ _ _ He)) as [l Hrec].
    rewrite Hrec. unfold counted_invariant. simpl. rewrite length_app. simpl.
    split; [by unfold ids'; rewrite length_insert|].
    split; [by apply sorted_table_marked|].
    rewrite Emark, fmap_id_mark, length_fmap.
    split; [done|]. split; [by apply points_into_marked; [rewrite Hl|]|].
    split; [done|]. split; [by unfold idr'; rewrite length_insert|].
    split; [by apply sorted_table_head|]. split.
    { apply Forall_fmap, Forall_forall. intros e0 He0. simpl. intros Hp.
      rewrite Eright, fmap_cons, id_mark. simpl.
      destruct (decide (id e0 = k)) as [->|Hne]; [by left|]. right.
      rewrite (mark_other _ _ Hne) in Hp.
      rewrite Forall_forall in Hpr. by apply Hpr. }
    split.
    { rewrite (count_printed_mark k _ e); try done.
      - by rewrite Hcnt.
      - by eapply elem_of_bucket.
      - apply Hunp; [by eapply elem_of_bucket|done]. }
    split; lia.
Qed.

Lemma foldl_right_step_counted ls rs :
  deduplicate opt = true → tablesize opt ≠ 0 →
  counted_invariant opt ls
    (length (mjoin (index_records opt 0 ls (replicate (tablesize opt) [], 0)).1))
    rs (foldl (right_step opt ls) (initial_view opt ls) rs).
Proof.
  intros Hdd Hts. induction rs as [|r rs IH] using rev_ind.
  - destruct (index_records_invariant ls Hts ls [] (eq_sym (app_nil_r ls)))
      as (Hl & Hs & Hf & Hd & Hn).
    destruct (Hn Hdd) as [Hnd _].
    unfold counted_invariant, initial_view. simpl. rewrite Hdd.
    assert (mjoin (replicate (tablesize opt) ([] : list idloc)) = []) as E.
    { apply join_nil_2, Forall_replicate. done. }
    split; [done|]. split; [done|]. split; [done|]. split.
    { eapply Forall_impl; [exact Hf|]. intros e [_ (l & Hrec & _)]. by exists l. }
    split; [done|]. split; [by rewrite length_replicate|].
    split; [apply sorted_table_empty|]. split.
    { eapply Forall_impl; [exact Hf|]. intros e [Hp _]. congruence. }
    split; [|done]. rewrite filter_none; [done|].
    intros e He. rewrite Forall_forall in Hf. destruct (Hf e He) as [Hp _]. congruence.
  - rewrite foldl_snoc. by apply right_step_counted.
Qed.

(** X20.  With duplicate tracking, on two streams of well-formed records
    the run from tables that hold [NULL] in every slot completes and every
    record is under exactly one counter of its side. *)
Theorem every_record_counted mem ls rs :
  zero_tables opt mem →
  deduplicate opt = true →
  Forall (λ l, well_formed opt l = true) ls →
  Forall (λ r, well_formed opt r = true) rs →
  tablesize opt ≠ 0 →
  ∃ rep,
    pair_files opt mem (render ls) (render rs) = Ok rep
    ∧ left_paired_counter rep + left_single_counter rep
      + left_duplicates_counter rep = length ls
    ∧ right_paired_counter rep + right_single_counter rep
      + right_duplicates_counter rep = length rs.
Proof.
  intros Hmem Hdd Hwl Hwr Hts.
  pose proof (pair_files_records mem ls rs Hmem Hwl Hwr Hts) as Hrun. simpl in Hrun.
  destruct (foldl_right_step_counted ls rs Hdd Hts)
    as (_ & _ & _ & _ & Htot & _ & _ & _ & Hcnt & Heq & Hsum).
  destruct (index_records_invariant ls Hts ls [] (eq_sym (app_nil_r ls)))
    as (_ & _ & _ & _ & Hn).
  destruct (Hn Hdd) as [_ Hlen].
  eexists. split; [exact Hrun|]. simpl.
  set (v := foldl (right_step opt ls) (initial_view opt ls) rs) in *.
  pose proof (length_filter_printed (mjoin (v_ids_left v))) as Hsplit.
  split; lia.
Qed.

End Facts.

(** * Further properties *)

(** ** Output names *)

Lemma ends_with_suffix (str suffix : list ascii) :
  (length suffix <=? length str)
  && strcmp0 (drop (length str - length suffix) str) suffix = true
  ↔ suffix `suffix_of` str.
Proof.
  rewrite andb_true_iff, Nat.leb_le, strcmp0_true. split.
  - intros [Hl Hd]. exists (take (length str - length suffix) str).
    rewrite <- Hd at 2. by rewrite take_drop.
  - intros [k ->]. rewrite length_app. split; [lia|].
    by rewrite drop_app_length' by lia.
Qed.

Lemma removeSuffix_loop_match str suffix rest :
  suffix `suffix_of` str →
  removeSuffix_loop str (suffix :: rest) = take (length str - length suffix) str.
Proof. intros H%ends_with_suffix. simpl. by rewrite H. Qed.

Lemma removeSuffix_loop_skip str suffix rest :
  ¬ suffix `suffix_of` str →
  removeSuffix_loop str (suffix :: rest) = removeSuffix_loop str rest.
Proof.
  intros H. simpl.
  destruct (_ && _) eqn:E; [|done]. by apply ends_with_suffix in E.
Qed.

Lemma removeSuffix_loop_strips str sufs :
  ∃ suffix, str = removeSuffix_loop str sufs ++ suffix
            ∧ (suffix = [] ∨ suffix ∈ sufs)
            ∧ ((∀ s, s ∈ sufs → ¬ s `suffix_of` str) → suffix = []).
Proof.
  induction sufs as [|s sufs IH].
  - exists []. simpl. rewrite app_nil_r. auto.
  - destruct (decide (s `suffix_of` str)) as [Hs|Hs].
    + rewrite removeSuffix_loop_match by done. exists s.
      destruct Hs as [k ->]. rewrite length_app.
      rewrite take_app_length' by lia. split; [done|]. split.
      * right. by left.
      * intros Hno. destruct (Hno s); [by left|]. by exists k.
    + rewrite removeSuffix_loop_skip by done.
      destruct IH as (suffix & E & Hin & Hno). exists suffix.
      split; [done|]. split.
      * destruct Hin; [by left|]. right. by right.
      * intros H0. apply Hno. intros s' Hs'. apply H0. by right.
Qed.

Lemma removeSuffix_loop_first str pre suffix post :
  (∀ s, s ∈ pre → ¬ s `suffix_of` str) →
  suffix `suffix_of` str →
  str = removeSuffix_loop str (pre ++ suffix :: post) ++ suffix.
Proof.
  intros Hpre Hs. induction pre as [|s pre IH].
  - rewrite app_nil_l, removeSuffix_loop_match by done. destruct Hs as [k ->].
    rewrite length_app. by rewrite take_app_length' by lia.
  - rewrite <- app_comm_cons.
    rewrite removeSuffix_loop_skip by (apply Hpre; by left).
    apply IH. intros s' Hs'. apply Hpre. by right.
Qed.

Lemma removeSuffix_loop_none str sufs :
  (∀ s, s ∈ sufs → ¬ s `suffix_of` str) → removeSuffix_loop str sufs = str.
Proof.
  intros Hno. induction sufs as [|s sufs IH]; [done|].
  rewrite removeSuffix_loop_skip by (apply Hno; by left).
  apply IH. intros s' Hs'. apply Hno. by right.
Qed.

(** X1.  [removeSuffix] takes off the first suffix of its list that ends
    the string, and returns the whole string when none of them ends it. *)
Theorem removeSuffix_strips str :
  (∀ pre suffix post,
     suffixes = pre ++ suffix :: post →
     (∀ s, s ∈ pre → ¬ s `suffix_of` str) →
     suffix `suffix_of` str →
     str = removeSuffix str ++ suffix ∧ suffix ≠ [])
  ∧ ((∀ s, s ∈ suffixes → ¬ s `suffix_of` str) → removeSuffix str = str).
Proof.
  split.
  - intros pre suffix post E Hpre Hs. unfold removeSuffix. rewrite E. split.
    + by apply removeSuffix_loop_first.
    + intros ->.
      assert ([] ∈ suffixes) as Hin by (rewrite E, elem_of_app; right; by left).
      unfold suffixes in Hin.
      repeat (apply elem_of_cons in Hin as [Hin|Hin]; [discriminate|]).
      by apply elem_of_nil in Hin.
  - apply removeSuffix_loop_none.
Qed.

(** The last bytes of a string that has a given suffix. *)
Lemma suffix_last_bytes (stem ending suffix : list ascii) :
  suffix `suffix_of` stem ++ ending →
  drop (length ending - length suffix) ending
  = drop (length suffix - length ending) suffix.
Proof.
  intros [k E]. pose proof (f_equal length E) as Hlen.
  rewrite !length_app in Hlen.
  destruct (decide (length suffix ≤ length ending)) as [Hle|Hgt].
  - replace (length suffix - length ending) with 0 by lia. simpl.
    rewrite <- (drop_app_add stem ending), E.
    by rewrite drop_app_length' by lia.
  - replace (length ending - length suffix) with 0 by lia. simpl.
    rewrite <- (drop_app_add k suffix), <- E.
    by rewrite drop_app_length' by lia.
Qed.

(** X2.  A stem followed by [.fastq], [.fastq.gz] or [.fq] gives the
    stem back; followed by [.fq.gz] it keeps its dot, the fourth suffix of the list
    being [fq.gz]. *)
Theorem removeSuffix_stems stem :
  removeSuffix (stem ++ bytes ".fastq") = stem
  ∧ removeSuffix (stem ++ bytes ".fastq.gz") = stem
  ∧ removeSuffix (stem ++ bytes ".fq") = stem
  ∧ removeSuffix (stem ++ bytes ".fq.gz") = stem ++ bytes ".".
Proof.
  unfold removeSuffix, suffixes. repeat split.
  - rewrite removeSuffix_loop_match by (by exists stem).
    rewrite length_app. by rewrite take_app_length' by lia.
  - rewrite removeSuffix_loop_skip by (intros H%suffix_last_bytes; discriminate).
    rewrite removeSuffix_loop_match by (by exists stem).
    rewrite length_app. by rewrite take_app_length' by lia.
  - rewrite removeSuffix_loop_skip by (intros H%suffix_last_bytes; discriminate).
    rewrite removeSuffix_loop_skip by (intros H%suffix_last_bytes; discriminate).
    rewrite removeSuffix_loop_match by (by exists stem).
    rewrite length_app. by rewrite take_app_length' by lia.
  - rewrite removeSuffix_loop_skip by (intros H%suffix_last_bytes; discriminate).
    rewrite removeSuffix_loop_skip by (intros H%suffix_last_bytes; discriminate).
    rewrite removeSuffix_loop_skip by (intros H%suffix_last_bytes; discriminate).
    rewrite removeSuffix_loop_match by (exists (stem ++ bytes "."); by rewrite <- app_assoc).
    rewrite length_app.
    change (bytes ".fq.gz") with (bytes "." ++ bytes "fq.gz").
    rewrite app_assoc. rewrite take_app_length' by (rewrite !length_app; simpl; lia).
    done.
Qed.

Lemma removeSuffix_length str : length str ≤ length (removeSuffix str) + 9.
Proof.
  destruct (removeSuffix_loop_strips str suffixes) as (suffix & E & Hin & _).
  fold (removeSuffix str) in E. rewrite E at 1. rewrite length_app.
  destruct Hin as [->|Hin]; [simpl; lia|].
  unfold suffixes in Hin.
  repeat (apply elem_of_cons in Hin as [->|Hin]; [simpl; lia|]).
  by apply elem_of_nil in Hin.
Qed.

(** X3.  No output name is the name of the input it is derived from: the
    name is longer than the input name. *)
Theorem output_names_not_input is_gzip_left is_gzip_right left_fn right_fn :
  let names := output_file_names is_gzip_left is_gzip_right left_fn right_fn in
  length left_fn < length (lpfn names) ∧ length left_fn < length (lsfn names)
  ∧ length right_fn < length (rpfn names) ∧ length right_fn < length (rsfn names)
  ∧ lpfn names ≠ left_fn ∧ lsfn names ≠ left_fn
  ∧ rpfn names ≠ right_fn ∧ rsfn names ≠ right_fn.
Proof.
  pose proof (removeSuffix_length left_fn). pose proof (removeSuffix_length right_fn).
  assert (∀ a b : list ascii, length a < length b → b ≠ a) as Hne
    by (intros a b Hl ->; lia).
  unfold output_file_names, catstr.
  destruct (is_gzip_left || is_gzip_right); simpl; rewrite !length_app; simpl;
    repeat split; try lia; apply Hne; rewrite length_app; simpl; lia.
Qed.

(** X4.  A paired output never has the name of a single output, and the two
    paired outputs (and the two single outputs) have the same name exactly
    when [removeSuffix] gives the same result on the two input names. *)
Theorem output_names_apart is_gzip_left is_gzip_right left_fn right_fn :
  let names := output_file_names is_gzip_left is_gzip_right left_fn right_fn in
  lpfn names ≠ lsfn names ∧ lpfn names ≠ rsfn names
  ∧ rpfn names ≠ lsfn names ∧ rpfn names ≠ rsfn names
  ∧ (lpfn names = rpfn names ↔ removeSuffix left_fn = removeSuffix right_fn)
  ∧ (lsfn names = rsfn names ↔ removeSuffix left_fn = removeSuffix right_fn).
Proof.
  assert (∀ (a b x y : list ascii), length x = length y → x ≠ y → a ++ x ≠ b ++ y)
    as Hne.
  { intros a b x y Hl Hxy E. by apply app_inj_2 in E as [_ ?]. }
  unfold output_file_names, catstr.
  destruct (is_gzip_left || is_gzip_right); simpl;
    (split; [by apply Hne|]); (split; [by apply Hne|]);
    (split; [by apply Hne|]); (split; [by apply Hne|]);
    split; (split; [by intros ?%app_inv_tail|by intros ->]).
Qed.

(** ** The bucket of a key *)

Lemma hash_loop_range char_signed s : ∀ h,
  (0 ≤ h < UINT_MOD)%Z → (0 ≤ hash_loop char_signed h s < UINT_MOD)%Z.
Proof.
  induction s as [|c s IH]; intros h Hh; simpl; [done|].
  apply IH. apply Z.mod_pos_bound. done.
Qed.

Lemma char_value_cases c :
  char_value true c = char_value false c
  ∨ char_value true c = (char_value false c - 256)%Z.
Proof.
  unfold char_value. cbn [andb].
  destruct (128 <=? Z.of_nat (nat_of_ascii c))%Z; auto.
Qed.

Lemma hash_loop_mod_256 s : ∀ h1 h2,
  (h1 mod 256 = h2 mod 256)%Z →
  (hash_loop true h1 s mod 256 = hash_loop false h2 s mod 256)%Z.
Proof.
  induction s as [|c s IH]; intros h1 h2 Hh; simpl; [done|].
  apply IH. change UINT_MOD with 4294967296%Z.
  destruct (char_value_cases c) as [->| ->]; Z.div_mod_to_equations; lia.
Qed.

Lemma hash_loop_seven_bits s : ∀ h,
  Forall (λ c, nat_of_ascii c < 128) s →
  hash_loop true h s = hash_loop false h s.
Proof.
  induction s as [|c s IH]; intros h Hs; simpl; [done|].
  apply Forall_cons in Hs as [Hc Hs]. rewrite (IH _ Hs). do 3 f_equal.
  unfold char_value. cbn [andb].
  destruct (Z.leb_spec 128 (Z.of_nat (nat_of_ascii c))); [lia|done].
Qed.

(** X16.  Where a plain [char] is signed and where it is not, [hash] gives
    values that agree modulo 256, and the same value on a key whose bytes
    are all below 128. *)
Theorem hash_char_signedness s :
  (hash true s mod 256 = hash false s mod 256)%Z
  ∧ (Forall (λ c, nat_of_ascii c < 128) s → hash true s = hash false s).
Proof.
  split; [by apply hash_loop_mod_256|]. apply hash_loop_seven_bits.
Qed.

Section Buckets.

Context {platform : Platform}.
Variable opt : options.

(** X5.  The hash fits an [unsigned]; the bucket of a key lies inside the table,
    and computing it is undefined exactly when the table has no bucket. *)
Theorem hashval_in_table k :
  (0 ≤ hash char_signed k < 2 ^ 32)%Z
  ∧ (hashval_of opt k = Undefined ↔ tablesize opt = 0)
  ∧ (∀ h, hashval_of opt k = Ok h →
          h < tablesize opt
          ∧ Z.of_nat h = (hash char_signed k mod Z.of_nat (tablesize opt))%Z).
Proof.
  split; [by apply hash_loop_range|].
  unfold hashval_of. destruct (Nat.eqb_spec (tablesize opt) 0) as [E|E].
  - split; [done|]. intros h [=].
  - split; [split; [done|by intros ?]|]. intros h [= <-].
    pose proof (Z.mod_pos_bound (hash char_signed k) (Z.of_nat (tablesize opt))).
    lia.
Qed.

End Buckets.

(** ** What the loops keep *)

Lemma entry_kept_refl e : entry_kept e e.
Proof. by split. Qed.

Lemma entry_kept_trans e1 e2 e3 :
  entry_kept e1 e2 → entry_kept e2 e3 → entry_kept e1 e3.
Proof.
  intros (I1 & P1 & M1) (I2 & P2 & M2). split; [congruence|].
  split; [congruence|auto].
Qed.

Lemma entry_kept_mark k e : entry_kept e (mark k e).
Proof.
  unfold entry_kept. rewrite id_mark, pos_mark. split; [done|]. split; [done|].
  unfold mark. by destruct (strcmp0 _ _).
Qed.

Lemma table_kept_marked (ids : list (list idloc)) h k :
  Forall2 (Forall2 entry_kept) ids (<[h := mark k <$> bucket ids h]> ids).
Proof.
  apply Forall2_same_length_lookup_2; [by rewrite length_insert|].
  intros i c c' Hc Hc'. apply list_lookup_insert_Some in Hc' as [(-> & <- & _)|[_ Hc']].
  - unfold bucket. rewrite Hc. simpl. apply Forall2_fmap_r.
    apply Forall_Forall2_diag, Forall_forall. intros e _. apply entry_kept_mark.
  - assert (c' = c) as -> by congruence.
    apply Forall_Forall2_diag, Forall_forall. intros e _. apply entry_kept_refl.
Qed.

Lemma table_kept_trans (t1 t2 t3 : list (list idloc)) :
  Forall2 (Forall2 entry_kept) t1 t2 → Forall2 (Forall2 entry_kept) t2 t3 →
  Forall2 (Forall2 entry_kept) t1 t3.
Proof.
  apply Forall2_trans. intros c1 c2 c3. apply Forall2_trans.
  apply entry_kept_trans.
Qed.

Section Kept.

Context {platform : Platform}.
Variable opt : options.

Lemma right_body_table_kept st st' :
  right_body opt st = Ok (Some st') →
  Forall2 (Forall2 entry_kept) (r_ids_left st) (r_ids_left st').
Proof.
  assert (Forall2 (Forall2 entry_kept) (r_ids_left st) (r_ids_left st)) as Hrefl.
  { apply Forall_Forall2_diag, Forall_forall. intros c _.
    apply Forall_Forall2_diag, Forall_forall. intros e _. apply entry_kept_refl. }
  unfold right_body.
  destruct (readFromFile _ _ _) as [[[] rfp] line]; cbn [negb]; [|done].
  destruct (normalize _ _) as [line'| |]; cbn [mbind result_bind]; [|done..].
  destruct (hashval_of _ _) as [h| |]; cbn [mbind result_bind]; [|done..].
  destruct (deduplicate opt && seen_before _ _).
  - destruct (skip_lines _ _ _) as [? ?]. intros [= <-]. done.
  - pose proof (find_mate_marks (bucket (r_ids_left st) h) (cstring line') (-1)) as Hm.
    destruct (find_mate _ _ _) as [posn chain]. simpl in Hm. subst chain.
    destruct (negb (posn =? -1)%Z).
    + destruct (copy_record _ _ _ _ _) as [[? ?] ?].
      destruct (copy_lines _ _ _ _) as [[? ?] ?]. intros [= <-]. simpl.
      apply table_kept_marked.
    + destruct (copy_lines _ _ _ _) as [[? ?] ?]. intros [= <-]. simpl.
      apply table_kept_marked.
Qed.

(** X6.  While the second loop runs, on any input, the table of the left
    stream keeps its buckets and its entries: every entry keeps its id and
    its position, and an entry that is marked stays marked. *)
Theorem index_entries_kept st st' :
  rtc (λ s s', right_body opt s = Ok (Some s')) st st' →
  length (r_ids_left st') = length (r_ids_left st)
  ∧ Forall2 (Forall2 entry_kept) (r_ids_left st) (r_ids_left st').
Proof.
  intros Hsteps.
  assert (Forall2 (Forall2 entry_kept) (r_ids_left st) (r_ids_left st')) as H.
  { induction Hsteps as [s|s1 s2 s3 Hstep _ IH].
    - apply Forall_Forall2_diag, Forall_forall. intros c _.
      apply Forall_Forall2_diag, Forall_forall. intros e _. apply entry_kept_refl.
    - eapply table_kept_trans; [|exact IH]. by apply right_body_table_kept. }
  split; [|done]. symmetry. by eapply Forall2_length.
Qed.

Lemma bucket_insert_head_suffix ids h line nextposition h' :
  bucket ids h' `suffix_of` bucket (insert_head ids h line nextposition) h'.
Proof.
  unfold insert_head. destruct (decide (h = h')) as [<-|Hne].
  - destruct (decide (h < length ids)).
    + rewrite bucket_insert_eq by done. by apply suffix_cons_r.
    + by rewrite list_insert_ge by lia.
  - by rewrite bucket_insert_ne.
Qed.

Lemma left_body_grows st st' :
  left_body opt st = Ok (Some st') →
  length (l_ids_left st') = length (l_ids_left st)
  ∧ (∀ h, bucket (l_ids_left st) h `suffix_of` bucket (l_ids_left st') h)
  ∧ l_left_duplicates st ≤ l_left_duplicates st'
  ∧ (deduplicate opt = false → l_left_duplicates st' = l_left_duplicates st).
Proof.
  unfold left_body.
  destruct (readFromFile _ _ _) as [[[] lfp] line]; cbn [negb]; [|done].
  destruct (normalize _ _) as [line'| |]; cbn [mbind result_bind]; [|done..].
  destruct (hashval_of _ _) as [h| |]; cbn [mbind result_bind]; [|done..].
  destruct (skip_lines _ _ _) as [lfp' line''].
  destruct (deduplicate opt) eqn:Ed; cbn [andb].
  - destruct (seen_before _ _); intros [= <-]; simpl.
    + split; [done|]. split; [done|]. split; [lia|done].
    + split; [by unfold insert_head; rewrite length_insert|].
      split; [intros h'; apply bucket_insert_head_suffix|]. split; [lia|done].
  - intros [= <-]. simpl.
    split; [by unfold insert_head; rewrite length_insert|].
    split; [intros h'; apply bucket_insert_head_suffix|]. split; [lia|done].
Qed.

(** X7.  The first loop, on any input, only adds entries at the head of chains:
    when it ends every chain still ends with the chain it started from,
    and the count of left duplicates has not gone down. *)
Theorem left_loop_grows fuel : ∀ st st',
  left_loop opt fuel st = Ok st' →
  length (l_ids_left st') = length (l_ids_left st)
  ∧ (∀ h, bucket (l_ids_left st) h `suffix_of` bucket (l_ids_left st') h)
  ∧ l_left_duplicates st ≤ l_left_duplicates st'
  ∧ (deduplicate opt = false → l_left_duplicates st' = l_left_duplicates st).
Proof.
  induction fuel as [|fuel IH]; intros st st'; simpl; [done|].
  destruct (left_body opt st) as [[st1|]| |] eqn:E; cbn [mbind result_bind]; try done.
  - intros H. apply left_body_grows in E as (L1 & S1 & D1 & N1).
    apply IH in H as (L2 & S2 & D2 & N2).
    split; [congruence|].
    split; [intros h; by transitivity (bucket (l_ids_left st1) h)|]. split; [lia|].
    intros Hd. rewrite N2, N1; done.
  - intros [= ->]. split; [done|]. split; [done|]. split; [lia|done].
Qed.

Lemma right_loop_no_tracking fuel : ∀ st st',
  deduplicate opt = false →
  right_loop opt fuel st = Ok st' →
  r_right_duplicates st' = r_right_duplicates st
  ∧ r_ids_right st' = r_ids_right st.
Proof.
  induction fuel as [|fuel IH]; intros st st' Hd; simpl; [done|].
  destruct (right_body opt st) as [[st1|]| |] eqn:E; cbn [mbind result_bind]; try done.
  - intros H. apply (IH _ _ Hd) in H as [-> ->]. clear IH.
    unfold right_body in E. rewrite Hd in E. cbn [andb] in E.
    destruct (readFromFile _ _ _) as [[[] rfp] line]; cbn [negb] in E; [|done].
    destruct (normalize _ _) as [line'| |]; cbn [mbind result_bind] in E; [|done..].
    destruct (hashval_of _ _) as [h| |]; cbn [mbind result_bind] in E; [|done..].
    destruct (find_mate _ _ _) as [posn chain].
    destruct (negb (posn =? -1)%Z).
    + destruct (copy_record _ _ _ _ _) as [[? ?] ?].
      destruct (copy_lines _ _ _ _) as [[? ?] ?]. by injection E as <-.
    + destruct (copy_lines _ _ _ _) as [[? ?] ?]. by injection E as <-.
  - by intros [= ->].
Qed.

Lemma left_loop_no_tracking fuel : ∀ st st',
  deduplicate opt = false →
  left_loop opt fuel st = Ok st' →
  l_left_duplicates st' = l_left_duplicates st.
Proof.
  induction fuel as [|fuel IH]; intros st st' Hd; simpl; [done|].
  destruct (left_body opt st) as [[st1|]| |] eqn:E; cbn [mbind result_bind]; try done.
  - intros H. apply left_body_grows in E as (_ & _ & _ & N1).
    rewrite (IH _ _ Hd H). by apply N1.
  - by intros [= ->].
Qed.

(** X8.  Without duplicate tracking, on any input and from any allocation,
    a run that completes reports no duplicate on either side. *)
Theorem no_tracking_no_duplicates mem left_fn right_fn rep :
  deduplicate opt = false →
  pair_files opt mem left_fn right_fn = Ok rep →
  left_duplicates_counter rep = 0 ∧ right_duplicates_counter rep = 0.
Proof.
  intros Hd. unfold pair_files.
  destruct (left_loop _ _ _) as [ls| |] eqn:EL; cbn [mbind result_bind]; [|done..].
  destruct (right_loop _ _ _) as [rs| |] eqn:ER; cbn [mbind result_bind]; [|done..].
  intros [= <-]. simpl.
  apply (left_loop_no_tracking _ _ _ Hd) in EL.
  apply (right_loop_no_tracking _ _ _ Hd) in ER as [HR _].
  rewrite EL, HR. done.
Qed.

End Kept.

(** ** What a run writes *)

Section Run.

Context {platform : Platform}.
Variable opt : options.

Lemma kept_snoc done r :
  kept opt (done ++ [r])
  = if deduplicate opt && bool_decide (key opt r ∈ key opt <$> kept opt done)
    then kept opt done else kept opt done ++ [r].
Proof. unfold kept. by rewrite foldl_snoc. Qed.

Lemma kept_keys done k :
  k ∈ key opt <$> kept opt done ↔ k ∈ key opt <$> done.
Proof.
  induction done as [|r done IH] using rev_ind; [done|].
  rewrite kept_snoc, (fmap_app _ done), (elem_of_app (key opt <$> done)), <- IH.
  destruct (deduplicate opt); cbn [andb].
  - destruct (bool_decide_reflect (key opt r ∈ key opt <$> kept opt done)) as [Hin|Hin].
    + split; [auto|]. intros [?|E%list_elem_of_singleton]; [done|by subst].
    + by rewrite fmap_app, elem_of_app.
  - by rewrite fmap_app, elem_of_app.
Qed.

Lemma kept_no_tracking rs : deduplicate opt = false → kept opt rs = rs.
Proof.
  intros Hd. induction rs as [|r rs IH] using rev_ind; [done|].
  by rewrite kept_snoc, Hd, IH.
Qed.

Lemma first_at_ge rs k : ∀ off o, first_at opt off rs k = Some o → off ≤ o.
Proof.
  induction rs as [|r rs IH]; intros off o; simpl; [done|].
  destruct (bool_decide _); [intros [= <-]; lia|].
  intros H%IH. lia.
Qed.

Lemma first_at_snoc done r k : ∀ off,
  first_at opt off (done ++ [r]) k
  = match first_at opt off done k with
    | Some o => Some o
    | None =>
        if bool_decide (key opt r = k) then Some (off + length (render done))
        else None
    end.
Proof.
  induction done as [|d done IH]; intros off; simpl.
  - replace (off + 0) with off by lia. by destruct (bool_decide _).
  - destruct (bool_decide (key opt d = k)); [done|].
    rewrite IH, render_cons, length_app.
    destruct (first_at _ _ _ _); [done|].
    destruct (bool_decide _); [|done]. f_equal. lia.
Qed.

Lemma record_at_first_at rs k : ∀ off,
  record_at rs off (from_option Z.of_nat (-1)%Z (first_at opt off rs k))
  = mate opt rs k.
Proof.
  unfold mate. induction rs as [|r rs IH]; intros off; simpl; [done|].
  destruct (bool_decide_reflect (key opt r = k)) as [E|E].
  - simpl. rewrite Z.eqb_refl. by rewrite filter_cons_True.
  - rewrite filter_cons_False by done. rewrite <- (IH (off + length (render_record r))).
    pose proof (render_record_length r).
    destruct (first_at opt (off + length (render_record r)) rs k) as [o|] eqn:F; simpl.
    + apply first_at_ge in F.
      by destruct (Z.eqb_spec (Z.of_nat off) (Z.of_nat o)); [lia|].
    + by destruct (Z.eqb_spec (Z.of_nat off) (-1)); [lia|].
Qed.

Lemma first_at_None rs k : ∀ off,
  first_at opt off rs k = None ↔ k ∉ key opt <$> rs.
Proof.
  induction rs as [|r rs IH]; intros off; simpl.
  - split; [intros _ ?%elem_of_nil; done|done].
  - rewrite not_elem_of_cons.
    destruct (bool_decide_reflect (key opt r = k)) as [E|E].
    + split; [done|]. intros [? _]. congruence.
    + rewrite IH. split; [intros ?; split; [congruence|done]|by intros [_ ?]].
Qed.

Lemma find_mate_first ptr k :
  (find_mate ptr k (-1)).1
  = from_option (λ z, z) (-1)%Z (pos <$> last (filter (λ e, id e = k) ptr)).
Proof. rewrite find_mate_last. by destruct (last _). Qed.

Lemma ids_of_entries ls (es : list idloc) (rs : list fastq) :
  entry_record ls <$> es ≡ₚ keyed opt <$> rs →
  id <$> es ≡ₚ key opt <$> rs.
Proof.
  intros H. apply (fmap_Permutation fst) in H.
  rewrite <- !list_fmap_compose in H. exact H.
Qed.

Lemma index_records_lookup ls :
  tablesize opt ≠ 0 →
  ∀ done rest, ls = done ++ rest →
    lookup_invariant opt ls done
      (index_records opt 0 done (replicate (tablesize opt) [], 0)).
Proof.
  intros Hts done. induction done as [|r done IH] using rev_ind; intros rest Hls.
  - unfold lookup_invariant. simpl.
    assert (mjoin (replicate (tablesize opt) ([] : list idloc)) = []) as E.
    { apply join_nil_2, Forall_replicate. done. }
    rewrite E. split; [|done]. intros k. unfold bucket.
    destruct (replicate _ _ !! _) as [c|] eqn:Ec; [|done].
    by apply lookup_replicate in Ec as [-> _].
  - destruct (IH (r :: rest)) as (Hlook & Hperm & Hcount);
      [by rewrite Hls, <- app_assoc|].
    destruct (index_records_invariant opt ls Hts done (r :: rest))
      as (Hl & Hs & _); [by rewrite Hls, <- app_assoc|].
    rewrite index_records_snoc.
    change (0 + length (render done)) with (length (render done)).
    set (v := index_records opt 0 done (replicate (tablesize opt) [], 0)) in *.
    set (kr := key opt r). set (p := length (render done)).
    assert (seen_before (bucket v.1 (hashval opt kr)) kr = true
            ↔ kr ∈ key opt <$> kept opt done) as Hseen.
    { rewrite (seen_before_sorted opt _ _ Hs).
      by rewrite (ids_of_entries _ _ _ Hperm). }
    assert (record_at ls 0 (Z.of_nat p) = Some r) as Hrec.
    { rewrite Hls, <- app_assoc. simpl. apply (record_at_app done r rest 0). }
    unfold lookup_invariant. rewrite kept_snoc. fold kr.
    destruct (index_step_cases opt v kr (Z.of_nat p) Hl Hts)
      as [(E & Ed & Es)|(E2 & E1 & Ep & Es)].
    + rewrite E, Ed. cbn [andb fst snd].
      rewrite (bool_decide_eq_true_2 _ (proj1 Hseen Es)).
      split; [|split; [done|rewrite !length_app; simpl; lia]].
      intros k. rewrite Hlook, first_at_snoc.
      destruct (first_at opt 0 done k) as [o|] eqn:F; [done|].
      destruct (bool_decide_reflect (key opt r = k)) as [Ek|Ek]; [|done].
      exfalso. fold kr in Ek. subst k. specialize (Hlook kr). rewrite F in Hlook.
      apply seen_before_true in Es as (e & He & Hid).
      assert (e ∈ filter (λ e, id e = kr) (bucket v.1 (hashval opt kr))) as Hf
        by (by apply list_elem_of_filter).
      destruct (last (filter _ _)) as [e'|] eqn:El; [done|].
      apply last_None in El. rewrite El in Hf. by apply elem_of_nil in Hf.
    + assert (deduplicate opt && bool_decide (kr ∈ key opt <$> kept opt done) = false)
        as ->.
      { destruct (deduplicate opt) eqn:Ed; [|done]. cbn [andb].
        apply bool_decide_eq_false_2. intros Hin%Hseen. rewrite (Es eq_refl) in Hin.
        done. }
      split; [|split].
      * intros k. rewrite E1, first_at_snoc. fold kr p.
        specialize (Hlook k).
        assert (hashval opt kr < length v.1) as Hh by (rewrite Hl; by apply hashval_lt).
        destruct (decide (hashval opt kr = hashval opt k)) as [Eh|Eh].
        -- rewrite <- Eh in Hlook |- *. rewrite bucket_insert_eq by done.
           destruct (bool_decide_reflect (kr = k)) as [Ek|Ek].
           ++ rewrite filter_cons_True by done. rewrite last_cons.
              destruct (last (filter _ _)), (first_at opt 0 done k);
                simpl in *; done.
           ++ rewrite filter_cons_False by done.
              by destruct (first_at opt 0 done k).
        -- rewrite bucket_insert_ne by done.
           destruct (bool_decide_reflect (kr = k)) as [Ek|Ek]; [congruence|].
           by destruct (first_at opt 0 done k).
      * rewrite Ep, fmap_cons, fmap_app. simpl.
        unfold entry_record at 1. simpl. rewrite Hrec. fold (keyed opt r).
        rewrite Hperm. by rewrite <- Permutation_cons_append.
      * rewrite E2, !length_app. simpl. lia.
Qed.

Lemma chains_length U : length (chains opt U) = tablesize opt.
Proof. unfold chains. by rewrite length_fmap, length_seq. Qed.

Lemma chains_lookup U h :
  h < tablesize opt →
  chains opt U !! h
  = Some (reverse (filter (λ l, hashval opt (key opt l) = h) U)).
Proof.
  intros Hh. unfold chains. rewrite list_lookup_fmap.
  by rewrite (lookup_seq_lt 0 (tablesize opt) h Hh).
Qed.

Lemma chains_snoc U x :
  tablesize opt ≠ 0 →
  chains opt (U ++ [x])
  = <[hashval opt (key opt x) :=
        x :: default [] (chains opt U !! hashval opt (key opt x))]> (chains opt U).
Proof.
  intros Hts. pose proof (hashval_lt opt (key opt x) Hts) as Hh.
  apply list_eq. intros i.
  destruct (decide (i < tablesize opt)) as [Hi|Hi].
  - rewrite (chains_lookup _ i Hi), filter_app.
    destruct (decide (hashval opt (key opt x) = i)) as [<-|Hne].
    + rewrite list_lookup_insert_eq by (by rewrite chains_length).
      rewrite (chains_lookup U _ Hh), filter_cons_True by done.
      by rewrite reverse_app.
    + rewrite list_lookup_insert_ne by done.
      rewrite (chains_lookup U i Hi), filter_cons_False by done.
      by rewrite app_nil_r.
  - rewrite !lookup_ge_None_2; [done|..].
    + rewrite length_insert, chains_length. lia.
    + rewrite chains_length. lia.
Qed.

Lemma join_insert_cons {A} (T : list (list A)) h x :
  h < length T →
  mjoin (<[h := x :: default [] (T !! h)]> T) ≡ₚ x :: mjoin T.
Proof.
  intros Hh. destruct (lookup_lt_is_Some_2 T h Hh) as [c Hc].
  rewrite insert_take_drop by done. rewrite Hc. simpl.
  rewrite <- (take_drop_middle T h c Hc) at 3.
  rewrite !join_app. simpl. by rewrite <- Permutation_middle.
Qed.

Lemma table_order_Permutation U : tablesize opt ≠ 0 → table_order opt U ≡ₚ U.
Proof.
  intros Hts. unfold table_order.
  induction U as [|x U IH] using rev_ind.
  - unfold chains. simpl. rewrite join_nil_2; [done|].
    apply Forall_fmap, Forall_forall. by intros h _.
  - rewrite chains_snoc by done.
    rewrite join_insert_cons by (rewrite chains_length; by apply hashval_lt).
    by rewrite IH, <- Permutation_cons_append.
Qed.

Lemma default_fmap_lookup {A B C} (f : A → C) (g : B → C)
    (T1 : list (list A)) (T2 : list (list B)) h :
  fmap (M := list) f <$> T1 = fmap (M := list) g <$> T2 →
  f <$> default [] (T1 !! h) = g <$> default [] (T2 !! h).
Proof.
  intros E. apply (f_equal (λ T, default [] (T !! h))) in E.
  rewrite !list_lookup_fmap in E. by destruct (T1 !! h), (T2 !! h).
Qed.

Lemma fmap_join_tables {A B C} (f : A → C) (g : B → C)
    (T1 : list (list A)) (T2 : list (list B)) :
  fmap (M := list) f <$> T1 = fmap (M := list) g <$> T2 → f <$> mjoin T1 = g <$> mjoin T2.
Proof.
  revert T2. induction T1 as [|c T1 IH]; intros [|c2 T2] E; try done.
  simpl in E. injection E as Ec ET. simpl. rewrite !fmap_app, Ec.
  f_equal. by apply IH.
Qed.

Lemma index_records_shape ls :
  tablesize opt ≠ 0 →
  ∀ done rest, ls = done ++ rest →
    table_shape opt ls (kept opt done)
      (index_records opt 0 done (replicate (tablesize opt) [], 0)).1.
Proof.
  intros Hts done. induction done as [|r done IH] using rev_ind; intros rest Hls.
  - unfold table_shape, chains. simpl. apply list_eq. intros i.
    rewrite !list_lookup_fmap.
    destruct (decide (i < tablesize opt)) as [Hi|Hi].
    + rewrite lookup_replicate_2 by done. by rewrite (lookup_seq_lt 0 _ i Hi).
    + rewrite !lookup_ge_None_2; [done|..].
      * rewrite length_seq. lia.
      * rewrite length_replicate. lia.
  - assert (ls = done ++ r :: rest) as Hls' by (by rewrite Hls, <- app_assoc).
    specialize (IH _ Hls').
    destruct (index_records_lookup ls Hts done (r :: rest) Hls') as (_ & Hperm & _).
    destruct (index_records_invariant opt ls Hts done (r :: rest) Hls')
      as (Hl & Hs & _).
    rewrite index_records_snoc.
    change (0 + length (render done)) with (length (render done)).
    set (v := index_records opt 0 done (replicate (tablesize opt) [], 0)) in *.
    set (kr := key opt r). set (p := length (render done)).
    assert (seen_before (bucket v.1 (hashval opt kr)) kr = true
            ↔ kr ∈ key opt <$> kept opt done) as Hseen.
    { rewrite (seen_before_sorted opt _ _ Hs).
      by rewrite (ids_of_entries _ _ _ Hperm). }
    assert (record_at ls 0 (Z.of_nat p) = Some r) as Hrec.
    { rewrite Hls, <- app_assoc. simpl. apply (record_at_app done r rest 0). }
    rewrite kept_snoc. fold kr.
    destruct (index_step_cases opt v kr (Z.of_nat p) Hl Hts)
      as [(E & Ed & Es)|(E2 & E1 & Ep & Es)].
    + rewrite E, Ed. cbn [andb fst].
      by rewrite (bool_decide_eq_true_2 _ (proj1 Hseen Es)).
    + assert (deduplicate opt && bool_decide (kr ∈ key opt <$> kept opt done) = false)
        as ->.
      { destruct (deduplicate opt) eqn:Ed; [|done]. cbn [andb].
        apply bool_decide_eq_false_2. intros Hin%Hseen. rewrite (Es eq_refl) in Hin.
        done. }
      unfold table_shape in *. rewrite E1, chains_snoc by done. fold kr.
      rewrite !list_fmap_insert, IH. f_equal. rewrite !fmap_cons. f_equal.
      * unfold entry_record, keyed. simpl. by rewrite Hrec.
      * apply (default_fmap_lookup _ _ _ _ _ IH).
Qed.

Lemma table_shape_marked ls U ids h k :
  table_shape opt ls U ids →
  table_shape opt ls U (<[h := mark k <$> bucket ids h]> ids).
Proof.
  unfold table_shape. intros <-. rewrite list_fmap_insert.
  destruct (decide (h < length ids)) as [Hh|Hh].
  - apply list_insert_id. rewrite list_lookup_fmap. unfold bucket.
    destruct (lookup_lt_is_Some_2 ids h Hh) as [c ->]. simpl. f_equal.
    rewrite <- list_fmap_compose. apply list_fmap_ext. intros i e _.
    unfold entry_record. simpl. by rewrite id_mark, pos_mark.
  - apply list_insert_ge. rewrite length_fmap. lia.
Qed.

Lemma foldl_right_step_shape ls U rs : ∀ v,
  table_shape opt ls U (v_ids_left v) →
  table_shape opt ls U (v_ids_left (foldl (right_step opt ls) v rs)).
Proof.
  induction rs as [|r rs IH]; intros v Hv; simpl; [done|].
  apply IH. destruct (right_step_ids_left opt ls v r) as [->| ->]; [done|].
  by apply table_shape_marked.
Qed.

Lemma find_mate_mark_first k0 c k : ∀ p,
  (find_mate (mark k0 <$> c) k p).1 = (find_mate c k p).1.
Proof.
  induction c as [|e next IH]; intros p; [done|].
  rewrite fmap_cons. cbn [find_mate]. rewrite id_mark, pos_mark.
  destruct (strcmp0 (id e) k).
  - specialize (IH (pos e)).
    destruct (find_mate (mark k0 <$> next) k (pos e)), (find_mate next k (pos e)).
    done.
  - specialize (IH p).
    destruct (find_mate (mark k0 <$> next) k p), (find_mate next k p). done.
Qed.

Lemma printed_mark k e :
  printed (mark k e) = true ↔ id e = k ∨ printed e = true.
Proof.
  unfold mark. destruct (strcmp0 (id e) k) eqn:E.
  - apply strcmp0_true in E. simpl. split; auto.
  - apply strcmp0_false in E. split; [auto|]. by intros [?|?].
Qed.

Lemma right_step_run ls done v r :
  tablesize opt ≠ 0 →
  run_invariant opt ls done v →
  run_invariant opt ls (done ++ [r]) (right_step opt ls v r).
Proof.
  intros Hts (Hs & Hlook & Hperm & Hpr & Hr & Hlp & Hrp & Hrs & Clp & Crp & Crs & Cd).
  set (k := key opt r). set (h := hashval opt k).
  assert (deduplicate opt && seen_before (bucket (v_ids_right v) h) k
          = deduplicate opt && bool_decide (k ∈ key opt <$> kept opt done)) as Etest.
  { destruct (deduplicate opt) eqn:Ed; [|done]. cbn [andb].
    destruct (Hr eq_refl) as (Hsr & Hkeys).
    pose proof (seen_before_sorted opt _ k Hsr) as Hseen. fold h in Hseen.
    destruct (seen_before _ _) eqn:E; symmetry.
    - apply bool_decide_eq_true_2, kept_keys, Hkeys, Hseen. done.
    - apply bool_decide_eq_false_2. intros Hin%kept_keys%Hkeys%Hseen. done. }
  unfold right_step. fold k h. rewrite Etest. unfold run_invariant.
  rewrite kept_snoc. fold k.
  destruct (deduplicate opt && bool_decide (k ∈ key opt <$> kept opt done)) eqn:Et.
  - apply andb_true_iff in Et as [Ed Hin]. apply bool_decide_eq_true_1 in Hin.
    apply (proj1 (kept_keys _ _)) in Hin. cbn.
    assert (∀ k', k' ∈ key opt <$> done ++ [r] ↔ k' ∈ key opt <$> done) as Hsame.
    { intros k'. rewrite fmap_app, elem_of_app. split; [|auto].
      intros [?|E%list_elem_of_singleton]; [done|]. by rewrite E. }
    split; [done|]. split; [done|]. split; [done|]. split.
    { eapply Forall_impl; [exact Hpr|]. intros e He. simpl. by rewrite Hsame. }
    split.
    { intros _. destruct (Hr Ed) as [? Hk]. split; [done|].
      intros k'. by rewrite Hsame. }
    do 6 (split; [done|]). rewrite length_app. simpl. lia.
  - rewrite find_mate_marks.
    set (ids' := <[h := mark k <$> bucket (v_ids_left v) h]> (v_ids_left v)).
    set (idr' := if deduplicate opt
                 then <[h := Idloc k 0 false :: bucket (v_ids_right v) h]> (v_ids_right v)
                 else v_ids_right v).
    assert (mjoin ids' = mark k <$> mjoin (v_ids_left v)) as Emark
      by (by apply marked_table).
    assert (sorted_table opt ids') as Hs' by (by apply sorted_table_marked).
    assert (h < length (v_ids_left v)) as Hh.
    { destruct Hs as [-> _]. by apply hashval_lt. }
    assert (∀ k', record_at ls 0 (find_mate (bucket ids' (hashval opt k')) k' (-1)).1
                  = mate opt ls k') as Hlook'.
    { intros k'. rewrite <- Hlook. f_equal. unfold ids'.
      destruct (decide (h = hashval opt k')) as [<-|Hne].
      - rewrite bucket_insert_eq by done. apply find_mate_mark_first.
      - by rewrite bucket_insert_ne. }
    assert (entry_record ls <$> mjoin ids' ≡ₚ keyed opt <$> kept opt ls) as Hperm'.
    { rewrite Emark, <- Hperm, <- list_fmap_compose.
      erewrite list_fmap_ext; [done|]. intros i e _. unfold entry_record. simpl.
      by rewrite id_mark, pos_mark. }
    assert (Forall (λ e, printed e = true ↔ id e ∈ (key opt <$> done) ++ [k])
              (mjoin ids')) as Hpr'.
    { rewrite Emark. apply Forall_fmap. eapply Forall_impl; [exact Hpr|].
      intros e He. simpl.
      rewrite printed_mark, id_mark, He, elem_of_app, list_elem_of_singleton.
      tauto. }
    assert (deduplicate opt = true →
            sorted_table opt idr'
            ∧ ∀ k', k' ∈ id <$> mjoin idr' ↔ k' ∈ (key opt <$> done) ++ [k]) as Hr'.
    { intros Ed. destruct (Hr Ed) as [Hsr Hk]. unfold idr'. rewrite Ed.
      split; [by apply sorted_table_head|]. intros k'.
      rewrite (inserted_table _ h _) by (destruct Hsr as [-> _]; by apply hashval_lt).
      rewrite fmap_cons, elem_of_cons, Hk, elem_of_app, list_elem_of_singleton.
      simpl. tauto. }
    pose proof (Hlook k) as Efound. fold h in Efound. rewrite Efound.
    rewrite omap_app, !filter_app, !fmap_app, !join_app, !length_app.
    destruct (mate opt ls k) as [l|] eqn:Em.
    + assert (filter (λ r, is_Some (mate opt ls (key opt r))) [r] = [r]) as ->.
      { rewrite filter_cons_True; [done|]. fold k. by rewrite Em. }
      assert (filter (λ r, ¬ is_Some (mate opt ls (key opt r))) [r] = []) as ->.
      { rewrite filter_cons_False; [done|]. fold k. rewrite Em. intros H. by apply H. }
      apply mate_Some in Em as Hl. destruct Hl as [_ Hk].
      simpl. fold k. rewrite Em. simpl. rewrite !app_nil_r. fold ids' idr'.
      unfold out_left, out_right. fold k. rewrite Hk, Hlp, Hrp.
      do 8 (split; [done|]). split; [lia|]. split; [lia|]. split; [lia|]. lia.
    + assert (filter (λ r, is_Some (mate opt ls (key opt r))) [r] = []) as ->.
      { rewrite filter_cons_False; [done|]. fold k. rewrite Em. by intros [? ?]. }
      assert (filter (λ r, ¬ is_Some (mate opt ls (key opt r))) [r] = [r]) as ->.
      { rewrite filter_cons_True; [done|]. fold k. rewrite Em. by intros [? ?]. }
      simpl. fold k. rewrite Em. simpl. rewrite !app_nil_r. fold ids' idr'.
      unfold out_right. fold k. rewrite Hrs.
      do 8 (split; [done|]). split; [lia|]. split; [lia|]. split; [lia|]. lia.
Qed.

Lemma foldl_right_step_run ls rs :
  tablesize opt ≠ 0 →
  run_invariant opt ls rs (foldl (right_step opt ls) (initial_view opt ls) rs).
Proof.
  intros Hts. induction rs as [|r rs IH] using rev_ind.
  - destruct (index_records_invariant opt ls Hts ls [] (eq_sym (app_nil_r ls)))
      as (Hl & Hs & Hf & _).
    destruct (index_records_lookup ls Hts ls [] (eq_sym (app_nil_r ls)))
      as (Hlook & Hperm & _).
    unfold run_invariant, initial_view. simpl.
    split; [done|]. split.
    { intros k. rewrite find_mate_first, Hlook, <- (record_at_first_at ls k 0).
      f_equal. by destruct (first_at opt 0 ls k). }
    split; [done|]. split.
    { eapply Forall_impl; [exact Hf|]. intros e [-> _].
      split; [done|]. by intros ?%elem_of_nil. }
    split; [|done].
    intros Ed. rewrite Ed. split; [apply sorted_table_empty|].
    intros k. by rewrite join_nil_2 by (by apply Forall_replicate).
  - rewrite foldl_snoc. by apply right_step_run.
Qed.

Lemma filter_ext_Forall {A} (P Q : A → Prop)
    `{∀ x, Decision (P x)} `{∀ x, Decision (Q x)} (l : list A) :
  Forall (λ x, P x ↔ Q x) l → filter P l = filter Q l.
Proof.
  induction 1 as [|x l Hx _ IH]; [done|].
  destruct (decide (P x)) as [HP|HP].
  - rewrite !filter_cons_True by tauto. by rewrite IH.
  - rewrite !filter_cons_False by tauto. done.
Qed.

Lemma filter_fmap_comm {A B} (f : A → B) (P : B → Prop)
    `{∀ y, Decision (P y)} (l : list A) :
  filter P (f <$> l) = f <$> filter (λ x, P (f x)) l.
Proof.
  induction l as [|x l IH]; [done|]. rewrite fmap_cons.
  destruct (decide (P (f x))) as [HP|HP].
  - rewrite !filter_cons_True by done. by rewrite fmap_cons, IH.
  - rewrite !filter_cons_False by done. done.
Qed.

Lemma fmap_Permutation_inv {A B} (f : A → B) (l : list B) (k : list A) :
  l ≡ₚ f <$> k → ∃ k', l = f <$> k' ∧ k ≡ₚ k'.
Proof. intros (k' & -> & Hk)%Permutation_map_inv. by exists k'. Qed.

Lemma orphans_run ls rs v :
  tablesize opt ≠ 0 →
  run_invariant opt ls rs v →
  table_shape opt ls (kept opt ls) (v_ids_left v) →
  let L := filter (λ l, key opt l ∉ key opt <$> rs)
             (table_order opt (kept opt ls)) in
  orphans opt ls (v_ids_left v) = mjoin (out_left opt <$> L)
  ∧ length (filter (λ e, printed e = false) (mjoin (v_ids_left v))) = length L
  ∧ L ≡ₚ filter (λ l, key opt l ∉ key opt <$> rs) (kept opt ls).
Proof.
  intros Hts (_ & _ & _ & Hpr & _) Hshape L.
  set (K := key opt <$> rs) in *.
  assert (filter (λ e, printed e = false) (mjoin (v_ids_left v))
          = filter (λ e, id e ∉ K) (mjoin (v_ids_left v))) as Efil.
  { apply filter_ext_Forall. eapply Forall_impl; [exact Hpr|].
    intros e He. simpl in *. rewrite <- He. by destruct (printed e). }
  set (E' := filter (λ e, id e ∉ K) (mjoin (v_ids_left v))) in *.
  assert (entry_record ls <$> E' = keyed opt <$> L) as EL.
  { assert (entry_record ls <$> E'
            = filter (λ x, x.1 ∉ K) (entry_record ls <$> mjoin (v_ids_left v)))
      as ->.
    { unfold E'. by rewrite filter_fmap_comm. }
    rewrite (fmap_join_tables _ _ _ _ Hshape).
    by rewrite (filter_fmap_comm (keyed opt) (λ x, x.1 ∉ K)). }
  split; [|split].
  - unfold orphans. rewrite Efil. fold E'.
    transitivity (mjoin ((λ x : list ascii * option fastq,
                            from_option (written opt "1" x.1) [] x.2)
                           <$> (entry_record ls <$> E'))).
    { by rewrite <- list_fmap_compose. }
    rewrite EL, <- list_fmap_compose. done.
  - rewrite Efil. fold E'.
    by rewrite <- (length_fmap (entry_record ls)), EL, length_fmap.
  - unfold L. by rewrite table_order_Permutation.
Qed.

Lemma run_report mem ls rs :
  zero_tables opt mem →
  Forall (λ l, well_formed opt l = true) ls →
  Forall (λ r, well_formed opt r = true) rs →
  tablesize opt ≠ 0 →
  ∃ rep L,
    pair_files opt mem (render ls) (render rs) = Ok rep
    ∧ (left_paired rep
       = mjoin (out_left opt
                  <$> omap (λ r, mate opt ls (key opt r)) (kept opt rs))
       ∧ right_paired rep
         = mjoin (out_right opt
                    <$> filter (λ r, is_Some (mate opt ls (key opt r)))
                          (kept opt rs))
       ∧ right_single rep
         = mjoin (out_right opt
                    <$> filter (λ r, ¬ is_Some (mate opt ls (key opt r)))
                          (kept opt rs)))
    ∧ (left_single rep = mjoin (out_left opt <$> L)
       ∧ L ≡ₚ filter (λ l, key opt l ∉ key opt <$> rs) (kept opt ls))
    ∧ (left_paired_counter rep
       = length (filter (λ r, is_Some (mate opt ls (key opt r))) (kept opt rs))
       ∧ right_paired_counter rep
         = length (filter (λ r, is_Some (mate opt ls (key opt r))) (kept opt rs))
       ∧ right_single_counter rep
         = length (filter (λ r, ¬ is_Some (mate opt ls (key opt r)))
                     (kept opt rs))
       ∧ left_single_counter rep
         = length (filter (λ l, key opt l ∉ key opt <$> rs) (kept opt ls))
       ∧ left_duplicates_counter rep + length (kept opt ls) = length ls
       ∧ right_duplicates_counter rep + length (kept opt rs) = length rs)
    ∧ L = filter (λ l, key opt l ∉ key opt <$> rs)
            (table_order opt (kept opt ls)).
Proof.
  intros Hmem Hls Hrs Hts.
  pose proof (foldl_right_step_run ls rs Hts) as Hrun.
  pose proof (foldl_right_step_shape ls (kept opt ls) rs (initial_view opt ls)
                (index_records_shape ls Hts ls [] (eq_sym (app_nil_r ls))))
    as Hshape.
  destruct (orphans_run ls rs _ Hts Hrun Hshape) as (EL & CL & HL).
  destruct Hrun
    as (_ & _ & _ & _ & _ & Hlp & Hrp & Hsi & Clp & Crp & Crs & Cd).
  destruct (index_records_lookup ls Hts ls [] (eq_sym (app_nil_r ls)))
    as (_ & _ & Cl).
  eexists. eexists. split; [by apply pair_files_records|].
  cbn [left_paired right_paired right_single left_single
       left_paired_counter right_paired_counter right_single_counter
       left_single_counter left_duplicates_counter right_duplicates_counter].
  split; [done|]. split; [done|]. split; [|done].
  do 3 (split; [done|]). split; [by rewrite CL, HL|]. done.
Qed.

(** X9.  A run from tables that hold [NULL] in every slot, on two streams
    of well-formed records, whatever ids repeat and whatever the line
    buffer holds: the right records that are not dropped as duplicates are
    written in their order, each to the paired output with the first left
    record of its canonical id written at the same place of the left
    paired output, or to the single output when the left stream has no
    such record. *)
Theorem run_outputs mem ls rs :
  zero_tables opt mem →
  Forall (λ l, well_formed opt l = true) ls →
  Forall (λ r, well_formed opt r = true) rs →
  tablesize opt ≠ 0 →
  ∃ rep,
    pair_files opt mem (render ls) (render rs) = Ok rep
    ∧ left_paired rep
      = mjoin (out_left opt
                 <$> omap (λ r, mate opt ls (key opt r)) (kept opt rs))
    ∧ right_paired rep
      = mjoin (out_right opt
                 <$> filter (λ r, is_Some (mate opt ls (key opt r))) (kept opt rs))
    ∧ right_single rep
      = mjoin (out_right opt
                 <$> filter (λ r, ¬ is_Some (mate opt ls (key opt r)))
                       (kept opt rs)).
Proof.
  intros Hmem Hls Hrs Hts.
  destruct (run_report mem ls rs Hmem Hls Hrs Hts) as (rep & L & E & H & _).
  by exists rep.
Qed.

(** X10.  In such a run the left single output holds the left records
    that are not dropped as duplicates and whose canonical id is the id of
    no right record, in the order of the table: bucket after bucket by
    index and, within a bucket, the record read last first.  This order
    holds each of the kept records once. *)
Theorem run_left_single mem ls rs :
  zero_tables opt mem →
  Forall (λ l, well_formed opt l = true) ls →
  Forall (λ r, well_formed opt r = true) rs →
  tablesize opt ≠ 0 →
  ∃ rep,
    pair_files opt mem (render ls) (render rs) = Ok rep
    ∧ left_single rep
      = mjoin (out_left opt
                 <$> filter (λ l, key opt l ∉ key opt <$> rs)
                       (table_order opt (kept opt ls)))
    ∧ table_order opt (kept opt ls)
      = mjoin ((λ h, reverse (filter (λ l, hashval opt (key opt l) = h)
                                (kept opt ls)))
                 <$> seq 0 (tablesize opt))
    ∧ table_order opt (kept opt ls) ≡ₚ kept opt ls.
Proof.
  intros Hmem Hls Hrs Hts.
  destruct (run_report mem ls rs Hmem Hls Hrs Hts)
    as (rep & L & E & _ & (H & _) & _ & ->).
  exists rep. split; [done|]. split; [done|]. split; [done|].
  by apply table_order_Permutation.
Qed.

(** X11.  In such a run the six counters count the records: the two
    paired counters the kept right records that have a mate, the right
    single counter the other kept right records, the left single counter
    the kept left records whose id no right record has, and each duplicate
    counter the records of its stream that are not kept. *)
Theorem run_counters mem ls rs :
  zero_tables opt mem →
  Forall (λ l, well_formed opt l = true) ls →
  Forall (λ r, well_formed opt r = true) rs →
  tablesize opt ≠ 0 →
  ∃ rep,
    pair_files opt mem (render ls) (render rs) = Ok rep
    ∧ left_paired_counter rep
      = length (filter (λ r, is_Some (mate opt ls (key opt r))) (kept opt rs))
    ∧ right_paired_counter rep
      = length (filter (λ r, is_Some (mate opt ls (key opt r))) (kept opt rs))
    ∧ right_single_counter rep
      = length (filter (λ r, ¬ is_Some (mate opt ls (key opt r))) (kept opt rs))
    ∧ left_single_counter rep
      = length (filter (λ l, key opt l ∉ key opt <$> rs) (kept opt ls))
    ∧ left_duplicates_counter rep + length (kept opt ls) = length ls
    ∧ right_duplicates_counter rep + length (kept opt rs) = length rs.
Proof.
  intros Hmem Hls Hrs Hts.
  destruct (run_report mem ls rs Hmem Hls Hrs Hts)
    as (rep & L & E & _ & _ & H & _).
  by exists rep.
Qed.

(** X21.  From tables that hold [NULL] in every slot and on streams of
    well-formed records, the report does not depend on what the
    allocation of the line buffer holds. *)
Theorem line_buffer_irrelevant mem mem' ls rs :
  zero_tables opt mem →
  zero_tables opt mem' →
  Forall (λ l, well_formed opt l = true) ls →
  Forall (λ r, well_formed opt r = true) rs →
  tablesize opt ≠ 0 →
  pair_files opt mem (render ls) (render rs)
  = pair_files opt mem' (render ls) (render rs)
  ∧ is_Ok (pair_files opt mem (render ls) (render rs)) = true.
Proof.
  intros Hmem Hmem' Hls Hrs Hts.
  pose proof (pair_files_records opt mem ls rs Hmem Hls Hrs Hts) as H.
  pose proof (pair_files_records opt mem' ls rs Hmem' Hls Hrs Hts) as H'.
  simpl in H, H'. by rewrite H, H'.
Qed.

(** X12.  After the first loop has read a stream of well-formed records,
    the walk for a canonical id along its bucket ends on the position of
    the first record of the stream with this id, whatever ids repeat and
    with or without duplicate tracking, and on -1 exactly when no record
    has this id. *)
Theorem index_lookup ls :
  Forall (λ l, well_formed opt l = true) ls →
  tablesize opt ≠ 0 →
  ∃ st,
    left_loop opt (S (length (render ls)))
      (LeftState (Stream (render ls) 0) (replicate (MAXLINELEN + 1) NUL) 0
         (replicate (tablesize opt) []) 0) = Ok st
    ∧ ∀ k,
        let posn := (find_mate (bucket (l_ids_left st) (hashval opt k)) k (-1)).1 in
        record_at ls 0 posn = mate opt ls k
        ∧ (posn = (-1)%Z ↔ k ∉ key opt <$> ls).
Proof.
  intros Hls Hts.
  set (st0 := LeftState _ _ _ _ _).
  destruct (left_loop_records opt ls (S (length (render ls))) st0 [])
    as (st1 & E1 & _ & _ & V1); try done.
  { unfold st0. simpl. rewrite length_replicate. lia. }
  { pose proof (length_le_render ls). lia. }
  exists st1. split; [done|]. intros k.
  pose proof (f_equal fst V1) as Vids. simpl in Vids.
  destruct (index_records_lookup ls Hts ls [] (eq_sym (app_nil_r ls)))
    as (Hlook & _).
  simpl. rewrite Vids, find_mate_first, Hlook.
  rewrite <- (record_at_first_at ls k 0), <- (first_at_None ls k 0).
  destruct (first_at opt 0 ls k) as [o|]; simpl; [|done].
  split; [done|]. split; [lia|done].
Qed.


Lemma chain_count_length ptr : ∀ counter,
  chain_count ptr counter = counter + length ptr.
Proof.
  induction ptr as [|e next IH]; intros counter; simpl; [lia|]. rewrite IH. lia.
Qed.

Lemma table_counts_sizes (ids : list (list idloc)) :
  (table_counts ids).*2 = length <$> ids.
Proof.
  unfold table_counts. apply list_eq. intros i.
  rewrite !list_lookup_fmap, list_lookup_imap.
  destruct (ids !! i); simpl; [|done]. by rewrite chain_count_length.
Qed.

(** X13.  The bucket sizes printed after the first loop: one line for each
    bucket in index order, with the length of its chain; the sizes and the
    left duplicate counter add up to the number of records read. *)
Theorem bucket_sizes ls :
  Forall (λ l, well_formed opt l = true) ls →
  tablesize opt ≠ 0 →
  ∃ st,
    left_loop opt (S (length (render ls)))
      (LeftState (Stream (render ls) 0) (replicate (MAXLINELEN + 1) NUL) 0
         (replicate (tablesize opt) []) 0) = Ok st
    ∧ length (table_counts (l_ids_left st)) = tablesize opt
    ∧ (∀ i, i < tablesize opt →
         table_counts (l_ids_left st) !! i
         = Some (i, length (bucket (l_ids_left st) i)))
    ∧ sum_list (table_counts (l_ids_left st)).*2 + l_left_duplicates st
      = length ls.
Proof.
  intros Hls Hts.
  set (st0 := LeftState _ _ _ _ _).
  destruct (left_loop_records opt ls (S (length (render ls))) st0 [])
    as (st1 & E1 & _ & _ & V1); try done.
  { unfold st0. simpl. rewrite length_replicate. lia. }
  { pose proof (length_le_render ls). lia. }
  exists st1. split; [done|].
  pose proof (f_equal fst V1) as Vids. pose proof (f_equal snd V1) as Vdups.
  simpl in Vids, Vdups.
  destruct (index_records_lookup ls Hts ls [] (eq_sym (app_nil_r ls)))
    as (_ & Hperm & Hcount).
  assert (length (l_ids_left st1) = tablesize opt) as Hlen.
  { rewrite Vids, index_records_length. simpl. by rewrite length_replicate. }
  split; [|split].
  - unfold table_counts. by rewrite length_imap.
  - intros i Hi. unfold table_counts, bucket. rewrite list_lookup_imap.
    destruct (lookup_lt_is_Some_2 (l_ids_left st1) i) as [c Hc]; [lia|].
    rewrite Hc. simpl. by rewrite chain_count_length.
  - rewrite table_counts_sizes, <- length_join, Vids, Vdups.
    rewrite <- (length_fmap (entry_record ls)), Hperm, length_fmap. lia.
Qed.

Lemma kept_elem_of rs x : x ∈ kept opt rs → x ∈ rs.
Proof.
  induction rs as [|r rs IH] using rev_ind; [done|].
  rewrite kept_snoc, elem_of_app.
  destruct (_ && _); [auto|]. rewrite elem_of_app. intros [?|?]; auto.
Qed.

Lemma kept_NoDup_keys rs :
  deduplicate opt = true → NoDup (key opt <$> kept opt rs).
Proof.
  intros Hd. induction rs as [|r rs IH] using rev_ind; [apply NoDup_nil_2|].
  rewrite kept_snoc, Hd. cbn [andb].
  destruct (bool_decide_reflect (key opt r ∈ key opt <$> kept opt rs)) as [Hin|Hin];
    [done|].
  rewrite fmap_app. apply NoDup_app. split; [done|]. split.
  - intros x Hx Hx'%list_elem_of_singleton. by subst.
  - apply NoDup_singleton.
Qed.

Lemma kept_fixed l :
  (deduplicate opt = true → NoDup (key opt <$> l)) → kept opt l = l.
Proof.
  destruct (deduplicate opt) eqn:Hd; [|intros _; by apply kept_no_tracking].
  intros Hnd. specialize (Hnd eq_refl).
  induction l as [|r l IH] using rev_ind; [done|].
  rewrite fmap_app in Hnd. apply NoDup_app in Hnd as (Hl & Hr & _).
  rewrite kept_snoc, Hd, (IH Hl). cbn [andb].
  rewrite bool_decide_eq_false_2; [done|].
  intros Hin. apply (Hr _ Hin). simpl. by left.
Qed.

Lemma outputs_verbatim (l : list fastq) :
  formatid opt = false →
  mjoin (out_left opt <$> l) = render l ∧ mjoin (out_right opt <$> l) = render l.
Proof.
  intros Hf. unfold render. split; f_equal; apply list_fmap_ext; intros i x _.
  - unfold out_left, written. by rewrite Hf.
  - unfold out_right, written. by rewrite Hf.
Qed.

Lemma omap_ext_Forall {A B} (f g : A → option B) (l : list A) :
  Forall (λ x, f x = g x) l → omap f l = omap g l.
Proof.
  induction 1 as [|x l Hx _ IH]; [done|]. simpl. rewrite Hx.
  destruct (g x); [f_equal|]; exact IH.
Qed.

Lemma omap_filter_is_Some {A B} (f : A → option B) (l : list A) :
  omap f (filter (λ x, is_Some (f x)) l) = omap f l.
Proof.
  induction l as [|x l IH]; [done|].
  destruct (f x) as [y|] eqn:E.
  - rewrite filter_cons_True by (by rewrite E). simpl. rewrite E.
    f_equal. exact IH.
  - rewrite filter_cons_False by (rewrite E; by intros [? ?]). simpl.
    rewrite E. exact IH.
Qed.

Lemma omap_nothing {A B} (l : list A) : omap (λ _, @None B) l = [].
Proof. induction l as [|x l IH]; [done|]. exact IH. Qed.

Lemma filter_all {A} (P : A → Prop) `{∀ x, Decision (P x)} (l : list A) :
  Forall P l → filter P l = l.
Proof.
  induction 1 as [|x l Hx _ IH]; [done|].
  rewrite filter_cons_True by done. by rewrite IH.
Qed.

(** X14.  Without id formatting, the two paired outputs of a run pair
    again with each other: a second run on them writes the same two paired
    outputs and leaves both single outputs empty, both runs starting from
    tables that hold [NULL] in every slot. *)
Theorem paired_outputs_pair_again mem mem' ls rs rep :
  zero_tables opt mem →
  zero_tables opt mem' →
  Forall (λ l, well_formed opt l = true) ls →
  Forall (λ r, well_formed opt r = true) rs →
  tablesize opt ≠ 0 →
  formatid opt = false →
  pair_files opt mem (render ls) (render rs) = Ok rep →
  ∃ rep',
    pair_files opt mem' (left_paired rep) (right_paired rep) = Ok rep'
    ∧ left_paired rep' = left_paired rep
    ∧ right_paired rep' = right_paired rep
    ∧ left_single rep' = []
    ∧ right_single rep' = [].
Proof.
  intros Hmem Hmem' Hls Hrs Hts Hf Hrun.
  destruct (run_report mem ls rs Hmem Hls Hrs Hts)
    as (rep0 & L0 & E0 & (Hlp & Hrp & _) & _).
  rewrite Hrun in E0. injection E0 as <-.
  set (f := λ r, mate opt ls (key opt r)) in *.
  set (P := filter (λ r, is_Some (f r)) (kept opt rs)) in *.
  set (LP := omap f (kept opt rs)) in *.
  change (left_paired rep = mjoin (out_left opt <$> LP)) in Hlp.
  change (right_paired rep = mjoin (out_right opt <$> P)) in Hrp.
  rewrite (proj1 (outputs_verbatim LP Hf)) in Hlp.
  rewrite (proj2 (outputs_verbatim P Hf)) in Hrp.
  assert (∀ l, l ∈ LP → mate opt ls (key opt l) = Some l
                        ∧ key opt l ∈ key opt <$> P) as F1.
  { intros l (r & Hr & Em)%list_elem_of_omap. unfold f in Em.
    apply mate_Some in Em as Hk. destruct Hk as [_ Hk]. rewrite Hk.
    split; [done|]. apply list_elem_of_fmap_2, list_elem_of_filter.
    split; [|done]. unfold f. by rewrite Em. }
  assert (∀ r, r ∈ P → mate opt LP (key opt r) = f r) as F3.
  { intros r [[l Em] Hr]%list_elem_of_filter.
    assert (l ∈ LP) as Hl by (apply list_elem_of_omap; eauto).
    unfold f in Em |- *. apply mate_Some in Em as Hk. destruct Hk as [_ Hk].
    destruct (mate opt LP (key opt r)) as [l'|] eqn:Em'.
    - apply mate_Some in Em' as [Hl' Hk']. destruct (F1 l' Hl') as [M _].
      by rewrite Hk' in M.
    - by destruct (mate_None opt LP (key opt r) l Em' Hl). }
  assert (Forall (λ l, well_formed opt l = true) LP) as Hwl.
  { apply Forall_forall. intros l Hl. destruct (F1 l Hl) as [[Hin _]%mate_Some _].
    rewrite Forall_forall in Hls. by apply Hls. }
  assert (Forall (λ r, well_formed opt r = true) P) as Hwr.
  { apply Forall_forall. intros r [_ Hr%kept_elem_of]%list_elem_of_filter.
    rewrite Forall_forall in Hrs. by apply Hrs. }
  assert (kept opt P = P) as HkP.
  { apply kept_fixed. intros Hd.
    eapply sublist_NoDup; [by apply (kept_NoDup_keys rs)|].
    apply fmap_sublist, sublist_filter. }
  destruct (run_report mem' LP P Hmem' Hwl Hwr Hts)
    as (rep' & L & E & (Hlp' & Hrp' & Hsi') & (Hls' & HL) & _).
  exists rep'. rewrite Hlp, Hrp. split; [done|].
  rewrite HkP in Hlp', Hrp', Hsi'.
  assert (Forall (λ r, is_Some (mate opt LP (key opt r))) P) as Hall.
  { apply Forall_forall. intros r Hr. rewrite (F3 r Hr).
    by apply list_elem_of_filter in Hr as [? _]. }
  split; [|split; [|split]].
  - rewrite Hlp', (proj1 (outputs_verbatim _ Hf)). f_equal.
    rewrite (omap_ext_Forall _ f) by (by apply Forall_forall).
    apply omap_filter_is_Some.
  - rewrite Hrp', (proj2 (outputs_verbatim _ Hf)). f_equal. by apply filter_all.
  - rewrite Hls'. rewrite filter_none in HL.
    + apply Permutation_nil_r in HL. by rewrite HL.
    + intros l Hl%kept_elem_of Hnot. by destruct (F1 l Hl).
  - rewrite Hsi', filter_none; [done|].
    intros r Hr Hnot. rewrite Forall_forall in Hall. by apply Hnot, Hall.
Qed.

(** X15.  Without id formatting, in a run from tables that hold [NULL] in
    every slot, no right record is altered or lost: the
    two right outputs are made of the right records that are not dropped
    as duplicates, each written once as it was read; with an empty left
    stream they all go to the single output, in their order. *)
Theorem right_records_conserved mem ls rs :
  zero_tables opt mem →
  Forall (λ l, well_formed opt l = true) ls →
  Forall (λ r, well_formed opt r = true) rs →
  tablesize opt ≠ 0 →
  formatid opt = false →
  ∃ rep P S,
    pair_files opt mem (render ls) (render rs) = Ok rep
    ∧ right_paired rep = render P
    ∧ right_single rep = render S
    ∧ P ++ S ≡ₚ kept opt rs
    ∧ (ls = [] → P = [] ∧ S = kept opt rs ∧ left_paired rep = []
                 ∧ left_single rep = []).
Proof.
  intros Hmem Hls Hrs Hts Hf.
  destruct (run_report mem ls rs Hmem Hls Hrs Hts)
    as (rep & L & E & (Hlp & Hrp & Hsi) & (Hle & HL) & _).
  exists rep, (filter (λ r, is_Some (mate opt ls (key opt r))) (kept opt rs)),
    (filter (λ r, ¬ is_Some (mate opt ls (key opt r))) (kept opt rs)).
  split; [done|].
  split; [by rewrite Hrp, (proj2 (outputs_verbatim _ Hf))|].
  split; [by rewrite Hsi, (proj2 (outputs_verbatim _ Hf))|].
  split; [apply filter_app_complement|].
  intros ->. simpl in HL. apply Permutation_nil_r in HL.
  split; [by apply filter_none; intros r _ [? ?]|].
  split; [apply filter_all, Forall_forall; by intros r _ [? ?]|].
  split; [|by rewrite Hle, HL].
  rewrite Hlp.
  change (mjoin (out_left opt <$> omap (λ _, None) (kept opt rs)) = []).
  by rewrite omap_nothing.
Qed.

Lemma mate_Permutation ls ls' k :
  ls ≡ₚ ls' → NoDup (key opt <$> ls) → mate opt ls k = mate opt ls' k.
Proof.
  intros Hp Hnd.
  assert (NoDup (key opt <$> ls')) as Hnd' by (by rewrite <- Hp).
  destruct (mate opt ls k) as [l|] eqn:Em.
  - apply mate_Some in Em as [Hin <-]. symmetry. apply mate_NoDup; [done|].
    by rewrite <- Hp.
  - destruct (mate opt ls' k) as [l'|] eqn:Em'; [|done].
    apply mate_Some in Em' as [Hin Hk]. rewrite <- Hp in Hin.
    by destruct (mate_None opt ls k l' Em Hin).
Qed.

(** X17.  The order of the left records does not matter to the pairing:
    when no canonical id occurs twice in the left stream, a run from tables
    that hold [NULL] in every slot on the
    left records in another order writes the same two paired outputs and
    the same right single output, and reports the same six counters. *)
Theorem left_order_irrelevant mem ls ls' rs :
  zero_tables opt mem →
  Forall (λ l, well_formed opt l = true) ls →
  Forall (λ r, well_formed opt r = true) rs →
  tablesize opt ≠ 0 →
  NoDup (key opt <$> ls) →
  ls ≡ₚ ls' →
  ∃ rep rep',
    pair_files opt mem (render ls) (render rs) = Ok rep
    ∧ pair_files opt mem (render ls') (render rs) = Ok rep'
    ∧ left_paired rep' = left_paired rep
    ∧ right_paired rep' = right_paired rep
    ∧ right_single rep' = right_single rep
    ∧ left_paired_counter rep' = left_paired_counter rep
    ∧ right_paired_counter rep' = right_paired_counter rep
    ∧ left_single_counter rep' = left_single_counter rep
    ∧ right_single_counter rep' = right_single_counter rep
    ∧ left_duplicates_counter rep' = left_duplicates_counter rep
    ∧ right_duplicates_counter rep' = right_duplicates_counter rep.
Proof.
  intros Hmem Hls Hrs Hts Hnd Hp.
  assert (Forall (λ l, well_formed opt l = true) ls') as Hls' by (by rewrite <- Hp).
  assert (NoDup (key opt <$> ls')) as Hnd' by (by rewrite <- Hp).
  destruct (run_report mem ls rs Hmem Hls Hrs Hts)
    as (rep & L & E & (Hlp & Hrp & Hsi) & _ & (C1 & C2 & C3 & C4 & C5 & C6) & _).
  destruct (run_report mem ls' rs Hmem Hls' Hrs Hts)
    as (rep' & L' & E' & (Hlp' & Hrp' & Hsi') & _
        & (C1' & C2' & C3' & C4' & C5' & C6') & _).
  exists rep, rep'. split; [done|]. split; [done|].
  assert (omap (λ r, mate opt ls' (key opt r)) (kept opt rs)
          = omap (λ r, mate opt ls (key opt r)) (kept opt rs)) as Eo.
  { apply omap_ext_Forall, Forall_forall. intros r _. symmetry.
    by apply mate_Permutation. }
  assert (filter (λ r, is_Some (mate opt ls' (key opt r))) (kept opt rs)
          = filter (λ r, is_Some (mate opt ls (key opt r))) (kept opt rs)) as Ef.
  { apply filter_ext_Forall, Forall_forall. intros r _.
    by rewrite (mate_Permutation ls ls'). }
  assert (filter (λ r, ¬ is_Some (mate opt ls' (key opt r))) (kept opt rs)
          = filter (λ r, ¬ is_Some (mate opt ls (key opt r))) (kept opt rs)) as En.
  { apply filter_ext_Forall, Forall_forall. intros r _.
    by rewrite (mate_Permutation ls ls'). }
  rewrite (kept_fixed ls) in C4, C5 by done.
  rewrite (kept_fixed ls') in C4', C5' by done.
  rewrite Hlp', Hrp', Hsi', C1', C2', C3', C4', Eo, Ef, En.
  rewrite Hlp, Hrp, Hsi, C1, C2, C3, C4.
  do 5 (split; [done|]). split; [by rewrite Hp|]. split; [done|]. lia.
Qed.

End Run.

(** * Instances *)

#[local] Existing Instance demo_platform.

(** The demonstration allocations have the sizes asked for and, but for
    [stale_mem], tables that hold [NULL] in every slot. *)
Ltac zero_tables_by_computation :=
  split; [reflexivity|split; [intros _; reflexivity|reflexivity]].

Lemma left_duplicate_skipped_witness :
  left_body dedup_opt dup_state0 = Ok (Some dup_state1)
  ∧ ∃ st', left_body dedup_opt dup_state1 = Ok (Some st')
           ∧ l_ids_left st' = <[4 := [Idloc (bytes "A/") 0 false]]> (replicate 7 [])
           ∧ l_left_duplicates st' = 1.
Proof.
  split; [reflexivity|].
  eapply (left_duplicate_skipped dedup_opt dup_state1).
  - reflexivity.
  - vm_compute. reflexivity.
  - vm_compute. reflexivity.
  - vm_compute. reflexivity.
  - exists (Idloc (bytes "A/") 0 false). split; [|reflexivity].
    vm_compute. left.
Defined.

Lemma orphan_pass_witness :
  points_into [left_A; left_B] demo_table
  ∧ o_left_single (orphan_loop demo_opt demo_table demo_orphan_state)
    = render [left_B]
  ∧ o_left_single_counter (orphan_loop demo_opt demo_table demo_orphan_state) = 1.
Proof.
  assert (points_into [left_A; left_B] demo_table) as Hpts.
  { repeat constructor; vm_compute; eauto. }
  split; [done|]. split.
  - rewrite (proj2 (proj2 (proj2 (orphan_pass demo_opt demo_table demo_orphan_state)))
               [left_A; left_B]); [reflexivity|reflexivity|reflexivity| |done].
    repeat constructor.
  - rewrite (proj1 (proj2 (orphan_pass demo_opt demo_table demo_orphan_state))).
    reflexivity.
Defined.

Lemma paired_counters_equal_witness :
  is_Ok (pair_files demo_opt zero_mem demo_left demo_right) = true
  ∧ ∀ rep, pair_files demo_opt zero_mem demo_left demo_right = Ok rep →
           left_paired_counter rep = right_paired_counter rep.
Proof.
  split; [reflexivity|]. intros rep.
  apply (proj2 (proj2 (paired_counters_equal demo_opt)) zero_mem demo_left
           demo_right rep).
Defined.

Lemma run_within_bound_witness :
  pair_files demo_opt stale_mem demo_left demo_right ≠ OutOfFuel.
Proof.
  apply (run_within_bound demo_opt stale_mem demo_left demo_right).
  simpl. lia.
Defined.

Lemma short_record_not_detected_witness :
  ∃ st', right_body demo_opt truncated_state = Ok (Some st')
         ∧ right_body demo_opt st' = Ok None
         ∧ r_right_single_counter st' = 1
         ∧ r_right_single st' = ln "C/2" ++ bytes "C/" ++ bytes "C/" ++ bytes "C/".
Proof.
  edestruct (proj2 (proj2 (short_record_not_detected demo_opt)) truncated_state
               (Stream (ln "C/2") 4) (ln "C/2" ++ replicate 29 NUL)
               (bytes "C/" ++ replicate 31 NUL) 3 0)
    as (st' & B & E & _ & _);
    [reflexivity|reflexivity|reflexivity|lia|simpl; lia|].
  exists st'. split; [done|]. split; [done|].
  vm_compute in B. injection B as <-. split; reflexivity.
Defined.

(** The run on a right stream that ends after a header: no error, the
    record is counted as a single and what the line buffer holds, the
    canonical id, stands three times where the missing lines would be. *)
Lemma format_error_counterexample :
  pair_files demo_opt zero_mem (render [left_A; left_B]) (render [right_A] ++ ln "C/2")
  = Ok (Report (render [left_A]) (render [right_A]) (render [left_B])
          (ln "C/2" ++ bytes "C/" ++ bytes "C/" ++ bytes "C/")
          1 1 1 1 0 0).
Proof. reflexivity. Qed.

Lemma paired_exactly_once_witness :
  ∃ rep,
    pair_files demo_opt zero_mem (render [left_A; left_B]) (render [right_A; right_C]) = Ok rep
    ∧ left_paired rep = render [left_A]
    ∧ right_paired rep = render [right_A].
Proof.
  destruct (paired_exactly_once demo_opt zero_mem [left_A; left_B]
              [right_A; right_C])
    as (rep & Hrun & Hlp & Hrp & _).
  - zero_tables_by_computation.
  - repeat constructor.
  - repeat constructor.
  - apply (bool_decide_unpack _). vm_compute. exact I.
  - apply (bool_decide_unpack _). vm_compute. exact I.
  - simpl. lia.
  - exists rep. split; [exact Hrun|]. rewrite Hlp, Hrp. split; reflexivity.
Defined.

(** Two well-formed left records with the same id, one right record with
    that id, no duplicate tracking: the run completes, left-paired holds
    the first left record only, and the second, whose id does occur in the
    right stream, is nowhere in it. *)
Lemma paired_exactly_once_counterexample :
  well_formed demo_opt left_A = true
  ∧ well_formed demo_opt left_A2 = true
  ∧ well_formed demo_opt right_A = true
  ∧ key demo_opt left_A2 = key demo_opt right_A
  ∧ pair_files demo_opt zero_mem (render [left_A; left_A2]) (render [right_A])
    = Ok (Report (render [left_A]) (render [right_A]) [] [] 1 1 0 0 0 0)
  ∧ ¬ ∃ pre post, render [left_A] = pre ++ render_record left_A2 ++ post.
Proof.
  split; [reflexivity|]. split; [reflexivity|]. split; [reflexivity|].
  split; [reflexivity|]. split; [reflexivity|].
  intros (pre & post & H). pose proof (f_equal length H) as Hlen.
  rewrite !length_app in Hlen.
  change (length (render [left_A])) with 16 in Hlen.
  change (length (render_record left_A2)) with 16 in Hlen.
  destruct pre; [|simpl in Hlen; lia]. destruct post; [|simpl in Hlen; lia].
  vm_compute in H. discriminate.
Qed.

Lemma every_record_counted_witness :
  ∃ rep,
    pair_files dedup_opt zero_mem (render [left_A; left_A2; left_B])
      (render [right_A; right_A; right_C]) = Ok rep
    ∧ left_paired_counter rep + left_single_counter rep
      + left_duplicates_counter rep = 3
    ∧ right_paired_counter rep + right_single_counter rep
      + right_duplicates_counter rep = 3.
Proof.
  apply (every_record_counted dedup_opt zero_mem [left_A; left_A2; left_B]
           [right_A; right_A; right_C]).
  - zero_tables_by_computation.
  - reflexivity.
  - repeat constructor.
  - repeat constructor.
  - simpl. lia.
Defined.

(** The scenario with left ids [A/1], [B/1] and right ids [A/2], [C/2]. *)
Example end_to_end :
  pair_files demo_opt zero_mem (render [left_A; left_B]) (render [right_A; right_C])
  = Ok (Report (render [left_A]) (render [right_A]) (render [left_B])
          (render [right_C]) 1 1 1 1 0 0).
Proof. reflexivity. Qed.

Lemma index_entries_kept_witness :
  ∃ st', right_body demo_opt truncated_state = Ok (Some st')
         ∧ length (r_ids_left st') = length (r_ids_left truncated_state)
         ∧ Forall2 (Forall2 entry_kept) (r_ids_left truncated_state)
             (r_ids_left st').
Proof.
  eexists. split; [reflexivity|].
  apply (index_entries_kept demo_opt truncated_state).
  apply rtc_once. reflexivity.
Defined.

Lemma left_loop_grows_witness :
  ∃ st', left_loop dedup_opt 3 dup_state0 = Ok st'
         ∧ length (l_ids_left st') = length (l_ids_left dup_state0)
         ∧ (∀ h, bucket (l_ids_left dup_state0) h `suffix_of` bucket (l_ids_left st') h)
         ∧ l_left_duplicates dup_state0 ≤ l_left_duplicates st'.
Proof.
  destruct (left_loop dedup_opt 3 dup_state0) as [st'| |] eqn:E;
    [|vm_compute in E; discriminate..].
  exists st'. split; [reflexivity|].
  destruct (left_loop_grows dedup_opt 3 dup_state0 st' E) as (H1 & H2 & H3 & _).
  split; [exact H1|]. split; [exact H2|exact H3].
Defined.

Lemma no_tracking_no_duplicates_witness :
  ∃ rep,
    pair_files demo_opt zero_mem (render [left_A; left_A2]) (render [right_A; right_A])
    = Ok rep
    ∧ left_duplicates_counter rep = 0
    ∧ right_duplicates_counter rep = 0.
Proof.
  destruct (pair_files demo_opt zero_mem (render [left_A; left_A2])
              (render [right_A; right_A])) as [rep| |] eqn:E;
    [|vm_compute in E; discriminate..].
  exists rep. split; [reflexivity|].
  apply (no_tracking_no_duplicates demo_opt zero_mem (render [left_A; left_A2])
           (render [right_A; right_A]) rep eq_refl E).
Defined.

Lemma run_outputs_witness :
  ∃ rep,
    pair_files dedup_opt zero_mem (render [left_A; left_A2; left_B])
      (render [right_A; right_A; right_C]) = Ok rep
    ∧ left_paired rep = render [left_A]
    ∧ right_paired rep = render [right_A]
    ∧ right_single rep = render [right_C].
Proof.
  destruct (run_outputs dedup_opt zero_mem [left_A; left_A2; left_B]
              [right_A; right_A; right_C])
    as (rep & Hrun & Hlp & Hrp & Hsi).
  - zero_tables_by_computation.
  - repeat constructor.
  - repeat constructor.
  - simpl. lia.
  - exists rep. split; [exact Hrun|]. rewrite Hlp, Hrp, Hsi.
    split; [reflexivity|]. split; reflexivity.
Defined.

Lemma run_left_single_witness :
  ∃ rep,
    pair_files dedup_opt used_line_mem (render [left_A; left_A2; left_B])
      (render [right_C]) = Ok rep
    ∧ left_single rep = render [left_B; left_A].
Proof.
  destruct (run_left_single dedup_opt used_line_mem [left_A; left_A2; left_B]
              [right_C])
    as (rep & Hrun & Hls & _).
  - zero_tables_by_computation.
  - repeat constructor.
  - repeat constructor.
  - simpl. lia.
  - exists rep. split; [exact Hrun|]. rewrite Hls. reflexivity.
Defined.

Lemma run_counters_witness :
  ∃ rep,
    pair_files dedup_opt zero_mem (render [left_A; left_A2; left_B])
      (render [right_A; right_A; right_C]) = Ok rep
    ∧ left_paired_counter rep = 1
    ∧ right_paired_counter rep = 1
    ∧ right_single_counter rep = 1
    ∧ left_single_counter rep = 1
    ∧ left_duplicates_counter rep = 1
    ∧ right_duplicates_counter rep = 1.
Proof.
  destruct (run_counters dedup_opt zero_mem [left_A; left_A2; left_B]
              [right_A; right_A; right_C])
    as (rep & Hrun & C1 & C2 & C3 & C4 & C5 & C6).
  - zero_tables_by_computation.
  - repeat constructor.
  - repeat constructor.
  - simpl. lia.
  - exists rep. split; [exact Hrun|]. rewrite C1, C2, C3, C4.
    do 4 (split; [reflexivity|]).
    change (left_duplicates_counter rep + 2 = 3) in C5.
    change (right_duplicates_counter rep + 2 = 3) in C6. lia.
Defined.

Lemma index_lookup_witness :
  ∃ st,
    left_loop demo_opt (S (length (render [left_A; left_A2; left_B])))
      (LeftState (Stream (render [left_A; left_A2; left_B]) 0)
         (replicate 33 NUL) 0 (replicate 7 []) 0) = Ok st
    ∧ record_at [left_A; left_A2; left_B] 0
        (find_mate (bucket (l_ids_left st) (hashval demo_opt (bytes "A/")))
           (bytes "A/") (-1)).1
      = Some left_A
    ∧ (find_mate (bucket (l_ids_left st) (hashval demo_opt (bytes "C/")))
         (bytes "C/") (-1)).1 = (-1)%Z.
Proof.
  destruct (index_lookup demo_opt [left_A; left_A2; left_B]) as (st & Hrun & H).
  - repeat constructor.
  - simpl. lia.
  - exists st. split; [exact Hrun|]. split.
    + pose proof (H (bytes "A/")) as Hk. cbv zeta in Hk. destruct Hk as [Hk _].
      rewrite Hk. reflexivity.
    + pose proof (H (bytes "C/")) as Hk. cbv zeta in Hk. destruct Hk as [_ Hk].
      apply Hk. apply (bool_decide_unpack _). vm_compute. exact I.
Defined.

Lemma bucket_sizes_witness :
  ∃ st,
    left_loop dedup_opt (S (length (render [left_A; left_A2; left_B])))
      (LeftState (Stream (render [left_A; left_A2; left_B]) 0)
         (replicate 33 NUL) 0 (replicate 7 []) 0) = Ok st
    ∧ length (table_counts (l_ids_left st)) = 7
    ∧ table_counts (l_ids_left st) !! 4 = Some (4, length (bucket (l_ids_left st) 4))
    ∧ sum_list (table_counts (l_ids_left st)).*2 + l_left_duplicates st = 3.
Proof.
  destruct (bucket_sizes dedup_opt [left_A; left_A2; left_B])
    as (st & Hrun & H1 & H2 & H3).
  - repeat constructor.
  - simpl. lia.
  - exists st. split; [exact Hrun|]. split; [exact H1|].
    split; [|exact H3]. apply H2. simpl. lia.
Defined.

Lemma paired_outputs_pair_again_witness :
  ∃ rep',
    pair_files demo_opt zero_mem (render [left_A]) (render [right_A]) = Ok rep'
    ∧ left_paired rep' = render [left_A]
    ∧ right_paired rep' = render [right_A]
    ∧ left_single rep' = []
    ∧ right_single rep' = [].
Proof.
  apply (paired_outputs_pair_again demo_opt used_line_mem zero_mem
           [left_A; left_B] [right_A; right_C]
           (Report (render [left_A]) (render [right_A]) (render [left_B])
              (render [right_C]) 1 1 1 1 0 0)).
  - zero_tables_by_computation.
  - zero_tables_by_computation.
  - repeat constructor.
  - repeat constructor.
  - simpl. lia.
  - reflexivity.
  - reflexivity.
Defined.

Lemma right_records_conserved_witness :
  ∃ rep P S,
    pair_files demo_opt zero_mem (render [left_A; left_B]) (render [right_A; right_C])
    = Ok rep
    ∧ right_paired rep = render P
    ∧ right_single rep = render S
    ∧ P ++ S ≡ₚ [right_A; right_C].
Proof.
  destruct (right_records_conserved demo_opt zero_mem [left_A; left_B]
              [right_A; right_C])
    as (rep & P & S & Hrun & H1 & H2 & H3 & _).
  - zero_tables_by_computation.
  - repeat constructor.
  - repeat constructor.
  - simpl. lia.
  - reflexivity.
  - exists rep, P, S. split; [exact Hrun|]. split; [exact H1|].
    split; [exact H2|exact H3].
Defined.

Lemma left_order_irrelevant_witness :
  ∃ rep rep',
    pair_files demo_opt zero_mem (render [left_A; left_B]) (render [right_A; right_C])
    = Ok rep
    ∧ pair_files demo_opt zero_mem (render [left_B; left_A]) (render [right_A; right_C])
      = Ok rep'
    ∧ left_paired rep' = left_paired rep
    ∧ right_paired rep' = right_paired rep
    ∧ right_single rep' = right_single rep.
Proof.
  destruct (left_order_irrelevant demo_opt zero_mem [left_A; left_B]
              [left_B; left_A] [right_A; right_C])
    as (rep & rep' & E & E' & H1 & H2 & H3 & _).
  - zero_tables_by_computation.
  - repeat constructor.
  - repeat constructor.
  - simpl. lia.
  - apply (bool_decide_unpack _). vm_compute. exact I.
  - apply perm_swap.
  - exists rep, rep'. split; [exact E|]. split; [exact E'|].
    split; [exact H1|]. split; [exact H2|exact H3].
Defined.

Lemma line_buffer_irrelevant_witness :
  pair_files demo_opt zero_mem (render [left_A; left_B]) (render [right_A; right_C])
  = pair_files demo_opt used_line_mem (render [left_A; left_B])
      (render [right_A; right_C]).
Proof.
  apply (proj1 (line_buffer_irrelevant demo_opt zero_mem used_line_mem
                  [left_A; left_B] [right_A; right_C]
                  ltac:(zero_tables_by_computation)
                  ltac:(zero_tables_by_computation)
                  ltac:(repeat constructor) ltac:(repeat constructor)
                  ltac:(simpl; lia))).
Defined.

(** C8.  The run is not a function of the two streams and the
    configuration alone: it reads the slots of its tables as [malloc]
    left them.  The same left stream (one record, [B/1]), the same right
    stream (one record, [C/2]) and the same options give one report from
    tables that hold [NULL] in every slot and another when slot 4 of the
    left table holds an entry left by an earlier use of the memory: the
    last loop follows that entry and writes the record at its position a
    second time to the left single output. *)
Theorem run_depends_on_allocation :
  pair_files demo_opt zero_mem (render [left_B]) (render [right_C])
  = Ok (Report [] [] (render [left_B]) (render [right_C]) 0 0 1 1 0 0)
  ∧ pair_files demo_opt stale_mem (render [left_B]) (render [right_C])
    = Ok (Report [] [] (render [left_B; left_B]) (render [right_C]) 0 0 2 1 0 0)
  ∧ pair_files demo_opt zero_mem (render [left_B]) (render [right_C])
    ≠ pair_files demo_opt stale_mem (render [left_B]) (render [right_C]).
Proof.
  assert (pair_files demo_opt zero_mem (render [left_B]) (render [right_C])
          = Ok (Report [] [] (render [left_B]) (render [right_C]) 0 0 1 1 0 0))
    as E1 by reflexivity.
  assert (pair_files demo_opt stale_mem (render [left_B]) (render [right_C])
          = Ok (Report [] [] (render [left_B; left_B]) (render [right_C])
                  0 0 2 1 0 0)) as E2 by reflexivity.
  split; [exact E1|]. split; [exact E2|]. rewrite E1, E2. discriminate.
Qed.

(** C10.  With duplicate tracking and two streams of one well-formed
    record each, a run whose left table holds in slot 4 an entry left by
    an earlier use of the memory writes the left record twice to the left
    single output and counts two left singles: the counters of the left
    side add up to 2 for a left stream of one record. *)
Theorem stale_table_miscounts :
  well_formed dedup_opt left_B = true
  ∧ well_formed dedup_opt right_C = true
  ∧ ∃ rep,
      pair_files dedup_opt stale_mem (render [left_B]) (render [right_C]) = Ok rep
      ∧ rep = Report [] [] (render [left_B; left_B]) (render [right_C])
                0 0 2 1 0 0
      ∧ left_paired_counter rep + left_single_counter rep
        + left_duplicates_counter rep ≠ length [left_B].
Proof.
  split; [reflexivity|]. split; [reflexivity|].
  exists (Report [] [] (render [left_B; left_B]) (render [right_C]) 0 0 2 1 0 0).
  split; [reflexivity|]. split; [reflexivity|]. simpl. lia.
Qed.
